(** * socow_vector: a small-object, copy-on-write vector

    A shallow embedding of [socow-vector.h].  The C++ class template
    [socow_vector<T, SMALL_SIZE>] keeps up to [SMALL_SIZE] elements inline
    and otherwise points to a reference-counted heap buffer that several
    instances may share.

    The embedding is a state-and-exception monad over a [world] holding
    - the live [socow_vector] objects, keyed by their address (so that the
      identity test [this == &other] and aliasing between instances are
      expressible),
    - the heap of [buffer] blocks, keyed by their address,
    - the number of element copy-constructions attempted so far.

    Raw storage is an array of slots; a slot is [None] while no object
    lives in it (uninitialised or destroyed) and [Some x] while it holds
    the element [x].  An access outside an array, a read of an empty slot,
    a use of a dead object or of a clobbered union member is undefined
    behaviour and makes the computation end in [Undef].

    A [std::size_t] value is a [nat].  The two computations on it that can
    exceed [SIZE_MAX], the byte size of a block in [buffer::create_buf] and
    the doubled capacity in [insert], are taken modulo [SIZE_MAX + 1] as
    the code computes them; a subtraction that would wrap below zero is
    reported as [Undef].  [operator new] itself always succeeds and returns
    a block of the size it was asked for.  The element type's copy
    constructor throws when the schedule [throws] says so at the current
    copy count; moves and swaps of elements do not throw. *)

From stdpp Require Import gmap list.

Module Socow.

Section socow_vector.

(** The sizes of the target that enter the byte size of a block:
    [SIZE_MAX], [sizeof(buffer)] (the header in front of the elements) and
    [sizeof(T)], which is not zero. *)
Record layout := mk_layout {
  SIZE_MAX : N;
  sizeof_buffer : N;
  sizeof_T : positive
}.

Context {T : Type}.
(** The template parameter [SMALL_SIZE]. *)
Variable SMALL_SIZE : nat.
Variable target : layout.
(** [throws n]: the copy constructor of [T] throws at its [n]-th call
    (counted from zero over the whole run). *)
Variable throws : nat → bool.

(** ** Data *)

(** [class buffer]: header and flexible array [data_]. *)
Record buffer := mk_buffer {
  capacity_ : nat;
  ref_count_ : nat;
  data_ : list (option T)
}.

(** The anonymous union [{ buffer* buf_; T small_[SMALL_SIZE]; }]: only
    the member written last can be read. *)
Inductive storage :=
  | buf_ (p : nat)
  | small_ (slots : list (option T)).

Record socow_vector := mk_vec {
  size_ : nat;
  is_small_ : bool;
  store_ : storage
}.

Record world := mk_world {
  vecs : gmap nat socow_vector;
  heap : gmap nat buffer;
  copies : nat
}.

(** The inline array as it is seen through the union: when the pointer
    member was written last, no element lives in the array. *)
Definition small_of (s : storage) : list (option T) :=
  match s with
  | small_ l => l
  | buf_ _ => replicate SMALL_SIZE None
  end.

(** A pointer to an element slot: the array it points into and the index. *)
Inductive region :=
  | in_small (id : nat)
  | in_buf (p : nat).

Definition ptr : Type := region * nat.

Definition ptr_add (p : ptr) (k : nat) : ptr := (p.1, p.2 + k).

Global Instance region_eq_dec : EqDecision region.
Proof. solve_decision. Defined.

(** ** Outcomes and the monad *)

Inductive result (A : Type) :=
  | Ok (a : A) (w : world)
  | Throw (w : world)
  | Undef.
Global Arguments Ok {A} a w.
Global Arguments Throw {A} w.
Global Arguments Undef {A}.

Definition M (A : Type) : Type := world → result A.

Definition ret {A} (a : A) : M A := λ w, Ok a w.

Definition bind {A B} (c : M A) (f : A → M B) : M B := λ w,
  match c w with
  | Ok a w' => f a w'
  | Throw w' => Throw w'
  | Undef => Undef
  end.

Notation "x <- c ;; k" := (bind c (λ x, k))
  (at level 100, c at next level, k at level 200, right associativity).
Notation "c ;; k" := (bind c (λ _, k))
  (at level 100, k at level 200, right associativity).

Definition undef {A} : M A := λ _, Undef.

(** [throw;] *)
Definition throw {A} : M A := λ w, Throw w.

(** [try { c } catch (...) { h }] *)
Definition try_catch {A} (c : M A) (h : M A) : M A := λ w,
  match c w with
  | Throw w' => h w'
  | r => r
  end.

(** Scope exit: [d] runs on normal exit and during unwinding alike. *)
Definition finally {A} (c : M A) (d : M unit) : M A := λ w,
  match c w with
  | Ok a w' => (d ;; ret a) w'
  | Throw w' => (d ;; throw) w'
  | Undef => Undef
  end.

Definition put_world_with (f : world → world) : M unit := λ w, Ok tt (f w).

(** ** World updates *)

Definition set_vecs (f : gmap nat socow_vector → gmap nat socow_vector)
    (w : world) : world :=
  mk_world (f (vecs w)) (heap w) (copies w).

Definition set_heap (f : gmap nat buffer → gmap nat buffer)
    (w : world) : world :=
  mk_world (vecs w) (f (heap w)) (copies w).

Definition tick (w : world) : world :=
  mk_world (vecs w) (heap w) (S (copies w)).

Arguments set_vecs _ _ /.
Arguments set_heap _ _ /.
Arguments tick _ /.

Definition with_size (n : nat) (v : socow_vector) : socow_vector :=
  mk_vec n (is_small_ v) (store_ v).
Definition with_is_small (b : bool) (v : socow_vector) : socow_vector :=
  mk_vec (size_ v) b (store_ v).
Definition with_store (s : storage) (v : socow_vector) : socow_vector :=
  mk_vec (size_ v) (is_small_ v) s.

Definition with_ref_count (n : nat) (b : buffer) : buffer :=
  mk_buffer (capacity_ b) n (data_ b).
Definition with_data (l : list (option T)) (b : buffer) : buffer :=
  mk_buffer (capacity_ b) (ref_count_ b) l.

(** ** Access to objects *)

Definition get_vec (id : nat) : M socow_vector := λ w,
  match vecs w !! id with
  | Some v => Ok v w
  | None => Undef
  end.

Definition put_vec (id : nat) (v : socow_vector) : M unit := λ w,
  Ok tt (set_vecs <[id := v]> w).

Definition get_buffer (p : nat) : M buffer := λ w,
  match heap w !! p with
  | Some b => Ok b w
  | None => Undef
  end.

Definition put_buffer (p : nat) (b : buffer) : M unit := λ w,
  Ok tt (set_heap <[p := b]> w).

(** Reading the member [buf_] of the union. *)
Definition get_buf_ (this : nat) : M nat :=
  v <- get_vec this ;;
  match store_ v with
  | buf_ p => ret p
  | small_ _ => undef
  end.

Definition set_buf_ (this : nat) (p : nat) : M unit :=
  v <- get_vec this ;; put_vec this (with_store (buf_ p) v).

Definition set_size_ (this : nat) (n : nat) : M unit :=
  v <- get_vec this ;; put_vec this (with_size n v).

Definition set_is_small_ (this : nat) (b : bool) : M unit :=
  v <- get_vec this ;; put_vec this (with_is_small b v).

(** ** Element slots *)

Definition region_slots (w : world) (r : region) : option (list (option T)) :=
  match r with
  | in_small id => (λ v, small_of (store_ v)) <$> vecs w !! id
  | in_buf p => data_ <$> heap w !! p
  end.

Definition write_region (r : region) (l : list (option T)) (w : world) : world :=
  match r with
  | in_small id => set_vecs (alter (with_store (small_ l)) id) w
  | in_buf p => set_heap (alter (with_data l) p) w
  end.

(** Reading the object in a slot. *)
Definition load (p : ptr) : M T := λ w,
  match region_slots w p.1 with
  | Some l =>
      match l !! p.2 with
      | Some (Some x) => Ok x w
      | _ => Undef
      end
  | None => Undef
  end.

(** Placement of a ready-made object into a slot of raw storage. *)
Definition construct_at (p : ptr) (x : T) : M unit := λ w,
  match region_slots w p.1 with
  | Some l =>
      if decide (p.2 < length l)
      then Ok tt (write_region p.1 (<[p.2 := Some x]> l) w)
      else Undef
  | None => Undef
  end.

(** [p->~T()] *)
Definition destroy_at (p : ptr) : M unit := λ w,
  match region_slots w p.1 with
  | Some l =>
      match l !! p.2 with
      | Some (Some _) => Ok tt (write_region p.1 (<[p.2 := None]> l) w)
      | _ => Undef
      end
  | None => Undef
  end.

(** Assignment to a living object. *)
Definition store (p : ptr) (x : T) : M unit := λ w,
  match region_slots w p.1 with
  | Some l =>
      match l !! p.2 with
      | Some (Some _) => Ok tt (write_region p.1 (<[p.2 := Some x]> l) w)
      | _ => Undef
      end
  | None => Undef
  end.

(** One call of [T]'s copy constructor on [x]. *)
Definition copy_construct (x : T) : M T := λ w,
  if throws (copies w) then Throw (tick w) else Ok x (tick w).

(** [new (p) T(x)] *)
Definition placement_new (p : ptr) (x : T) : M unit :=
  y <- copy_construct x ;; construct_at p y.

(** [first - second] on pointers into one array. *)
Definition ptr_diff (p q : ptr) : M nat :=
  if decide (p.1 = q.1)
  then (if decide (q.2 ≤ p.2) then ret (p.2 - q.2) else undef)
  else undef.

(** [p - k] *)
Definition ptr_sub (p : ptr) (k : nat) : M ptr :=
  if decide (k ≤ p.2) then ret (p.1, p.2 - k) else undef.

(** ** Standard algorithms on raw storage *)

(** [std::destroy_n(first, n)] *)
Fixpoint destroy_n (first : ptr) (n : nat) : M unit :=
  match n with
  | 0 => ret tt
  | S n' => destroy_at first ;; destroy_n (ptr_add first 1) n'
  end.

(** [std::destroy(first, last)] *)
Definition destroy (first last : ptr) : M unit :=
  n <- ptr_diff last first ;; destroy_n first n.

(** The loop of [std::uninitialized_copy_n]: [done] objects stand at
    [d_first] already; when a copy throws they are destroyed and the
    exception goes on. *)
Fixpoint uninitialized_copy_loop (first : ptr) (n : nat) (d_first : ptr)
    (done : nat) : M unit :=
  match n with
  | 0 => ret tt
  | S n' =>
      x <- load (ptr_add first done) ;;
      try_catch (placement_new (ptr_add d_first done) x)
                (destroy_n d_first done ;; throw) ;;
      uninitialized_copy_loop first n' d_first (S done)
  end.

Definition uninitialized_copy_n (first : ptr) (n : nat) (d_first : ptr)
    : M unit :=
  uninitialized_copy_loop first n d_first 0.

Definition uninitialized_copy (first last d_first : ptr) : M unit :=
  n <- ptr_diff last first ;; uninitialized_copy_n first n d_first.

(** [std::swap] on the two elements pointed to. *)
Definition swap_elems (a b : ptr) : M unit :=
  x <- load a ;; y <- load b ;; store a y ;; store b x.

(** [std::swap_ranges(first1, first1 + n, first2)] *)
Fixpoint swap_ranges_n (first1 : ptr) (n : nat) (first2 : ptr) : M unit :=
  match n with
  | 0 => ret tt
  | S n' =>
      swap_elems first1 first2 ;;
      swap_ranges_n (ptr_add first1 1) n' (ptr_add first2 1)
  end.

Definition swap_ranges (first1 last1 first2 : ptr) : M unit :=
  n <- ptr_diff last1 first1 ;; swap_ranges_n first1 n first2.

(** [a - b] on [std::size_t], where the code relies on [b <= a]. *)
Definition size_sub (a b : nat) : M nat :=
  if decide (b ≤ a) then ret (a - b) else undef.

(** [a * b] on [std::size_t]. *)
Definition size_mul (a b : nat) : nat :=
  N.to_nat ((N.of_nat a * N.of_nat b) mod (SIZE_MAX target + 1)).

(** ** [class buffer] *)

(** The element slots of the block that
    [operator new(sizeof(buffer) + sizeof(T) * capacity)] returns, the
    argument being computed on [std::size_t]: the bytes behind the header,
    in units of [sizeof(T)]; [None] when the block is shorter than the
    header that is constructed in it. *)
Definition alloc_slots (capacity : nat) : option nat :=
  let bytes := ((sizeof_buffer target
                 + N.pos (sizeof_T target) * N.of_nat capacity)
                mod (SIZE_MAX target + 1))%N in
  if (bytes <? sizeof_buffer target)%N then None
  else Some (N.to_nat ((bytes - sizeof_buffer target)
                       / N.pos (sizeof_T target))).

(** [buffer::create_buf]: a new block with [capacity_ = capacity],
    [ref_count_ = 1] and the empty slots that its byte size has room
    for. *)
Definition create_buf (capacity : nat) : M nat := λ w,
  match alloc_slots capacity with
  | Some slots =>
      let p := fresh (dom (heap w)) in
      Ok p (set_heap <[p := mk_buffer capacity 1 (replicate slots None)]> w)
  | None => Undef
  end.

(** [buf->~buffer(); operator delete(buf);] *)
Definition delete_buf (buf : nat) : M unit := λ w,
  match heap w !! buf with
  | Some _ => Ok tt (set_heap (delete buf) w)
  | None => Undef
  end.

(** [buf->data()] *)
Definition buffer_data (buf : nat) : M ptr :=
  _ <- get_buffer buf ;; ret (in_buf buf, 0).

(** [buf->capacity()] *)
Definition buffer_capacity (buf : nat) : M nat :=
  b <- get_buffer buf ;; ret (capacity_ b).

(** ** Members that do not need exclusive access *)

(** [socow_vector()] *)
Definition ctor : M nat := λ w,
  let id := fresh (dom (vecs w)) in
  Ok id (set_vecs <[id := mk_vec 0 true (small_ (replicate SMALL_SIZE None))]> w).

(** The private [socow_vector(std::size_t capacity)]. *)
Definition ctor_capacity (capacity : nat) : M nat := λ w,
  let id := fresh (dom (vecs w)) in
  bind (create_buf capacity) (λ buf,
    bind (put_vec id (mk_vec 0 false (buf_ buf))) (λ _, ret id)) w.

Definition size (this : nat) : M nat :=
  v <- get_vec this ;; ret (size_ v).

Definition get_is_small_ (this : nat) : M bool :=
  v <- get_vec this ;; ret (is_small_ v).

Definition capacity (this : nat) : M nat :=
  sm <- get_is_small_ this ;;
  if sm then ret SMALL_SIZE
  else buf <- get_buf_ this ;; buffer_capacity buf.

(** [data() const] *)
Definition data_const (this : nat) : M ptr :=
  sm <- get_is_small_ this ;;
  if sm then ret (in_small this, 0)
  else buf <- get_buf_ this ;; buffer_data buf.

Definition begin_const (this : nat) : M ptr := data_const this.

Definition end_const (this : nat) : M ptr :=
  d <- data_const this ;; n <- size this ;; ret (ptr_add d n).

Definition shared_buf (this : nat) : M bool :=
  sm <- get_is_small_ this ;;
  if sm then ret false
  else buf <- get_buf_ this ;;
       b <- get_buffer buf ;;
       ret (bool_decide (1 < ref_count_ b)).

Definition release_ref (this buf : nat) : M unit :=
  b <- get_buffer buf ;;
  n <- size_sub (ref_count_ b) 1 ;;
  put_buffer buf (with_ref_count n b) ;;
  b <- get_buffer buf ;;
  if decide (ref_count_ b = 0) then
    d <- buffer_data buf ;;
    n <- size this ;;
    destroy_n d n ;;
    delete_buf buf
  else ret tt.

(** ** The mutation gate

    The non-const [data()] calls [unshare], which calls
    [container_destroy], which calls the non-const [begin()], that is
    [data()] again.  [data_rec] stands for that inner call; the knot is
    tied below by a counter of nested calls. *)

Section gate.

Variable data_rec : nat → M ptr.

Definition container_destroy_rec (this : nat) : M unit :=
  sm <- get_is_small_ this ;;
  if sm then
    b <- data_rec this ;;
    n <- size this ;;
    destroy_n b n
  else
    buf <- get_buf_ this ;;
    release_ref this buf.

Definition unshare_rec (this : nat) (new_capacity : nat) : M unit :=
  new_buf <- create_buf new_capacity ;;
  try_catch
    (src <- data_const this ;;
     n <- size this ;;
     d <- buffer_data new_buf ;;
     uninitialized_copy_n src n d)
    (delete_buf new_buf ;; throw) ;;
  container_destroy_rec this ;;
  set_is_small_ this false ;;
  set_buf_ this new_buf.

Definition data_body (this : nat) : M ptr :=
  sh <- shared_buf this ;;
  if negb sh then
    sm <- get_is_small_ this ;;
    if sm then ret (in_small this, 0)
    else buf <- get_buf_ this ;; buffer_data buf
  else
    c <- capacity this ;;
    unshare_rec this c ;;
    buf <- get_buf_ this ;;
    buffer_data buf.

End gate.

Fixpoint data_fuel (fuel : nat) (this : nat) : M ptr :=
  match fuel with
  | 0 => undef
  | S fuel' => data_body (data_fuel fuel') this
  end.

(** The non-const [data()]. *)
Definition data (this : nat) : M ptr := data_fuel 2 this.

Definition container_destroy (this : nat) : M unit :=
  container_destroy_rec data this.

Definition unshare (this : nat) (new_capacity : nat) : M unit :=
  unshare_rec data this new_capacity.

Definition begin (this : nat) : M ptr := data this.

Definition end_ (this : nat) : M ptr :=
  d <- data this ;; n <- size this ;; ret (ptr_add d n).

(** [~socow_vector()]; the object is gone afterwards. *)
Definition dtor (this : nat) : M unit :=
  container_destroy this ;;
  put_world_with (set_vecs (delete this)).

(** A local object: constructed, used by [body], destroyed at scope
    exit whether [body] returns or throws. *)
Definition with_local {A} (make : M nat) (body : nat → M A) : M A :=
  tmp <- make ;; finally (body tmp) (dtor tmp).

(** [operator[]] and friends give the address of the element. *)
Definition operator_index (this : nat) (index : nat) : M ptr :=
  d <- data this ;; ret (ptr_add d index).

Definition operator_index_const (this : nat) (index : nat) : M ptr :=
  d <- data_const this ;; ret (ptr_add d index).


Definition front_const (this : nat) : M ptr :=
  d <- data_const this ;; ret (ptr_add d 0).


Definition back_const (this : nat) : M ptr :=
  d <- data_const this ;; n <- size this ;; i <- size_sub n 1 ;; ret (ptr_add d i).

Definition empty (this : nat) : M bool :=
  n <- size this ;; ret (bool_decide (n = 0)).

Definition copy_to_small (this : nat) (from : ptr) (n : nat) : M unit :=
  tmp <- get_buf_ this ;;
  try_catch
    (uninitialized_copy_n from n (in_small this, 0))
    (set_buf_ this tmp ;; throw) ;;
  set_is_small_ this true ;;
  release_ref this tmp.

(** ** Copy assignment and copy construction *)

Definition operator_assign (this other : nat) : M unit :=
  if decide (this = other) then ret tt
  else
    osm <- get_is_small_ other ;;
    (if negb osm then
       container_destroy this ;;
       buf <- get_buf_ other ;;
       set_buf_ this buf ;;
       buf <- get_buf_ this ;;
       b <- get_buffer buf ;;
       put_buffer buf (with_ref_count (ref_count_ b + 1) b) ;;
       set_is_small_ this false
     else
       sm <- get_is_small_ this ;;
       osm <- get_is_small_ other ;;
       if negb sm && osm then
         ob <- begin_const other ;;
         on <- size other ;;
         copy_to_small this ob on
       else
         n <- size this ;;
         on <- size other ;;
         let min_size := n `min` on in
         with_local ctor (λ tmp,
           ob <- begin_const other ;;
           tb <- begin tmp ;;
           uninitialized_copy_n ob min_size tb ;;
           set_size_ tmp min_size ;;
           n <- size this ;;
           on <- size other ;;
           (if decide (n < on) then
              ob <- begin_const other ;;
              n <- size this ;;
              oe <- end_const other ;;
              e <- end_ this ;;
              uninitialized_copy (ptr_add ob n) oe e
            else
              b <- begin this ;;
              on <- size other ;;
              e <- end_ this ;;
              destroy (ptr_add b on) e) ;;
           on <- size other ;;
           set_size_ this on ;;
           b <- begin this ;;
           b' <- begin this ;;
           tb <- begin tmp ;;
           swap_ranges b (ptr_add b' min_size) tb)) ;;
    on <- size other ;;
    set_size_ this on.

(** [socow_vector(const socow_vector& other) : socow_vector()]: the
    delegated-to constructor has completed, so the destructor runs when
    the assignment throws. *)
Definition ctor_copy (other : nat) : M nat :=
  this <- ctor ;;
  try_catch (operator_assign this other) (dtor this ;; throw) ;;
  ret this.

(** ** Capacity *)

Definition reserve (this : nat) (new_capacity : nat) : M unit :=
  n <- size this ;;
  if decide (n < new_capacity) then
    sh <- shared_buf this ;;
    if sh && bool_decide (new_capacity ≤ SMALL_SIZE) then
      buf <- get_buf_ this ;;
      d <- buffer_data buf ;;
      n <- size this ;;
      copy_to_small this d n
    else
      sh <- shared_buf this ;;
      grow <- (if sh then ret true
               else c <- capacity this ;; ret (bool_decide (c < new_capacity))) ;;
      if grow then unshare this new_capacity else ret tt
  else ret tt.

Definition shrink_to_fit (this : nat) : M unit :=
  sm <- get_is_small_ this ;;
  slack <- (if negb sm
            then c <- capacity this ;; n <- size this ;; ret (bool_decide (n < c))
            else ret false) ;;
  if slack then
    n <- size this ;;
    if decide (n ≤ SMALL_SIZE) then
      buf <- get_buf_ this ;;
      d <- buffer_data buf ;;
      n <- size this ;;
      copy_to_small this d n
    else
      n <- size this ;;
      unshare this n
  else ret tt.

Definition clear (this : nat) : M unit :=
  sh <- shared_buf this ;;
  (if sh then
     buf <- get_buf_ this ;;
     release_ref this buf ;;
     set_is_small_ this true
   else
     b <- begin this ;;
     n <- size this ;;
     destroy_n b n) ;;
  set_size_ this 0.

(** ** swap

    [swap] calls itself once with the operands exchanged when [this] is
    the longer one; [fuel] bounds that nesting. *)

Fixpoint swap_fuel (fuel : nat) (this other : nat) : M unit :=
  match fuel with
  | 0 => undef
  | S fuel' =>
      if decide (this = other) then ret tt
      else
        n <- size this ;;
        on <- size other ;;
        if decide (on < n) then swap_fuel fuel' other this
        else
          sm <- get_is_small_ this ;;
          osm <- get_is_small_ other ;;
          if sm && osm then
            ob <- begin other ;;
            n <- size this ;;
            oe <- end_ other ;;
            e <- end_ this ;;
            uninitialized_copy (ptr_add ob n) oe e ;;
            ob <- begin other ;;
            n <- size this ;;
            oe <- end_ other ;;
            destroy (ptr_add ob n) oe ;;
            n <- size this ;;
            on <- size other ;;
            set_size_ this on ;;
            set_size_ other n ;;
            b <- begin this ;;
            b' <- begin this ;;
            on <- size other ;;
            ob <- begin other ;;
            swap_ranges b (ptr_add b' on) ob
          else
            with_local (ctor_copy other) (λ tmp,
              operator_assign other this ;;
              operator_assign this tmp)
  end.

Definition swap (this other : nat) : M unit := swap_fuel 2 this other.

(** ** insert *)

(** [while (idx > diff) { std::swap(data()[idx], data()[idx - 1]); --idx; }] *)
Fixpoint insert_loop (this : nat) (idx diff : nat) : M unit :=
  match idx with
  | 0 => ret tt
  | S idx' =>
      if decide (diff < idx) then
        a <- operator_index this idx ;;
        b <- operator_index this idx' ;;
        swap_elems a b ;;
        insert_loop this idx' diff
      else ret tt
  end.

Definition insert (this : nat) (pos : ptr) (value : T) : M ptr :=
  cb <- begin_const this ;;
  diff <- ptr_diff pos cb ;;
  n <- size this ;;
  c <- capacity this ;;
  full_or_shared <- (if decide (n = c) then ret true else shared_buf this) ;;
  (if full_or_shared then
     n <- size this ;;
     c <- capacity this ;;
     new_capacity <- (if decide (n ≠ c) then capacity this
                      else c <- capacity this ;; ret (size_mul c 2)) ;;
     with_local (ctor_capacity new_capacity) (λ tmp,
       cb <- begin_const this ;;
       tb <- begin tmp ;;
       uninitialized_copy_n cb diff tb ;;
       set_size_ tmp diff ;;
       te <- end_ tmp ;;
       placement_new te value ;;
       tn <- size tmp ;;
       set_size_ tmp (tn + 1) ;;
       cb <- begin_const this ;;
       ce <- end_const this ;;
       te <- end_ tmp ;;
       uninitialized_copy (ptr_add cb diff) ce te ;;
       n <- size this ;;
       set_size_ tmp (n + 1) ;;
       operator_assign this tmp)
   else
     e <- end_ this ;;
     placement_new e value ;;
     n <- size this ;;
     set_size_ this (n + 1) ;;
     n <- size this ;;
     idx <- size_sub n 1 ;;
     insert_loop this idx diff) ;;
  b <- begin this ;;
  ret (ptr_add b diff).

Definition push_back (this : nat) (value : T) : M unit :=
  e <- end_const this ;;
  _ <- insert this e value ;;
  ret tt.

(** ** erase *)

(** [while (right < size()) { std::swap(data()[left], data()[right]);
    ++left; ++right; }]; the loop hands back the final [left] and
    [right].  It runs at most [size()] times, which [fuel] is set to. *)
Fixpoint erase_loop (fuel : nat) (this : nat) (left right : nat)
    : M (nat * nat) :=
  n <- size this ;;
  if decide (right < n) then
    match fuel with
    | 0 => undef
    | S fuel' =>
        a <- operator_index this left ;;
        b <- operator_index this right ;;
        swap_elems a b ;;
        erase_loop fuel' this (left + 1) (right + 1)
    end
  else ret (left, right).

Definition erase (this : nat) (first last : ptr) : M ptr :=
  cb <- begin_const this ;;
  left <- ptr_diff first cb ;;
  cb <- begin_const this ;;
  right <- ptr_diff last cb ;;
  let diff := left in
  if decide (left = right) then
    b <- begin this ;;
    ret (ptr_add b diff)
  else
    sh <- shared_buf this ;;
    if sh then
      c <- capacity this ;;
      with_local (ctor_capacity c) (λ tmp,
        buf <- get_buf_ this ;;
        d <- buffer_data buf ;;
        tb <- begin tmp ;;
        uninitialized_copy_n d left tb ;;
        set_size_ tmp left ;;
        buf <- get_buf_ this ;;
        d <- buffer_data buf ;;
        n <- size this ;;
        k <- size_sub n right ;;
        tb <- begin tmp ;;
        uninitialized_copy_n (ptr_add d right) k (ptr_add tb left) ;;
        n <- size this ;;
        k <- size_sub n (right - left) ;;
        set_size_ tmp k ;;
        swap this tmp ;;
        b <- begin this ;;
        ret (ptr_add b diff))
    else
      n <- size this ;;
      lr <- erase_loop n this left right ;;
      let left := lr.1 in
      let right := lr.2 in
      e <- end_ this ;;
      e' <- ptr_sub e right ;;
      e'' <- end_ this ;;
      destroy (ptr_add e' left) e'' ;;
      n <- size this ;;
      k <- size_sub n (right - left) ;;
      set_size_ this k ;;
      b <- begin this ;;
      ret (ptr_add b diff).

(** [erase(pos)] *)
Definition erase1 (this : nat) (pos : ptr) : M ptr :=
  erase this pos (ptr_add pos 1).

Definition pop_back (this : nat) : M unit :=
  e <- end_const this ;;
  p <- ptr_sub e 1 ;;
  _ <- erase1 this p ;;
  ret tt.

(** ** Observation through the const interface *)

(** Reading [n] consecutive elements. *)
Fixpoint read_n (p : ptr) (n : nat) : M (list T) :=
  match n with
  | 0 => ret []
  | S n' => x <- load p ;; xs <- read_n (ptr_add p 1) n' ;; ret (x :: xs)
  end.

(** The sequence seen by a traversal of [begin() const .. end() const]. *)
Definition contents (this : nat) : M (list T) :=
  b <- begin_const this ;;
  n <- size this ;;
  read_n b n.

(** * Verification *)

(** ** Weakest preconditions

    [wp c w Q E]: run from [w], the computation [c] has defined
    behaviour; if it returns [a] in [w'] then [Q a w'], and if it throws
    in [w'] then [E w']. *)

Definition wp {A} (c : M A) (w : world) (Q : A → world → Prop)
    (E : world → Prop) : Prop :=
  match c w with
  | Ok a w' => Q a w'
  | Throw w' => E w'
  | Undef => False
  end.

(** Some call of the copy constructor throws. *)
Definition may_throw : Prop := ∃ n, throws n = true.

Lemma wp_ret {A} (a : A) w Q E : Q a w → wp (ret a) w Q E.
Proof. done. Qed.

Lemma wp_bind {A B} (c : M A) (f : A → M B) w Q E :
  wp c w (λ a w', wp (f a) w' Q E) E → wp (x <- c ;; f x) w Q E.
Proof. unfold wp, bind. by destruct (c w). Qed.

Lemma wp_mono {A} (c : M A) w (Q Q' : A → world → Prop) (E E' : world → Prop) :
  wp c w Q E →
  (∀ a w', Q a w' → Q' a w') →
  (∀ w', E w' → E' w') →
  wp c w Q' E'.
Proof. unfold wp. destruct (c w); auto. Qed.

Lemma wp_eq {A} (c : M A) w a w' Q E :
  c w = Ok a w' → Q a w' → wp c w Q E.
Proof. unfold wp. by intros ->. Qed.

Lemma wp_bind_eq {A B} (c : M A) (f : A → M B) w a w' Q E :
  c w = Ok a w' → wp (f a) w' Q E → wp (x <- c ;; f x) w Q E.
Proof. unfold wp, bind. by intros ->. Qed.

Lemma wp_throw {A} w (Q : A → world → Prop) (E : world → Prop) :
  E w → wp throw w Q E.
Proof. done. Qed.

Lemma wp_try_catch {A} (c h : M A) w Q E :
  wp c w Q (λ w', wp h w' Q E) → wp (try_catch c h) w Q E.
Proof. unfold wp, try_catch. by destruct (c w). Qed.

Lemma wp_finally {A} (c : M A) (d : M unit) w Q E :
  wp c w (λ a w', wp d w' (λ _ w'', Q a w'') E)
         (λ w', wp d w' (λ _ w'', E w'') E) →
  wp (finally c d) w Q E.
Proof.
  unfold wp, finally, bind, ret, throw.
  destruct (c w) as [a w1|w1|]; [ | | done]; by destruct (d w1).
Qed.

Lemma wp_ok {A} (c : M A) w Q E :
  wp c w Q E → (∀ w', ¬ E w') → ∃ a w', c w = Ok a w' ∧ Q a w'.
Proof.
  unfold wp. destruct (c w) as [a w'|w'|]; [eauto | | done].
  intros HE Hno. by destruct (Hno w').
Qed.

Lemma wp_inv {A} (c : M A) w Q E :
  wp c w Q E →
  (∃ a w', c w = Ok a w' ∧ Q a w') ∨ (∃ w', c w = Throw w' ∧ E w').
Proof. unfold wp. destruct (c w); naive_solver. Qed.

(** [outcome c w P]: what [c] does from [w], defined or not,
    satisfies [P]. *)
Definition outcome {A} (c : M A) (w : world) (P : result A → Prop) : Prop :=
  P (c w).

Lemma outcome_eq {A} (c : M A) w a w' (P : result A → Prop) :
  c w = Ok a w' → P (Ok a w') → outcome c w P.
Proof. unfold outcome. by intros ->. Qed.

Lemma outcome_bind_eq {A B} (c : M A) (f : A → M B) w a w' P :
  c w = Ok a w' → outcome (f a) w' P → outcome (x <- c ;; f x) w P.
Proof. unfold outcome, bind. by intros ->. Qed.

Lemma outcome_bind {A B} (c : M A) (f : A → M B) w (P : result B → Prop) :
  outcome c w (λ r, match r with
                    | Ok a w' => outcome (f a) w' P
                    | Throw w' => P (Throw w')
                    | Undef => P Undef
                    end) →
  outcome (x <- c ;; f x) w P.
Proof. unfold outcome, bind. by destruct (c w). Qed.

Lemma outcome_finally {A} (c : M A) (d : M unit) w (P : result A → Prop) :
  outcome c w (λ r, match r with
                    | Ok a w' => outcome (d ;; ret a) w' P
                    | Throw w' => outcome (d ;; throw) w' P
                    | Undef => P Undef
                    end) →
  outcome (finally c d) w P.
Proof. unfold outcome, finally. by destruct (c w). Qed.

(** ** Slot arrays

    [pad n xs]: an array of [n] slots whose first [length xs] slots hold
    [xs] and whose other slots are empty. *)

Definition pad (n : nat) (xs : list T) : list (option T) :=
  (Some <$> xs) ++ replicate (n - length xs) None.

Lemma pad_length n xs : length xs ≤ n → length (pad n xs) = n.
Proof.
  intros. unfold pad. rewrite length_app, length_fmap, length_replicate. lia.
Qed.

Lemma pad_lookup_lt n xs i x :
  xs !! i = Some x → pad n xs !! i = Some (Some x).
Proof.
  intros Hx. unfold pad. apply lookup_app_l_Some.
  by rewrite list_lookup_fmap, Hx.
Qed.

Lemma pad_lookup_ge n xs i :
  length xs ≤ i → i < n → pad n xs !! i = Some None.
Proof.
  intros. unfold pad. rewrite lookup_app_r by (rewrite length_fmap; lia).
  rewrite length_fmap. apply lookup_replicate_2. lia.
Qed.

Lemma pad_lookup_Some n xs i x :
  pad n xs !! i = Some (Some x) → xs !! i = Some x.
Proof.
  unfold pad. intros H. apply lookup_app_Some in H as [H|[_ H]].
  - rewrite list_lookup_fmap in H. destruct (xs !! i); by simplify_eq/=.
  - apply lookup_replicate in H as [? _]. done.
Qed.

Lemma pad_nil n : pad n [] = replicate n None.
Proof. unfold pad. simpl. by rewrite Nat.sub_0_r. Qed.

Lemma pad_inj n xs ys :
  length xs ≤ n → length ys ≤ n → pad n xs = pad n ys → xs = ys.
Proof.
  intros Hx Hy Heq. apply list_eq. intros i.
  destruct (xs !! i) as [x|] eqn:Hxi.
  - apply (pad_lookup_lt n) in Hxi. rewrite Heq in Hxi.
    by apply pad_lookup_Some in Hxi.
  - destruct (ys !! i) as [y|] eqn:Hyi; [|done].
    apply (pad_lookup_lt n) in Hyi. rewrite <-Heq in Hyi.
    apply pad_lookup_Some in Hyi. congruence.
Qed.

(** Constructing [xs] right after the live prefix [ys]. *)
Lemma pad_inserts_app n ys xs :
  length ys + length xs ≤ n →
  list_inserts (length ys) (Some <$> xs) (pad n ys) = pad n (ys ++ xs).
Proof.
  intros Hn. apply list_eq. intros i.
  destruct (decide (i < length ys)) as [Hi|Hi].
  { rewrite list_lookup_inserts_lt by done.
    destruct (lookup_lt_is_Some_2 ys i Hi) as [y Hy].
    rewrite (pad_lookup_lt _ _ _ _ Hy).
    symmetry. apply pad_lookup_lt. by apply lookup_app_l_Some. }
  destruct (decide (i < length ys + length xs)) as [Hi'|Hi'].
  { rewrite list_lookup_inserts
      by (rewrite ?length_fmap, ?pad_length; lia).
    destruct (lookup_lt_is_Some_2 xs (i - length ys)) as [x Hx]; [lia|].
    rewrite list_lookup_fmap, Hx. simpl.
    symmetry. apply pad_lookup_lt.
    rewrite lookup_app_r by lia. done. }
  rewrite list_lookup_inserts_ge by (rewrite length_fmap; lia).
  destruct (decide (i < n)).
  - rewrite !pad_lookup_ge; rewrite ?length_app; auto with lia.
  - rewrite !lookup_ge_None_2; [done|..];
      rewrite ?length_inserts, ?pad_length; rewrite ?length_app; lia.
Qed.

(** Destroying the live elements from index [k] on. *)
Lemma pad_inserts_none n ys k m :
  length ys ≤ n → k + m = length ys →
  list_inserts k (replicate m None) (pad n ys) = pad n (take k ys).
Proof.
  intros Hn Hk. apply list_eq. intros i.
  destruct (decide (i < k)) as [Hi|Hi].
  { rewrite list_lookup_inserts_lt by done.
    destruct (lookup_lt_is_Some_2 ys i) as [y Hy]; [lia|].
    rewrite (pad_lookup_lt _ _ _ _ Hy).
    symmetry. apply pad_lookup_lt. by rewrite lookup_take_lt. }
  destruct (decide (i < n)) as [Hin|Hin].
  - rewrite (pad_lookup_ge n (take k ys)) by (rewrite ?length_take; lia).
    destruct (decide (i < k + m)).
    + rewrite list_lookup_inserts
        by (rewrite ?length_replicate, ?pad_length; lia).
      apply lookup_replicate_2. lia.
    + rewrite list_lookup_inserts_ge by (rewrite length_replicate; lia).
      apply pad_lookup_ge; lia.
  - rewrite !lookup_ge_None_2; [done|..];
      rewrite ?length_inserts, ?pad_length; rewrite ?length_take; lia.
Qed.

Lemma pad_insert_lt n xs i x :
  i < length xs → <[i := Some x]> (pad n xs) = pad n (<[i := x]> xs).
Proof.
  intros Hi. unfold pad.
  rewrite insert_app_l by (rewrite length_fmap; lia).
  by rewrite list_fmap_insert, length_insert.
Qed.

(** ** Regions

    [region_updated w w' r l']: [w'] is [w] with the slots of the array
    [r] replaced by [l']; nothing is said about the copy count. *)

Definition region_updated (w w' : world) (r : region)
    (l' : list (option T)) : Prop :=
  match r with
  | in_small id =>
      heap w' = heap w ∧
      ∃ v st', vecs w !! id = Some v ∧ small_of st' = l' ∧
               vecs w' = <[id := with_store st' v]> (vecs w)
  | in_buf p =>
      vecs w' = vecs w ∧
      ∃ b, heap w !! p = Some b ∧
           heap w' = <[p := with_data l' b]> (heap w)
  end.

Lemma alter_lookup_insert {A} (f : A → A) (m : gmap nat A) i x :
  m !! i = Some x → alter f i m = <[i := f x]> m.
Proof.
  intros Hx. apply map_eq. intros j. destruct (decide (i = j)) as [->|].
  - by rewrite lookup_alter_eq, lookup_insert_eq, Hx.
  - by rewrite lookup_alter_ne, lookup_insert_ne.
Qed.

Lemma with_store_id v : with_store (store_ v) v = v.
Proof. by destruct v. Qed.

Lemma with_store_with_store s s' v :
  with_store s (with_store s' v) = with_store s v.
Proof. done. Qed.

Lemma with_data_id b : with_data (data_ b) b = b.
Proof. by destruct b. Qed.

Lemma region_updated_slots w w' r l' :
  region_updated w w' r l' → region_slots w' r = Some l'.
Proof.
  destruct r as [id|p]; simpl.
  - intros (_ & v & st' & _ & <- & ->). by rewrite lookup_insert_eq.
  - intros (_ & b & _ & ->). by rewrite lookup_insert_eq.
Qed.

Lemma region_updated_other w w' r l' r' :
  region_updated w w' r l' → r' ≠ r → region_slots w' r' = region_slots w r'.
Proof.
  destruct r as [id|p], r' as [id'|p']; simpl.
  - intros (_ & v & st' & _ & _ & ->) ?.
    rewrite lookup_insert_ne by congruence. done.
  - by intros (-> & _) _.
  - by intros (-> & _) _.
  - intros (_ & b & _ & ->) ?. rewrite lookup_insert_ne by congruence. done.
Qed.

Lemma region_updated_refl w r l :
  region_slots w r = Some l → region_updated w w r l.
Proof.
  destruct r as [id|p]; simpl; intros H.
  - split; [done|]. destruct (vecs w !! id) as [v|] eqn:Hv; simplify_eq/=.
    exists v, (store_ v). by rewrite with_store_id, insert_id.
  - split; [done|]. destruct (heap w !! p) as [b|] eqn:Hb; simplify_eq/=.
    exists b. by rewrite with_data_id, insert_id.
Qed.

Lemma region_updated_trans w w1 w2 r l1 l2 :
  region_updated w w1 r l1 → region_updated w1 w2 r l2 →
  region_updated w w2 r l2.
Proof.
  destruct r as [id|p]; simpl.
  - intros (Hh & v & st & Hv & Hst & Hvs) (Hh' & v' & st' & Hv' & Hst' & Hvs').
    split; [congruence|]. exists v, st'. split; [done|]. split; [done|].
    rewrite Hvs', Hvs, insert_insert_eq.
    rewrite Hvs, lookup_insert_eq in Hv'. by simplify_eq.
  - intros (Hh & b & Hb & Hbs) (Hh' & b' & Hb' & Hbs').
    split; [congruence|]. exists b. split; [done|].
    rewrite Hbs', Hbs, insert_insert_eq.
    rewrite Hbs, lookup_insert_eq in Hb'. by simplify_eq.
Qed.

Lemma region_updated_write w r l l' :
  region_slots w r = Some l → region_updated w (write_region r l' w) r l'.
Proof.
  destruct r as [id|p]; simpl; intros H.
  - split; [done|]. destruct (vecs w !! id) as [v|] eqn:Hv; simplify_eq/=.
    exists v, (small_ l'). by rewrite (alter_lookup_insert _ _ _ v).
  - split; [done|]. destruct (heap w !! p) as [b|] eqn:Hb; simplify_eq/=.
    exists b. by rewrite (alter_lookup_insert _ _ _ b).
Qed.

Lemma region_updated_tick_l w w' r l :
  region_updated (tick w) w' r l → region_updated w w' r l.
Proof. by destruct r. Qed.

Lemma region_slots_tick w r : region_slots (tick w) r = region_slots w r.
Proof. by destruct r. Qed.

(** ** Specifications of the slot primitives *)

Lemma load_eq w r i l x :
  region_slots w r = Some l → l !! i = Some (Some x) →
  load (r, i) w = Ok x w.
Proof. unfold load. simpl. by intros -> ->. Qed.

Lemma construct_at_eq w r i l x :
  region_slots w r = Some l → i < length l →
  construct_at (r, i) x w = Ok tt (write_region r (<[i := Some x]> l) w).
Proof. unfold construct_at. simpl. intros -> ?. by rewrite decide_True. Qed.

Lemma destroy_at_eq w r i l x :
  region_slots w r = Some l → l !! i = Some (Some x) →
  destroy_at (r, i) w = Ok tt (write_region r (<[i := None]> l) w).
Proof. unfold destroy_at. simpl. by intros -> ->. Qed.

Lemma store_eq w r i l x y :
  region_slots w r = Some l → l !! i = Some (Some x) →
  store (r, i) y w = Ok tt (write_region r (<[i := Some y]> l) w).
Proof. unfold store. simpl. by intros -> ->. Qed.

Lemma copies_write_region r l w : copies (write_region r l w) = copies w.
Proof. by destruct r. Qed.

Lemma copies_region_updated_write r l w : copies (write_region r l (tick w)) = S (copies w).
Proof. by destruct r. Qed.

Lemma inserts_none_step (l : list (option T)) k m :
  list_inserts (S k) (replicate m None) (<[k := None]> l)
  = list_inserts k (replicate (S m) None) l.
Proof.
  change (replicate (S m) None) with (@None T :: replicate m None). simpl.
  symmetry. apply list_insert_inserts_lt. lia.
Qed.

Lemma destroy_n_spec r m : ∀ k w l,
  region_slots w r = Some l →
  (∀ i, i < m → ∃ x, l !! (k + i) = Some (Some x)) →
  ∃ w', destroy_n (r, k) m w = Ok tt w' ∧
        region_updated w w' r (list_inserts k (replicate m None) l) ∧
        copies w' = copies w.
Proof.
  induction m as [|m IH]; intros k w l Hl Hlive; simpl.
  { exists w. split; [done|]. split; [|done]. by apply region_updated_refl. }
  destruct (Hlive 0) as [x Hx]; [lia|]. rewrite Nat.add_0_r in Hx.
  unfold bind. rewrite (destroy_at_eq _ _ _ _ _ Hl Hx).
  pose proof (region_updated_write w r l (<[k := None]> l) Hl) as Hup.
  destruct (IH (k + 1) (write_region r (<[k := None]> l) w) (<[k := None]> l))
    as (w' & Hrun & Hup' & Hc).
  { by eapply region_updated_slots. }
  { intros i Hi. destruct (Hlive (S i)) as [y Hy]; [lia|]. exists y.
    rewrite list_lookup_insert_ne by lia.
    by replace (k + 1 + i) with (k + S i) by lia. }
  exists w'. unfold ptr_add. simpl. rewrite Hrun. split; [done|]. split.
  - replace (k + 1) with (S k) in Hup' by lia.
    rewrite inserts_none_step in Hup'.
    by eapply region_updated_trans.
  - by rewrite Hc, copies_write_region.
Qed.

Lemma copy_construct_spec x w Q E :
  Q x (tick w) → (may_throw → E (tick w)) → wp (copy_construct x) w Q E.
Proof.
  unfold wp, copy_construct. intros HQ HE.
  destruct (throws (copies w)) eqn:Hth; [|done].
  apply HE. by exists (copies w).
Qed.

Lemma inserts_some_step (ld : list (option T)) o d xs x :
  xs !! d = Some x →
  <[o + d := Some x]> (list_inserts o (Some <$> take d xs) ld)
  = list_inserts o (Some <$> take (S d) xs) ld.
Proof.
  intros Hx. rewrite (take_S_r _ _ _ Hx), fmap_app, list_inserts_app_l.
  simpl. rewrite length_fmap, length_take.
  apply lookup_lt_Some in Hx.
  by replace (d `min` length xs + o) with (o + d) by lia.
Qed.

Lemma inserts_rollback (ld : list (option T)) o d xs :
  d ≤ length xs →
  (∀ i, i < d → ld !! (o + i) = Some None) →
  list_inserts o (replicate d None) (list_inserts o (Some <$> take d xs) ld)
  = ld.
Proof.
  intros Hd Hnone. apply list_eq. intros j.
  destruct (decide (j < o)).
  { by rewrite !list_lookup_inserts_lt. }
  destruct (decide (o + d ≤ j)).
  { rewrite !list_lookup_inserts_ge;
      rewrite ?length_replicate, ?length_fmap, ?length_take; auto with lia. }
  specialize (Hnone (j - o)). replace (o + (j - o)) with j in Hnone by lia.
  rewrite Hnone by lia.
  rewrite list_lookup_inserts.
  - apply lookup_replicate_2. lia.
  - rewrite length_replicate. lia.
  - rewrite length_inserts. apply lookup_lt_is_Some. rewrite Hnone by lia. eauto.
Qed.

Lemma uninitialized_copy_loop_spec rs so rd o ls ld xs n : ∀ d w,
  rs ≠ rd →
  region_slots w rs = Some ls →
  region_slots w rd = Some (list_inserts o (Some <$> take d xs) ld) →
  d + n = length xs →
  (∀ i x, xs !! i = Some x → ls !! (so + i) = Some (Some x)) →
  o + length xs ≤ length ld →
  (∀ i, i < length xs → ld !! (o + i) = Some None) →
  wp (uninitialized_copy_loop (rs, so) n (rd, o) d) w
     (λ _ w', region_updated w w' rd (list_inserts o (Some <$> xs) ld) ∧
              copies w' = copies w + n)
     (λ w', may_throw ∧ region_updated w w' rd ld).
Proof.
  induction n as [|n IH]; intros d w Hne Hs Hd Hlen Hsrc Hfit Hnone; simpl.
  { apply wp_ret. split; [|lia]. apply region_updated_refl.
    by rewrite take_ge in Hd by lia. }
  destruct (lookup_lt_is_Some_2 xs d) as [x Hx]; [lia|].
  eapply wp_bind_eq; [by eapply load_eq; [|apply Hsrc] |].
  apply wp_bind, wp_try_catch. unfold placement_new.
  apply wp_bind, copy_construct_spec.
  - eapply wp_eq.
    { eapply construct_at_eq; [by rewrite region_slots_tick|].
      rewrite length_inserts. simpl. lia. }
    simpl. rewrite inserts_some_step by done.
    set (cur := list_inserts o (Some <$> take d xs) ld) in *.
    set (nxt := list_inserts o (Some <$> take (S d) xs) ld).
    assert (region_updated w (write_region rd nxt (tick w)) rd nxt) as Hup.
    { apply region_updated_tick_l. eapply region_updated_write.
      by rewrite region_slots_tick. }
    eapply wp_mono; [apply (IH (S d)); try done| |].
    + erewrite region_updated_other; [|done|done]. done.
    + by eapply region_updated_slots.
    + lia.
    + simpl. intros _ w' [Hup' Hc]. split.
      * by eapply region_updated_trans.
      * rewrite Hc, copies_write_region. simpl. lia.
    + simpl. intros w' [Hth Hup']. split; [done|].
      by eapply region_updated_trans.
  - intros Hth. apply wp_bind.
    destruct (destroy_n_spec rd d o (tick w)
                (list_inserts o (Some <$> take d xs) ld))
      as (w' & Hrun & Hup & _).
    { by rewrite region_slots_tick. }
    { intros i Hi. destruct (lookup_lt_is_Some_2 xs i) as [y Hy]; [lia|].
      exists y. rewrite list_lookup_inserts.
      - replace (o + i - o) with i by lia.
        by rewrite list_lookup_fmap, lookup_take_lt, Hy by lia.
      - rewrite length_fmap, length_take. lia.
      - lia. }
    eapply wp_eq; [done|]. apply wp_throw. split; [done|].
    rewrite inserts_rollback in Hup by (auto with lia).
    by apply region_updated_tick_l.
Qed.

Lemma uninitialized_copy_n_spec w rs so rd cs cd ys yd n :
  rs ≠ rd →
  region_slots w rs = Some (pad cs ys) →
  region_slots w rd = Some (pad cd yd) →
  so + n ≤ length ys →
  length yd + n ≤ cd →
  wp (uninitialized_copy_n (rs, so) n (rd, length yd)) w
     (λ _ w', region_updated w w' rd (pad cd (yd ++ take n (drop so ys))) ∧
              copies w' = copies w + n)
     (λ w', may_throw ∧ region_updated w w' rd (pad cd yd)).
Proof.
  intros Hne Hs Hd Hsrc Hfit. unfold uninitialized_copy_n.
  assert (length (take n (drop so ys)) = n) as Hlen.
  { rewrite length_take, length_drop. lia. }
  eapply wp_mono.
  - eapply (uninitialized_copy_loop_spec rs so rd (length yd) (pad cs ys)
              (pad cd yd) (take n (drop so ys)) n 0 w); try done.
    + intros i x Hx. apply pad_lookup_lt.
      apply lookup_take_Some in Hx as [Hx _]. by rewrite lookup_drop in Hx.
    + rewrite pad_length; lia.
    + intros i Hi. apply pad_lookup_ge; lia.
  - simpl. intros _ w' [Hup Hc]. split; [|done].
    by rewrite pad_inserts_app in Hup by lia.
  - done.
Qed.

(** ** The abstract state

    What an instance stands for: its elements and, in big mode, the
    buffer it refers to and that buffer's capacity. *)

Inductive avec :=
  | ASmall (xs : list T)
  | ABig (p c : nat) (xs : list T).

(** [fits c]: the byte size of a block of capacity [c] is computed
    without wrapping. *)
Definition fits (c : nat) : Prop :=
  (sizeof_buffer target + N.pos (sizeof_T target) * N.of_nat c
   ≤ SIZE_MAX target)%N.

Global Instance fits_dec c : Decision (fits c).
Proof. unfold fits. apply _. Defined.

Lemma fits_le c c' : c' ≤ c → fits c → fits c'.
Proof. unfold fits. intros H1 H2. nia. Qed.

Lemma alloc_slots_fits c : fits c → alloc_slots c = Some c.
Proof.
  unfold fits, alloc_slots. intros H.
  rewrite N.mod_small by lia.
  destruct (N.ltb_spec (sizeof_buffer target
                        + N.pos (sizeof_T target) * N.of_nat c)
                       (sizeof_buffer target)) as [Hlt|_]; [lia|].
  f_equal. rewrite N.add_comm, N.add_sub, N.mul_comm, N.div_mul by done.
  apply Nat2N.id.
Qed.

Lemma size_mul_fits a b : fits (a * b) → size_mul a b = a * b.
Proof.
  unfold fits, size_mul. intros H.
  rewrite N.mod_small by nia. rewrite <-Nat2N.inj_mul. apply Nat2N.id.
Qed.

Lemma create_buf_fits cap w :
  fits cap →
  create_buf cap w
  = Ok (fresh (dom (heap w)))
       (set_heap <[fresh (dom (heap w))
                   := mk_buffer cap 1 (replicate cap None)]> w).
Proof. intros H. unfold create_buf. by rewrite alloc_slots_fits. Qed.

Definition aelems (a : avec) : list T :=
  match a with ASmall xs => xs | ABig _ _ xs => xs end.

Definition acap (a : avec) : nat :=
  match a with ASmall _ => SMALL_SIZE | ABig _ c _ => c end.

Definition big_at (p : nat) (a : avec) : bool :=
  match a with ABig q _ _ => bool_decide (q = p) | ASmall _ => false end.

(** The number of instances that refer to the buffer at [p]. *)
Definition owners (av : gmap nat avec) (p : nat) : nat :=
  length (filter (λ kv, big_at p kv.2 = true) (map_to_list av)).

Definition nb (p : nat) (oa : option avec) : nat :=
  match oa with
  | Some a => if big_at p a then 1 else 0
  | None => 0
  end.

(** [vrep hp v a]: the object [v] represents [a] over the heap [hp]. *)
Definition vrep (hp : gmap nat buffer) (v : socow_vector) (a : avec) : Prop :=
  match a with
  | ASmall xs =>
      is_small_ v = true ∧ size_ v = length xs ∧ length xs ≤ SMALL_SIZE ∧
      small_of (store_ v) = pad SMALL_SIZE xs
  | ABig p c xs =>
      is_small_ v = false ∧ size_ v = length xs ∧ store_ v = buf_ p ∧
      ∃ b, hp !! p = Some b ∧ capacity_ b = c ∧ data_ b = pad c xs ∧
           length xs ≤ c ∧ 0 < c ∧ fits c
  end.

(** The representation invariant: every object is well formed, and the
    reference count of every block is the number of its owners, which is
    not zero. *)
Definition rep (w : world) (av : gmap nat avec) : Prop :=
  (∀ id, option_Forall2 (vrep (heap w)) (vecs w !! id) (av !! id)) ∧
  (∀ p b, heap w !! p = Some b →
          ref_count_ b = owners av p ∧ 0 < ref_count_ b).

Definition wf (w : world) : Prop := ∃ av, rep w av.

Lemma owners_insert av id a' p :
  owners (<[id := a']> av) p + nb p (av !! id) = owners av p + nb p (Some a').
Proof.
  unfold owners. destruct (av !! id) as [a|] eqn:Ha.
  - rewrite <-(insert_delete_eq av), map_to_list_insert
      by apply lookup_delete_eq.
    rewrite <-(map_to_list_delete av id a) by done.
    rewrite !filter_cons. simpl.
    repeat case_decide; destruct (big_at p a), (big_at p a');
      simpl; try done; lia.
  - rewrite map_to_list_insert by done. rewrite filter_cons. simpl.
    case_decide; destruct (big_at p a'); simpl; try done; lia.
Qed.

Lemma owners_delete av id p :
  owners (delete id av) p + nb p (av !! id) = owners av p.
Proof.
  unfold owners. destruct (av !! id) as [a|] eqn:Ha.
  - rewrite <-(map_to_list_delete av id a) by done.
    rewrite filter_cons. simpl.
    case_decide; destruct (big_at p a); simpl; try done; lia.
  - rewrite delete_id by done. simpl. lia.
Qed.

Lemma owners_ge av id p : nb p (av !! id) ≤ owners av p.
Proof. pose proof (owners_delete av id p). lia. Qed.

Lemma owners_two av id id' a p :
  id ≠ id' → av !! id' = Some a → big_at p a = true →
  nb p (av !! id) + 1 ≤ owners av p.
Proof.
  intros Hne Ha Hbig. pose proof (owners_delete av id p) as Hd.
  pose proof (owners_ge (delete id av) id' p) as Hge.
  rewrite lookup_delete_ne, Ha in Hge by done. simpl in Hge.
  rewrite Hbig in Hge. lia.
Qed.

Lemma filter_none_length {A} (P : A → Prop) `{!∀ x, Decision (P x)} l :
  Forall (λ x, ¬ P x) l → length (filter P l) = 0.
Proof. induction 1; [done|]. by rewrite filter_cons_False. Qed.

Lemma owners_zero av p :
  (∀ id a, av !! id = Some a → big_at p a = false) → owners av p = 0.
Proof.
  intros Hno. unfold owners. apply filter_none_length.
  apply Forall_forall. intros [id a] Hin%elem_of_map_to_list. simpl.
  rewrite (Hno id a Hin). done.
Qed.

Lemma big_at_true p a : big_at p a = true → ∃ c xs, a = ABig p c xs.
Proof.
  destruct a as [|q c xs]; simpl; [done|].
  intros ->%bool_decide_eq_true. eauto.
Qed.

Lemma big_at_same p c xs : big_at p (ABig p c xs) = true.
Proof. simpl. by apply bool_decide_eq_true. Qed.

Lemma big_at_ne p q c xs : q ≠ p → big_at p (ABig q c xs) = false.
Proof. simpl. intros. by apply bool_decide_eq_false. Qed.

Lemma big_at_ne_nb p q c xs : q ≠ p → nb q (Some (ABig p c xs)) = 0.
Proof. intros. simpl. by rewrite bool_decide_eq_false_2. Qed.

(** Inversion of the invariant at one instance. *)
Lemma rep_small w av id xs :
  rep w av → av !! id = Some (ASmall xs) →
  ∃ st, vecs w !! id = Some (mk_vec (length xs) true st) ∧
        length xs ≤ SMALL_SIZE ∧ small_of st = pad SMALL_SIZE xs.
Proof.
  intros [H1 _] Ha. specialize (H1 id). rewrite Ha in H1.
  inversion H1 as [v a Hv Heq|]; subst.
  destruct v as [n sm st]. simpl in Hv. destruct Hv as (-> & -> & ? & ?).
  eauto.
Qed.

Lemma rep_big w av id p c xs :
  rep w av → av !! id = Some (ABig p c xs) →
  vecs w !! id = Some (mk_vec (length xs) false (buf_ p)) ∧
  ∃ rc, heap w !! p = Some (mk_buffer c rc (pad c xs)) ∧
        length xs ≤ c ∧ 0 < c ∧ rc = owners av p ∧ 0 < rc.
Proof.
  intros [H1 H2] Ha. specialize (H1 id). rewrite Ha in H1.
  inversion H1 as [v a Hv Heq|]; subst.
  destruct v as [n sm st]. simpl in Hv.
  destruct Hv as (-> & -> & -> & b & Hb & Hc & Hd & ? & ? & _).
  split; [done|]. destruct (H2 p b Hb) as [Hrc ?].
  destruct b as [c' rc d]. simpl in *. subst. eauto 10.
Qed.

Lemma rep_fits w av id p c xs :
  rep w av → av !! id = Some (ABig p c xs) → fits c.
Proof.
  intros [H1 _] Ha. specialize (H1 id). rewrite Ha in H1.
  inversion H1 as [v a Hv Heq|]; subst.
  by destruct Hv as (_ & _ & _ & b & _ & _ & _ & _ & _ & ?).
Qed.

Lemma rep_none w av id : rep w av → vecs w !! id = None ↔ av !! id = None.
Proof.
  intros [H1 _]. specialize (H1 id).
  split; intros H; rewrite H in H1; by inversion H1.
Qed.

Lemma rep_no_owner w av p :
  rep w av → heap w !! p = None → owners av p = 0.
Proof.
  intros Hrep Hp. apply owners_zero. intros id a Ha.
  destruct (big_at p a) eqn:Hbig; [|done].
  apply big_at_true in Hbig as (c & xs & ->).
  destruct (rep_big _ _ _ _ _ _ Hrep Ha) as (_ & rc & Hb & _). congruence.
Qed.

(** How one block may change while one instance changes from [oa] to
    [oa']. *)
Definition buf_adjust (oa oa' : option avec) (p : nat)
    (ob ob' : option buffer) : Prop :=
  match ob, ob' with
  | Some b, Some b' =>
      ((capacity_ b' = capacity_ b ∧ data_ b' = data_ b) ∨
       ref_count_ b = nb p oa) ∧
      ref_count_ b' + nb p oa = ref_count_ b + nb p oa' ∧
      0 < ref_count_ b'
  | Some b, None => ref_count_ b = nb p oa
  | None, Some b' => ref_count_ b' = nb p oa' ∧ 0 < ref_count_ b'
  | None, None => True
  end.

Lemma vrep_frame w av hp' this id v a oa' :
  rep w av → id ≠ this → av !! id = Some a → vecs w !! id = Some v →
  (∀ p, buf_adjust (av !! this) oa' p (heap w !! p) (hp' !! p)) →
  vrep hp' v a.
Proof.
  intros Hrep Hne Ha Hv Hadj.
  destruct Hrep as [H1 H2]. pose proof (H1 id) as Hid.
  rewrite Ha, Hv in Hid. inversion Hid as [? ? Hvr|]; subst.
  destruct a as [xs|p c xs]; [done|].
  destruct Hvr as (? & ? & ? & b & Hb & ? & ? & ? & ? & ?).
  repeat (split; [done|]).
  specialize (Hadj p). rewrite Hb in Hadj.
  destruct (H2 p b Hb) as [Hrc _].
  pose proof (owners_two av this id _ p (not_eq_sym Hne) Ha
                (big_at_same _ _ _)).
  destruct (hp' !! p) as [b'|]; simpl in Hadj.
  - destruct Hadj as ([[? ?]|?] & _ & _); [|lia].
    exists b'. repeat split; first [done | congruence].
  - lia.
Qed.

Lemma rep_adjust_counts w av this oa' av' (hp' : gmap nat buffer) :
  rep w av →
  (∀ p, owners av' p + nb p (av !! this) = owners av p + nb p oa') →
  (∀ p, buf_adjust (av !! this) oa' p (heap w !! p) (hp' !! p)) →
  ∀ p b, hp' !! p = Some b → ref_count_ b = owners av' p ∧ 0 < ref_count_ b.
Proof.
  intros Hrep Hown Hadj p b' Hb'.
  specialize (Hadj p). specialize (Hown p). rewrite Hb' in Hadj.
  pose proof (owners_ge av this p).
  destruct (heap w !! p) as [b|] eqn:Hb; simpl in Hadj.
  - destruct Hrep as [_ H2]. destruct (H2 p b Hb) as [Hrc _].
    destruct Hadj as (_ & ? & ?). split; [lia|done].
  - pose proof (rep_no_owner _ _ _ Hrep Hb). destruct Hadj. split; [lia|done].
Qed.

Lemma rep_change w w' av this v' a' :
  rep w av →
  vecs w' = <[this := v']> (vecs w) →
  vrep (heap w') v' a' →
  (∀ p, buf_adjust (av !! this) (Some a') p (heap w !! p) (heap w' !! p)) →
  rep w' (<[this := a']> av).
Proof.
  intros Hrep Hvs Hv' Hadj. split.
  - intros id. rewrite Hvs. destruct (decide (id = this)) as [->|Hne].
    + rewrite !lookup_insert_eq. by constructor.
    + rewrite !lookup_insert_ne by done.
      pose proof (proj1 Hrep id) as Hid.
      destruct (vecs w !! id) as [v|] eqn:Hv, (av !! id) as [a|] eqn:Ha;
        inversion Hid; subst; constructor.
      by eapply vrep_frame.
  - eapply rep_adjust_counts; [done| |done].
    intros p. apply owners_insert.
Qed.

Lemma rep_remove w w' av this :
  rep w av →
  vecs w' = delete this (vecs w) →
  (∀ p, buf_adjust (av !! this) None p (heap w !! p) (heap w' !! p)) →
  rep w' (delete this av).
Proof.
  intros Hrep Hvs Hadj. split.
  - intros id. rewrite Hvs. destruct (decide (id = this)) as [->|Hne].
    + rewrite !lookup_delete_eq. by constructor.
    + rewrite !lookup_delete_ne by done.
      pose proof (proj1 Hrep id) as Hid.
      destruct (vecs w !! id) as [v|] eqn:Hv, (av !! id) as [a|] eqn:Ha;
        inversion Hid; subst; constructor.
      by eapply vrep_frame.
  - eapply rep_adjust_counts; [done| |done].
    intros p. simpl. rewrite Nat.add_0_r. apply owners_delete.
Qed.

(** ** Equations for the members that only read *)

Lemma bind_eq {A B} (c : M A) (f : A → M B) w a w' :
  c w = Ok a w' → (x <- c ;; f x) w = f a w'.
Proof. unfold bind. by intros ->. Qed.

Ltac bstep E := rewrite (bind_eq _ _ _ _ _ E); simpl.

Section accessors.

Variables (vs : gmap nat socow_vector) (hp : gmap nat buffer) (c : nat).
Local Abbreviation w := (mk_world vs hp c).

Lemma get_vec_eq id v : vs !! id = Some v → get_vec id w = Ok v w.
Proof. unfold get_vec. simpl. by intros ->. Qed.

Lemma get_buffer_eq p b : hp !! p = Some b → get_buffer p w = Ok b w.
Proof. unfold get_buffer. simpl. by intros ->. Qed.

Lemma size_eq id v : vs !! id = Some v → size id w = Ok (size_ v) w.
Proof. intros H. unfold size. by bstep (get_vec_eq _ _ H). Qed.

Lemma get_is_small_eq id v :
  vs !! id = Some v → get_is_small_ id w = Ok (is_small_ v) w.
Proof. intros H. unfold get_is_small_. by bstep (get_vec_eq _ _ H). Qed.

Lemma get_buf_eq id n sm p :
  vs !! id = Some (mk_vec n sm (buf_ p)) → get_buf_ id w = Ok p w.
Proof. intros H. unfold get_buf_. by bstep (get_vec_eq _ _ H). Qed.

Lemma set_size_eq id v n :
  vs !! id = Some v →
  set_size_ id n w = Ok tt (mk_world (<[id := with_size n v]> vs) hp c).
Proof. intros H. unfold set_size_. by bstep (get_vec_eq _ _ H). Qed.

Lemma set_is_small_eq id v b :
  vs !! id = Some v →
  set_is_small_ id b w = Ok tt (mk_world (<[id := with_is_small b v]> vs) hp c).
Proof. intros H. unfold set_is_small_. by bstep (get_vec_eq _ _ H). Qed.

Lemma set_buf_eq id v p :
  vs !! id = Some v →
  set_buf_ id p w = Ok tt (mk_world (<[id := with_store (buf_ p) v]> vs) hp c).
Proof. intros H. unfold set_buf_. by bstep (get_vec_eq _ _ H). Qed.

Lemma buffer_data_eq p b :
  hp !! p = Some b → buffer_data p w = Ok (in_buf p, 0) w.
Proof. intros H. unfold buffer_data. by bstep (get_buffer_eq _ _ H). Qed.

Lemma buffer_capacity_eq p b :
  hp !! p = Some b → buffer_capacity p w = Ok (capacity_ b) w.
Proof. intros H. unfold buffer_capacity. by bstep (get_buffer_eq _ _ H). Qed.

Lemma delete_buf_eq p b :
  hp !! p = Some b → delete_buf p w = Ok tt (mk_world vs (delete p hp) c).
Proof. unfold delete_buf. simpl. by intros ->. Qed.

Lemma capacity_small_eq id n st :
  vs !! id = Some (mk_vec n true st) → capacity id w = Ok SMALL_SIZE w.
Proof. intros H. unfold capacity. by bstep (get_is_small_eq _ _ H). Qed.

Lemma capacity_big_eq id n p b :
  vs !! id = Some (mk_vec n false (buf_ p)) → hp !! p = Some b →
  capacity id w = Ok (capacity_ b) w.
Proof.
  intros H Hb. unfold capacity. bstep (get_is_small_eq _ _ H).
  bstep (get_buf_eq _ _ _ _ H). by apply buffer_capacity_eq.
Qed.

Lemma data_const_small_eq id n st :
  vs !! id = Some (mk_vec n true st) → data_const id w = Ok (in_small id, 0) w.
Proof. intros H. unfold data_const. by bstep (get_is_small_eq _ _ H). Qed.

Lemma data_const_big_eq id n p b :
  vs !! id = Some (mk_vec n false (buf_ p)) → hp !! p = Some b →
  data_const id w = Ok (in_buf p, 0) w.
Proof.
  intros H Hb. unfold data_const. bstep (get_is_small_eq _ _ H).
  bstep (get_buf_eq _ _ _ _ H). by eapply buffer_data_eq.
Qed.

Lemma end_const_small_eq id n st :
  vs !! id = Some (mk_vec n true st) → end_const id w = Ok (in_small id, n) w.
Proof.
  intros H. unfold end_const. bstep (data_const_small_eq _ _ _ H).
  by bstep (size_eq _ _ H).
Qed.

Lemma end_const_big_eq id n p b :
  vs !! id = Some (mk_vec n false (buf_ p)) → hp !! p = Some b →
  end_const id w = Ok (in_buf p, n) w.
Proof.
  intros H Hb. unfold end_const. bstep (data_const_big_eq _ _ _ _ H Hb).
  by bstep (size_eq _ _ H).
Qed.

Lemma shared_buf_small_eq id n st :
  vs !! id = Some (mk_vec n true st) → shared_buf id w = Ok false w.
Proof. intros H. unfold shared_buf. by bstep (get_is_small_eq _ _ H). Qed.

Lemma shared_buf_big_eq id n p b :
  vs !! id = Some (mk_vec n false (buf_ p)) → hp !! p = Some b →
  shared_buf id w = Ok (bool_decide (1 < ref_count_ b)) w.
Proof.
  intros H Hb. unfold shared_buf. bstep (get_is_small_eq _ _ H).
  bstep (get_buf_eq _ _ _ _ H). by bstep (get_buffer_eq _ _ Hb).
Qed.

(** The non-const [data()] on storage that is not shared, whatever the
    inner call would do. *)
Lemma data_body_small_eq data_rec id n st :
  vs !! id = Some (mk_vec n true st) →
  data_body data_rec id w = Ok (in_small id, 0) w.
Proof.
  intros H. unfold data_body. bstep (shared_buf_small_eq _ _ _ H).
  by bstep (get_is_small_eq _ _ H).
Qed.

Lemma data_body_private_eq data_rec id n p b :
  vs !! id = Some (mk_vec n false (buf_ p)) → hp !! p = Some b →
  ref_count_ b ≤ 1 →
  data_body data_rec id w = Ok (in_buf p, 0) w.
Proof.
  intros H Hb Hrc. unfold data_body. bstep (shared_buf_big_eq _ _ _ _ H Hb).
  rewrite bool_decide_eq_false_2 by lia. simpl.
  bstep (get_is_small_eq _ _ H). bstep (get_buf_eq _ _ _ _ H).
  by eapply buffer_data_eq.
Qed.

Lemma data_small_eq id n st :
  vs !! id = Some (mk_vec n true st) → data id w = Ok (in_small id, 0) w.
Proof. apply data_body_small_eq. Qed.

Lemma data_private_eq id n p b :
  vs !! id = Some (mk_vec n false (buf_ p)) → hp !! p = Some b →
  ref_count_ b ≤ 1 →
  data id w = Ok (in_buf p, 0) w.
Proof. apply data_body_private_eq. Qed.

Lemma end_small_eq id n st :
  vs !! id = Some (mk_vec n true st) → end_ id w = Ok (in_small id, n) w.
Proof.
  intros H. unfold end_. bstep (data_small_eq _ _ _ H).
  by bstep (size_eq _ _ H).
Qed.

Lemma end_private_eq id n p b :
  vs !! id = Some (mk_vec n false (buf_ p)) → hp !! p = Some b →
  ref_count_ b ≤ 1 →
  end_ id w = Ok (in_buf p, n) w.
Proof.
  intros H Hb Hrc. unfold end_. bstep (data_private_eq _ _ _ _ H Hb Hrc).
  by bstep (size_eq _ _ H).
Qed.

Lemma size_sub_eq a b : b ≤ a → size_sub a b w = Ok (a - b) w.
Proof. intros. unfold size_sub. by rewrite decide_True. Qed.

Lemma ptr_diff_eq r i j : j ≤ i → ptr_diff (r, i) (r, j) w = Ok (i - j) w.
Proof. intros. unfold ptr_diff. simpl. by rewrite !decide_True. Qed.

Lemma ptr_sub_eq r i k : k ≤ i → ptr_sub (r, i) k w = Ok (r, i - k) w.
Proof. intros. unfold ptr_sub. simpl. by rewrite decide_True. Qed.

End accessors.

(** ** Releasing a reference *)

Lemma release_ref_shared_eq vs hp c this p b :
  hp !! p = Some b → 1 < ref_count_ b →
  release_ref this p (mk_world vs hp c)
  = Ok tt (mk_world vs (<[p := with_ref_count (ref_count_ b - 1) b]> hp) c).
Proof.
  intros Hb Hrc. unfold release_ref.
  bstep (get_buffer_eq vs hp c _ _ Hb).
  erewrite bind_eq by (apply size_sub_eq; lia).
  unfold bind at 1. simpl. unfold set_heap. simpl.
  erewrite bind_eq by (apply get_buffer_eq, lookup_insert_eq).
  simpl. by rewrite decide_False by lia.
Qed.

Lemma release_ref_last_eq vs hp c this p cp xs v :
  hp !! p = Some (mk_buffer cp 1 (pad cp xs)) →
  vs !! this = Some v → size_ v = length xs → length xs ≤ cp →
  release_ref this p (mk_world vs hp c)
  = Ok tt (mk_world vs (delete p hp) c).
Proof.
  intros Hb Hv Hn Hcp. unfold release_ref.
  bstep (get_buffer_eq vs hp c _ _ Hb).
  erewrite bind_eq by (apply size_sub_eq; simpl; lia).
  unfold bind at 1. simpl. unfold set_heap, with_ref_count. simpl.
  set (hp1 := <[p := mk_buffer cp 0 (pad cp xs)]> hp).
  assert (hp1 !! p = Some (mk_buffer cp 0 (pad cp xs))) as Hb1
    by apply lookup_insert_eq.
  bstep (get_buffer_eq vs hp1 c _ _ Hb1).
  bstep (buffer_data_eq vs hp1 c _ _ Hb1).
  bstep (size_eq vs hp1 c _ _ Hv). rewrite Hn.
  destruct (destroy_n_spec (in_buf p) (length xs) 0 (mk_world vs hp1 c)
              (pad cp xs)) as ([vs' hp' c'] & Hrun & Hup & Hc).
  { simpl. by rewrite Hb1. }
  { intros i Hi. destruct (lookup_lt_is_Some_2 xs i Hi) as [x Hx].
    exists x. by apply pad_lookup_lt. }
  bstep Hrun.
  simpl in *. destruct Hup as (-> & b' & Hb' & ->). subst c'.
  erewrite delete_buf_eq by apply lookup_insert_eq.
  unfold hp1. by rewrite !delete_insert_eq.
Qed.

(** The heap after one reference to the block at [p] is given up. *)
Definition released (hp : gmap nat buffer) (p : nat) : gmap nat buffer :=
  match hp !! p with
  | Some b =>
      if decide (ref_count_ b ≤ 1) then delete p hp
      else <[p := with_ref_count (ref_count_ b - 1) b]> hp
  | None => hp
  end.

Lemma release_ref_eq vs hp c this p cp rc xs v :
  hp !! p = Some (mk_buffer cp rc (pad cp xs)) → 0 < rc →
  vs !! this = Some v → size_ v = length xs → length xs ≤ cp →
  release_ref this p (mk_world vs hp c)
  = Ok tt (mk_world vs (released hp p) c).
Proof.
  intros Hb Hrc Hv Hn Hcp. unfold released. rewrite Hb. simpl.
  case_decide.
  - assert (rc = 1) as -> by lia. by eapply release_ref_last_eq.
  - by rewrite (release_ref_shared_eq _ _ _ _ _ _ Hb) by (simpl; lia).
Qed.

(** One block while an instance [oa] lets go of its storage, and while
    an instance [oa'] takes hold of its storage. *)
Definition buf_lose (oa : option avec) (p : nat) (ob ob' : option buffer)
    : Prop :=
  match ob, ob' with
  | Some b, Some b' =>
      capacity_ b' = capacity_ b ∧ data_ b' = data_ b ∧
      ref_count_ b' + nb p oa = ref_count_ b ∧ 0 < ref_count_ b'
  | Some b, None => ref_count_ b = nb p oa
  | None, Some _ => False
  | None, None => True
  end.

Definition buf_gain (oa' : option avec) (p : nat) (ob ob' : option buffer)
    : Prop :=
  match ob, ob' with
  | Some b, Some b' =>
      capacity_ b' = capacity_ b ∧ data_ b' = data_ b ∧
      ref_count_ b' = ref_count_ b + nb p oa'
  | None, Some b' => ref_count_ b' = nb p oa' ∧ 0 < ref_count_ b'
  | Some _, None => False
  | None, None => True
  end.

Lemma buf_lose_gain oa oa' p ob ob1 ob' :
  buf_lose oa p ob ob1 → buf_gain oa' p ob1 ob' →
  buf_adjust oa oa' p ob ob'.
Proof.
  unfold buf_lose, buf_gain, buf_adjust.
  destruct ob as [b|], ob1 as [b1|], ob' as [b'|]; try done.
  - intros (? & ? & ? & ?) (? & ? & ?).
    split; [left; split; congruence|]. lia.
  - intros ? [? ?]. split; [by right|]. lia.
Qed.

Lemma nb_le_1 p oa : nb p oa ≤ 1.
Proof. destruct oa as [a|]; simpl; [case_match|]; lia. Qed.

Lemma buf_gain_lose oa oa' p ob ob1 ob' :
  (∀ b, ob = Some b → 0 < ref_count_ b) →
  buf_gain oa' p ob ob1 → buf_lose oa p ob1 ob' →
  buf_adjust oa oa' p ob ob'.
Proof.
  unfold buf_lose, buf_gain, buf_adjust. intros Hpos.
  pose proof (nb_le_1 p oa). pose proof (nb_le_1 p oa').
  destruct ob as [b|], ob1 as [b1|], ob' as [b'|]; try done.
  - intros (? & ? & ?) (? & ? & ? & ?).
    split; [left; split; congruence|]. lia.
  - specialize (Hpos b eq_refl). intros (? & ? & ?) ?. lia.
  - intros [? ?] (? & ? & ? & ?). lia.
Qed.

Definition heap_pos (hp : gmap nat buffer) : Prop :=
  ∀ q b, hp !! q = Some b → 0 < ref_count_ b.

Lemma rep_heap_pos w av : rep w av → heap_pos (heap w).
Proof. intros [_ H2] q b Hb. by destruct (H2 q b Hb). Qed.

Lemma buf_lose_same (hp hp' : gmap nat buffer) oa q :
  heap_pos hp → nb q oa = 0 → hp' !! q = hp !! q →
  buf_lose oa q (hp !! q) (hp' !! q).
Proof.
  intros Hpos Hnb ->. unfold buf_lose.
  destruct (hp !! q) as [b|] eqn:Hq; [|done].
  pose proof (Hpos q b Hq). repeat split; lia.
Qed.

Lemma released_lose hp p c xs b q :
  heap_pos hp → hp !! p = Some b →
  buf_lose (Some (ABig p c xs)) q (hp !! q) (released hp p !! q).
Proof.
  intros Hpos Hb. unfold released. rewrite Hb.
  pose proof (Hpos p b Hb).
  destruct (decide (q = p)) as [->|Hne].
  - unfold buf_lose. rewrite Hb. simpl nb.
    rewrite bool_decide_eq_true_2 by done.
    case_decide.
    + rewrite lookup_delete_eq. lia.
    + rewrite lookup_insert_eq. simpl. repeat split; lia.
  - case_decide; apply buf_lose_same; try done.
    + by apply big_at_ne_nb.
    + by rewrite lookup_delete_ne.
    + by apply big_at_ne_nb.
    + by rewrite lookup_insert_ne.
Qed.

Lemma buf_lose_small hp xs q :
  heap_pos hp → buf_lose (Some (ASmall xs)) q (hp !! q) (hp !! q).
Proof. intros. by apply buf_lose_same. Qed.

Lemma buf_lose_none hp q :
  heap_pos hp → buf_lose None q (hp !! q) (hp !! q).
Proof. intros. by apply buf_lose_same. Qed.

Lemma buf_gain_small (hp : gmap nat buffer) xs q :
  buf_gain (Some (ASmall xs)) q (hp !! q) (hp !! q).
Proof.
  unfold buf_gain. destruct (hp !! q) as [b|]; [|done].
  simpl. repeat split; lia.
Qed.

Lemma buf_gain_none (hp : gmap nat buffer) q :
  buf_gain None q (hp !! q) (hp !! q).
Proof.
  unfold buf_gain. destruct (hp !! q) as [b|]; [|done].
  simpl. repeat split; lia.
Qed.

(** Taking one more reference to a live block. *)
Lemma buf_gain_retain (hp : gmap nat buffer) p b c xs q :
  hp !! p = Some b →
  buf_gain (Some (ABig p c xs)) q (hp !! q)
    (<[p := with_ref_count (ref_count_ b + 1) b]> hp !! q).
Proof.
  intros Hb. unfold buf_gain. destruct (decide (q = p)) as [->|Hne].
  - rewrite Hb, lookup_insert_eq. simpl.
    by rewrite bool_decide_eq_true_2 by done.
  - rewrite lookup_insert_ne by done.
    destruct (hp !! q) as [b0|]; [|done]. simpl.
    rewrite bool_decide_eq_false_2 by done. repeat split; lia.
Qed.

(** Taking a block that has just been created. *)
Lemma buf_gain_fresh (hp : gmap nat buffer) p c xs l q :
  hp !! p = None →
  buf_gain (Some (ABig p c xs)) q (hp !! q)
    (<[p := mk_buffer c 1 l]> hp !! q).
Proof.
  intros Hb. unfold buf_gain. destruct (decide (q = p)) as [->|Hne].
  - rewrite Hb, lookup_insert_eq. simpl.
    rewrite bool_decide_eq_true_2 by done. lia.
  - rewrite lookup_insert_ne by done.
    destruct (hp !! q) as [b0|]; [|done]. simpl.
    rewrite bool_decide_eq_false_2 by done. repeat split; lia.
Qed.

Lemma rep_copies vs hp c c' av :
  rep (mk_world vs hp c) av → rep (mk_world vs hp c') av.
Proof. done. Qed.

(** ** Stepping through a member function *)

Ltac lk :=
  simpl;
  first
    [ eassumption
    | rewrite lookup_insert_eq; reflexivity
    | rewrite lookup_insert_ne by (done || congruence); lk
    | rewrite lookup_delete_ne by (done || congruence); lk ].

Ltac wp_read :=
  first
    [ eapply size_eq; lk
    | eapply get_is_small_eq; lk
    | eapply get_vec_eq; lk
    | eapply get_buffer_eq; lk
    | eapply get_buf_eq; lk
    | eapply set_size_eq; lk
    | eapply set_is_small_eq; lk
    | eapply set_buf_eq; lk
    | eapply buffer_data_eq; lk
    | eapply buffer_capacity_eq; lk
    | eapply delete_buf_eq; lk
    | eapply capacity_small_eq; lk
    | eapply capacity_big_eq; lk
    | eapply data_const_small_eq; lk
    | eapply data_const_big_eq; lk
    | eapply end_const_small_eq; lk
    | eapply end_const_big_eq; lk
    | eapply shared_buf_small_eq; lk
    | eapply shared_buf_big_eq; lk
    | eapply data_small_eq; lk
    | eapply end_small_eq; lk
    | eapply data_private_eq; [lk | lk | simpl; lia]
    | eapply end_private_eq; [lk | lk | simpl; lia]
    | eapply size_sub_eq; simpl; lia
    | eapply ptr_diff_eq; simpl; lia
    | eapply ptr_sub_eq; simpl; lia
    | reflexivity ].

Ltac wp_step :=
  lazymatch goal with
  | |- wp (bind _ _) _ _ _ => eapply wp_bind_eq; [wp_read | simpl]
  | |- wp (ret _) _ _ _ => apply wp_ret
  | |- wp _ _ _ _ => eapply wp_eq; [wp_read | simpl]
  | |- outcome (bind _ _) _ _ => eapply outcome_bind_eq; [wp_read | simpl]
  | |- outcome _ _ _ => eapply outcome_eq; [wp_read | simpl]
  end.

(** The inner call of [data()] is good when it finds inline storage. *)
Definition good (dr : nat → M ptr) : Prop :=
  ∀ vs hp c id n st,
    vs !! id = Some (mk_vec n true st) →
    dr id (mk_world vs hp c) = Ok (in_small id, 0) (mk_world vs hp c).

Lemma good_data_fuel k : good (data_fuel (S k)).
Proof. intros vs hp c id n st H. simpl. by eapply data_body_small_eq. Qed.

Lemma good_data : good data.
Proof. apply good_data_fuel. Qed.

Lemma released_lookup_ne hp p q : q ≠ p → released hp p !! q = hp !! q.
Proof.
  intros. unfold released. destruct (hp !! p); [|done].
  case_decide; by rewrite ?lookup_delete_ne, ?lookup_insert_ne.
Qed.

Lemma container_destroy_small dr vs hp c this st xs :
  good dr →
  vs !! this = Some (mk_vec (length xs) true st) →
  small_of st = pad SMALL_SIZE xs → length xs ≤ SMALL_SIZE →
  ∃ st', container_destroy_rec dr this (mk_world vs hp c)
         = Ok tt (mk_world (<[this := mk_vec (length xs) true st']> vs) hp c) ∧
         small_of st' = pad SMALL_SIZE [].
Proof.
  intros Hdr Hv Hst Hn. unfold container_destroy_rec.
  bstep (get_is_small_eq vs hp c _ _ Hv).
  bstep (Hdr vs hp c _ _ _ Hv). bstep (size_eq vs hp c _ _ Hv).
  destruct (destroy_n_spec (in_small this) (length xs) 0 (mk_world vs hp c)
              (pad SMALL_SIZE xs)) as ([vs' hp' c'] & Hrun & Hup & Hc).
  { simpl. by rewrite Hv, <-Hst. }
  { intros i Hi. destruct (lookup_lt_is_Some_2 xs i Hi) as [x Hx].
    exists x. by apply pad_lookup_lt. }
  rewrite Hrun. simpl in *.
  destruct Hup as (-> & v & st' & Hv' & Hst' & ->). subst c'.
  rewrite Hv in Hv'. simplify_eq. exists st'. split; [done|].
  rewrite Hst'. by rewrite pad_inserts_none by (simpl; lia).
Qed.

Lemma container_destroy_big dr vs hp c this p cp rc xs :
  vs !! this = Some (mk_vec (length xs) false (buf_ p)) →
  hp !! p = Some (mk_buffer cp rc (pad cp xs)) → 0 < rc → length xs ≤ cp →
  container_destroy_rec dr this (mk_world vs hp c)
  = Ok tt (mk_world vs (released hp p) c).
Proof.
  intros Hv Hb Hrc Hn. unfold container_destroy_rec.
  bstep (get_is_small_eq vs hp c _ _ Hv).
  bstep (get_buf_eq vs hp c _ _ _ _ Hv).
  by eapply release_ref_eq.
Qed.

(** The destructor keeps the invariant and removes the instance. *)
Lemma dtor_spec vs hp c av this Q E :
  rep (mk_world vs hp c) av → is_Some (av !! this) →
  (∀ hp', rep (mk_world (delete this vs) hp' c) (delete this av) →
          Q tt (mk_world (delete this vs) hp' c)) →
  wp (dtor this) (mk_world vs hp c) Q E.
Proof.
  intros Hrep [a Ha] HQ. unfold dtor, container_destroy.
  pose proof (rep_heap_pos _ _ Hrep) as Hpos. simpl in Hpos.
  destruct a as [xs|p cp xs].
  - destruct (rep_small _ _ _ _ Hrep Ha) as (st & Hv & Hn & Hst).
    destruct (container_destroy_small data vs hp c this st xs good_data
                Hv Hst Hn) as (st' & Hrun & _).
    eapply wp_bind_eq; [done|]. eapply wp_eq; [done|]. simpl.
    rewrite delete_insert_eq. apply HQ.
    eapply rep_remove; [done|done|]. intros q. simpl. rewrite Ha.
    eapply buf_lose_gain; [by apply buf_lose_small|apply buf_gain_none].
  - destruct (rep_big _ _ _ _ _ _ Hrep Ha) as (Hv & rc & Hb & Hn & _ & _ & Hrc).
    eapply wp_bind_eq; [by eapply container_destroy_big|].
    eapply wp_eq; [done|]. simpl. apply HQ.
    eapply rep_remove; [done|done|]. intros q. simpl. rewrite Ha.
    eapply buf_lose_gain; [by eapply released_lose|apply buf_gain_none].
Qed.

Lemma wp_with_local {A} (make : M nat) (body : nat → M A) w Q E :
  wp make w
     (λ tmp w1,
        wp (body tmp) w1
           (λ a w2, wp (dtor tmp) w2 (λ _ w3, Q a w3) E)
           (λ w2, wp (dtor tmp) w2 (λ _ w3, E w3) E))
     E →
  wp (with_local make body) w Q E.
Proof.
  intros H. unfold with_local. apply wp_bind.
  eapply wp_mono; [exact H| |done]. simpl. intros tmp w1 Hb.
  by apply wp_finally.
Qed.

(** ** unshare *)

Lemma fresh_heap (hp : gmap nat buffer) : hp !! fresh (dom hp) = None.
Proof. apply not_elem_of_dom, is_fresh. Qed.

Lemma fresh_vecs (vs : gmap nat socow_vector) : vs !! fresh (dom vs) = None.
Proof. apply not_elem_of_dom, is_fresh. Qed.

Lemma heap_pos_insert hp p b :
  heap_pos hp → 0 < ref_count_ b → heap_pos (<[p := b]> hp).
Proof.
  intros Hpos Hb q b' Hq. destruct (decide (q = p)) as [->|].
  - rewrite lookup_insert_eq in Hq. by simplify_eq.
  - rewrite lookup_insert_ne in Hq by done. by eapply Hpos.
Qed.

Lemma unshare_spec dr vs hp c av this a nc Q E :
  good dr → rep (mk_world vs hp c) av → av !! this = Some a →
  length (aelems a) ≤ nc → 0 < nc → fits nc →
  (∀ p' hp',
     hp !! p' = None →
     rep (mk_world (<[this := mk_vec (length (aelems a)) false (buf_ p')]> vs)
            hp' (c + length (aelems a)))
         (<[this := ABig p' nc (aelems a)]> av) →
     Q tt (mk_world (<[this := mk_vec (length (aelems a)) false (buf_ p')]> vs)
             hp' (c + length (aelems a)))) →
  (∀ c', may_throw → E (mk_world vs hp c')) →
  wp (unshare_rec dr this nc) (mk_world vs hp c) Q E.
Proof.
  intros Hdr Hrep Ha Hfit Hnc Hal HQ HE. unfold unshare_rec.
  pose proof (rep_heap_pos _ _ Hrep) as Hpos. simpl in Hpos.
  pose proof (fresh_heap hp) as Hfresh.
  set (p' := fresh (dom hp)) in *.
  eapply wp_bind_eq; [by apply create_buf_fits|]. simpl. fold p'.
  set (hp1 := <[p' := mk_buffer nc 1 (replicate nc None)]> hp).
  assert (hp1 !! p' = Some (mk_buffer nc 1 (pad nc []))) as Hp1.
  { unfold hp1. by rewrite lookup_insert_eq, pad_nil. }
  assert (∃ src st_or_buf,
      data_const this (mk_world vs hp1 c) = Ok (src, 0) (mk_world vs hp1 c) ∧
      region_slots (mk_world vs hp1 c) src = Some (pad st_or_buf (aelems a)) ∧
      src ≠ in_buf p' ∧
      ∃ sm st, vs !! this = Some (mk_vec (length (aelems a)) sm st))
    as (src & cs & Hsrc & Hslots & Hne & sm & st & Hv).
  { destruct a as [xs|p cp xs]; simpl.
    - destruct (rep_small _ _ _ _ Hrep Ha) as (st & Hv & Hn & Hst).
      exists (in_small this), SMALL_SIZE. split; [by eapply data_const_small_eq|].
      simpl in *. rewrite Hv. simpl. rewrite Hst. eauto.
    - destruct (rep_big _ _ _ _ _ _ Hrep Ha) as (Hv & rc & Hb & _).
      simpl in *. assert (p ≠ p') by congruence.
      exists (in_buf p), cp. split.
      { eapply data_const_big_eq; [done|]. unfold hp1.
        by rewrite lookup_insert_ne. }
      simpl. unfold hp1. rewrite lookup_insert_ne, Hb by done. simpl.
      split; [done|]. split; [congruence|]. eauto. }
  apply wp_bind. apply wp_try_catch.
  eapply wp_bind_eq; [exact Hsrc|].
  eapply wp_bind_eq; [by eapply size_eq|]. simpl.
  eapply wp_bind_eq; [by eapply buffer_data_eq|].
  eapply wp_mono.
  { eapply (uninitialized_copy_n_spec _ src 0 (in_buf p') cs nc (aelems a) []);
      try done; try (simpl; lia); try (simpl; by rewrite Hp1). }
  - (* the copies succeeded *)
    simpl. intros _ [vs2 hp2 c2] [(Hvs & b & Hb & Hhp) Hc]. simpl in *.
    subst vs2 hp2 c2. rewrite Hp1 in Hb. simplify_eq.
    rewrite take_ge, drop_0 by (rewrite length_drop; lia).
    unfold with_data, hp1. simpl. rewrite insert_insert_eq.
    set (hp2 := <[p' := mk_buffer nc 1 (pad nc (aelems a))]> hp).
    assert (heap_pos hp2) as Hpos2
      by (apply heap_pos_insert; [done | simpl; lia]).
    destruct a as [xs|p cp xs]; simpl in *.
    + destruct (rep_small _ _ _ _ Hrep Ha) as (st0 & Hv0 & Hn & Hst).
      simpl in Hv0. rewrite Hv in Hv0. simplify_eq.
      destruct (container_destroy_small dr vs hp2 (c + length xs) this st0 xs
                  Hdr Hv Hst Hn) as (st' & Hrun & _).
      eapply wp_bind_eq; [exact Hrun|].
      wp_step. wp_step. rewrite !insert_insert_eq.
      apply HQ; [done|].
      eapply rep_change; [exact Hrep|done| |].
      * simpl. repeat (split; [done|]). eexists. split; [apply lookup_insert_eq|].
        done.
      * intros q. simpl. rewrite Ha.
        eapply buf_gain_lose; [by eauto|by apply buf_gain_fresh|].
        by apply buf_lose_small.
    + destruct (rep_big _ _ _ _ _ _ Hrep Ha)
        as (Hv0 & rc & Hb & Hn & _ & _ & Hrc).
      simpl in Hv0, Hb. rewrite Hv in Hv0. simplify_eq.
      assert (p ≠ p') by congruence.
      eapply wp_bind_eq.
      { eapply container_destroy_big; [done| |done|done].
        unfold hp2. by rewrite lookup_insert_ne. }
      wp_step. wp_step. rewrite !insert_insert_eq.
      apply HQ; [done|].
      eapply rep_change; [exact Hrep|done| |].
      * simpl. repeat (split; [done|]). eexists. split.
        { rewrite released_lookup_ne by congruence. apply lookup_insert_eq. }
        done.
      * intros q. simpl. rewrite Ha.
        eapply buf_gain_lose; [by eauto|by apply buf_gain_fresh|].
        eapply released_lose; [done|]. unfold hp2. by rewrite lookup_insert_ne.
  - (* a copy threw *)
    simpl. intros [vs2 hp2 c2] [Hth (Hvs & b & Hb & Hhp)]. simpl in *.
    subst vs2 hp2. rewrite Hp1 in Hb. simplify_eq.
    apply wp_bind. eapply wp_eq.
    { eapply delete_buf_eq. apply lookup_insert_eq. }
    apply wp_throw. unfold hp1. rewrite !delete_insert_eq, delete_id by done.
    by apply HE.
Qed.

(** ** Slot operations on a live prefix *)

Lemma pad_insert_end n xs x :
  length xs < n → <[length xs := Some x]> (pad n xs) = pad n (xs ++ [x]).
Proof.
  intros Hn. rewrite <-(pad_inserts_app n xs [x]) by (simpl; lia). done.
Qed.

Lemma placement_new_end_spec w r cap ys x Q E :
  region_slots w r = Some (pad cap ys) → length ys < cap →
  (∀ w', region_updated w w' r (pad cap (ys ++ [x])) →
         copies w' = S (copies w) → Q tt w') →
  (may_throw → E (tick w)) →
  wp (placement_new (r, length ys) x) w Q E.
Proof.
  intros Hr Hn HQ HE. unfold placement_new.
  apply wp_bind, copy_construct_spec; [|done].
  eapply wp_eq.
  { eapply construct_at_eq; [by rewrite region_slots_tick|].
    rewrite pad_length; lia. }
  rewrite pad_insert_end by done. apply HQ.
  - apply region_updated_tick_l, region_updated_write with (l := pad cap ys).
    by rewrite region_slots_tick.
  - by rewrite copies_write_region.
Qed.

Lemma destroy_tail_spec w r cap ys k :
  region_slots w r = Some (pad cap ys) → length ys ≤ cap → k ≤ length ys →
  ∃ w', destroy_n (r, k) (length ys - k) w = Ok tt w' ∧
        region_updated w w' r (pad cap (take k ys)) ∧
        copies w' = copies w.
Proof.
  intros Hr Hn Hk.
  destruct (destroy_n_spec r (length ys - k) k w (pad cap ys) Hr)
    as (w' & Hrun & Hup & Hc).
  { intros i Hi. destruct (lookup_lt_is_Some_2 ys (k + i)) as [x Hx]; [lia|].
    exists x. by apply pad_lookup_lt. }
  exists w'. split; [done|]. split; [|done].
  by rewrite pad_inserts_none in Hup by lia.
Qed.

Lemma swap_elems_same w r cap l i j a b :
  region_slots w r = Some (pad cap l) →
  l !! i = Some a → l !! j = Some b →
  ∃ w', swap_elems (r, i) (r, j) w = Ok tt w' ∧
        region_updated w w' r (pad cap (<[j := a]> (<[i := b]> l))) ∧
        copies w' = copies w.
Proof.
  intros Hr Ha Hb. unfold swap_elems.
  rewrite (bind_eq _ _ _ _ _ (load_eq _ _ _ _ _ Hr (pad_lookup_lt cap _ _ _ Ha))).
  rewrite (bind_eq _ _ _ _ _ (load_eq _ _ _ _ _ Hr (pad_lookup_lt cap _ _ _ Hb))).
  rewrite (bind_eq _ _ _ _ _
    (store_eq _ _ _ _ _ b Hr (pad_lookup_lt cap _ _ _ Ha))).
  rewrite pad_insert_lt by (by eapply lookup_lt_Some).
  pose proof (region_updated_write w r _ (pad cap (<[i:=b]> l)) Hr) as Hup1.
  pose proof (region_updated_slots _ _ _ _ Hup1) as Hr1.
  assert (∃ b', <[i:=b]> l !! j = Some b') as [b' Hb'].
  { apply lookup_lt_is_Some. rewrite length_insert. by eapply lookup_lt_Some. }
  rewrite (store_eq _ _ _ _ _ a Hr1 (pad_lookup_lt cap _ _ _ Hb')).
  rewrite pad_insert_lt
    by (rewrite length_insert; by eapply lookup_lt_Some).
  eexists. split; [done|]. split.
  - eapply region_updated_trans; [done|]. by eapply region_updated_write.
  - by rewrite !copies_write_region.
Qed.

Lemma swap_elems_two w r1 r2 c1 c2 l1 l2 i j a b :
  r1 ≠ r2 →
  region_slots w r1 = Some (pad c1 l1) →
  region_slots w r2 = Some (pad c2 l2) →
  l1 !! i = Some a → l2 !! j = Some b →
  swap_elems (r1, i) (r2, j) w
  = Ok tt (write_region r2 (pad c2 (<[j := a]> l2))
             (write_region r1 (pad c1 (<[i := b]> l1)) w)).
Proof.
  intros Hne Hr1 Hr2 Ha Hb. unfold swap_elems.
  rewrite (bind_eq _ _ _ _ _ (load_eq _ _ _ _ _ Hr1 (pad_lookup_lt c1 _ _ _ Ha))).
  rewrite (bind_eq _ _ _ _ _ (load_eq _ _ _ _ _ Hr2 (pad_lookup_lt c2 _ _ _ Hb))).
  rewrite (bind_eq _ _ _ _ _
    (store_eq _ _ _ _ _ b Hr1 (pad_lookup_lt c1 _ _ _ Ha))).
  rewrite pad_insert_lt by (by eapply lookup_lt_Some).
  pose proof (region_updated_write w r1 _ (pad c1 (<[i:=b]> l1)) Hr1) as Hup1.
  assert (region_slots (write_region r1 (pad c1 (<[i:=b]> l1)) w) r2
          = Some (pad c2 l2)) as Hr2'.
  { erewrite region_updated_other; [done|done|congruence]. }
  rewrite (store_eq _ _ _ _ _ a Hr2' (pad_lookup_lt c2 _ _ _ Hb)).
  by rewrite pad_insert_lt by (by eapply lookup_lt_Some).
Qed.

(** ** copy_to_small *)

Lemma with_store_buf_id n sm p st' :
  with_store (buf_ p) (with_store st' (mk_vec n sm (buf_ p)))
  = mk_vec n sm (buf_ p).
Proof. done. Qed.

Lemma copy_to_small_spec vs hp c this p cp rc xs rs so cs ys n Q E :
  vs !! this = Some (mk_vec (length xs) false (buf_ p)) →
  hp !! p = Some (mk_buffer cp rc (pad cp xs)) → 0 < rc → length xs ≤ cp →
  rs ≠ in_small this →
  region_slots (mk_world vs hp c) rs = Some (pad cs ys) →
  so + n ≤ length ys → n ≤ SMALL_SIZE →
  (∀ st', small_of st' = pad SMALL_SIZE (take n (drop so ys)) →
          Q tt (mk_world (<[this := mk_vec (length xs) true st']> vs)
                  (released hp p) (c + n))) →
  (∀ c', may_throw → E (mk_world vs hp c')) →
  wp (copy_to_small this (rs, so) n) (mk_world vs hp c) Q E.
Proof.
  intros Hv Hb Hrc Hn Hne Hsrc Hso HnN HQ HE. unfold copy_to_small.
  wp_step. apply wp_bind, wp_try_catch.
  eapply wp_mono.
  { eapply (uninitialized_copy_n_spec _ rs so (in_small this) cs SMALL_SIZE
              ys [] n); try done; try (simpl; lia).
    simpl. rewrite Hv. simpl. by rewrite pad_nil. }
  - simpl. intros _ [vs2 hp2 c2] [(Hhp & v & st' & Hv' & Hst' & Hvs) Hc].
    simpl in *. subst vs2 hp2 c2. rewrite Hv in Hv'. simplify_eq.
    wp_step. rewrite insert_insert_eq.
    eapply wp_eq.
    { eapply release_ref_eq; [done|done|lk|done|done]. }
    by apply HQ.
  - simpl. intros [vs2 hp2 c2] [Hth (Hhp & v & st' & Hv' & Hst' & Hvs)].
    simpl in *. subst vs2 hp2. rewrite Hv in Hv'. simplify_eq.
    apply wp_bind. wp_step. apply wp_throw.
    rewrite insert_insert_eq, with_store_buf_id, insert_id by done.
    by apply HE.
Qed.

(** ** swap_ranges on two inline arrays *)

Lemma inserts_0_take_drop {A} (l1 l2 : list A) k :
  k ≤ length l1 → k ≤ length l2 →
  list_inserts 0 (take k l2) l1 = take k l2 ++ drop k l1.
Proof.
  intros H1 H2. rewrite <-(take_drop k l1) at 1.
  apply list_inserts_0_r. rewrite !length_take. lia.
Qed.

Lemma swap_ranges_small hp c id1 id2 n1 n2 sm1 sm2 k : ∀ o vs st1 st2 l1 l2,
  id1 ≠ id2 →
  vs !! id1 = Some (mk_vec n1 sm1 st1) →
  vs !! id2 = Some (mk_vec n2 sm2 st2) →
  small_of st1 = pad SMALL_SIZE l1 → small_of st2 = pad SMALL_SIZE l2 →
  o + k ≤ length l1 → o + k ≤ length l2 →
  ∃ st1' st2',
    swap_ranges_n (in_small id1, o) k (in_small id2, o) (mk_world vs hp c)
    = Ok tt (mk_world (<[id2 := mk_vec n2 sm2 st2']>
                         (<[id1 := mk_vec n1 sm1 st1']> vs)) hp c) ∧
    small_of st1' = pad SMALL_SIZE (list_inserts o (take k (drop o l2)) l1) ∧
    small_of st2' = pad SMALL_SIZE (list_inserts o (take k (drop o l1)) l2).
Proof.
  induction k as [|k IH]; intros o vs st1 st2 l1 l2 Hne H1 H2 Hs1 Hs2 Hk1 Hk2.
  { exists st1, st2. simpl. by rewrite !insert_id by (by rewrite ?insert_id). }
  destruct (lookup_lt_is_Some_2 l1 o) as [a Ha]; [lia|].
  destruct (lookup_lt_is_Some_2 l2 o) as [b Hb]; [lia|].
  simpl. erewrite bind_eq; last first.
  { eapply (swap_elems_two _ (in_small id1) (in_small id2)
              SMALL_SIZE SMALL_SIZE l1 l2 o o a b);
      [congruence | simpl; by rewrite H1, <-Hs1
      | simpl; by rewrite H2, <-Hs2 | done | done]. }
  simpl. rewrite (alter_lookup_insert _ vs id1 _ H1).
  rewrite (alter_lookup_insert _ _ id2 (mk_vec n2 sm2 st2))
    by (by rewrite lookup_insert_ne).
  unfold with_store. simpl.
  edestruct (IH (o + 1)
    (<[id2 := mk_vec n2 sm2 (small_ (pad SMALL_SIZE (<[o:=a]> l2)))]>
       (<[id1 := mk_vec n1 sm1 (small_ (pad SMALL_SIZE (<[o:=b]> l1)))]> vs)))
    as (st1' & st2' & Hrun & Hs1' & Hs2').
  { exact Hne. }
  { rewrite lookup_insert_ne by done. apply lookup_insert_eq. }
  { apply lookup_insert_eq. }
  { reflexivity. }
  { reflexivity. }
  { rewrite length_insert. lia. }
  { rewrite length_insert. lia. }
  exists st1', st2'. unfold ptr_add. simpl. rewrite Hrun. split; [|split].
  - f_equal. f_equal. apply map_eq. intros i.
    destruct (decide (i = id2)) as [->|]; [by rewrite !lookup_insert_eq|].
    rewrite !(lookup_insert_ne _ id2) by done.
    destruct (decide (i = id1)) as [->|]; [by rewrite !lookup_insert_eq|].
    by rewrite !lookup_insert_ne by done.
  - rewrite Hs1'. f_equal. replace (o + 1) with (S o) by lia.
    rewrite drop_insert_lt by lia.
    rewrite (drop_S l2 b o Hb). simpl.
    by rewrite list_insert_inserts_lt by lia.
  - rewrite Hs2'. f_equal. replace (o + 1) with (S o) by lia.
    rewrite drop_insert_lt by lia.
    rewrite (drop_S l1 a o Ha). simpl.
    by rewrite list_insert_inserts_lt by lia.
Qed.

(** Setting an instance that holds no block to inline elements. *)
Lemma rep_set_small vs hp c c' av id st' zs :
  rep (mk_world vs hp c) av →
  (∀ a, av !! id = Some a → ∃ xs, a = ASmall xs) →
  small_of st' = pad SMALL_SIZE zs → length zs ≤ SMALL_SIZE →
  rep (mk_world (<[id := mk_vec (length zs) true st']> vs) hp c')
      (<[id := ASmall zs]> av).
Proof.
  intros Hrep Hsm Hst Hn.
  eapply rep_change; [exact Hrep|done|by simpl|].
  intros q. simpl.
  assert (nb q (av !! id) = 0) as Hnb.
  { destruct (av !! id) as [a|] eqn:Ha; [|done].
    destruct (Hsm a eq_refl) as [xs ->]. done. }
  pose proof (rep_heap_pos _ _ Hrep q) as Hpos. simpl in Hpos.
  unfold buf_adjust. destruct (hp !! q) as [b|]; [|done].
  specialize (Hpos b eq_refl). rewrite Hnb. split; [by left|]. simpl. lia.
Qed.

(** ** Copy assignment *)

Lemma rep_owner_alive vs hp c av id p cp xs this a :
  rep (mk_world vs hp c) av →
  av !! id = Some (ABig p cp xs) → av !! this = Some a → id ≠ this →
  ∀ hp' : gmap nat buffer,
    (∀ q, buf_lose (Some a) q (hp !! q) (hp' !! q)) →
    ∃ rc', hp' !! p = Some (mk_buffer cp rc' (pad cp xs)) ∧ 0 < rc'.
Proof.
  intros Hrep Hid Hthis Hne hp' Hlose.
  destruct (rep_big _ _ _ _ _ _ Hrep Hid) as (_ & rc & Hb & _ & _ & Hrc & _).
  simpl in Hb. specialize (Hlose p). rewrite Hb in Hlose.
  pose proof (owners_two av this id _ p (not_eq_sym Hne) Hid
                (big_at_same _ _ _)) as Htwo.
  rewrite Hthis in Htwo. unfold buf_lose in Hlose.
  destruct (hp' !! p) as [[c' rc' d']|]; simpl in *.
  - destruct Hlose as (-> & -> & _ & ?). eauto.
  - lia.
Qed.

Lemma rep_size w av id a :
  rep w av → av !! id = Some a →
  ∃ v, vecs w !! id = Some v ∧ size_ v = length (aelems a).
Proof.
  intros Hrep Ha. destruct a as [xs|p cp xs].
  - destruct (rep_small _ _ _ _ Hrep Ha) as (st & Hv & _). eauto.
  - destruct (rep_big _ _ _ _ _ _ Hrep Ha) as (Hv & _). eauto.
Qed.

Lemma with_size_id v : with_size (size_ v) v = v.
Proof. by destruct v. Qed.

(** The closing [size_ = other.size()] of the copy assignment, once the
    sizes agree already. *)
Lemma assign_tail w av this other a ao Q E :
  rep w av → av !! this = Some a → av !! other = Some ao →
  length (aelems a) = length (aelems ao) →
  Q tt w →
  wp (on <- size other ;; set_size_ this on) w Q E.
Proof.
  intros Hrep Ha Hao Hlen HQ. destruct w as [vs hp c].
  destruct (rep_size _ _ _ _ Hrep Ha) as (v & Hv & Hsz).
  destruct (rep_size _ _ _ _ Hrep Hao) as (vo & Hvo & Hszo).
  simpl in *.
  eapply wp_bind_eq; [by eapply size_eq|].
  eapply wp_eq; [by eapply set_size_eq|].
  rewrite Hszo, <-Hlen, <-Hsz, with_size_id, insert_id by done. done.
Qed.

Lemma rep_two_small vs hp c c' av id1 id2 st1 st2 z1 z2 :
  rep (mk_world vs hp c) av → id1 ≠ id2 →
  (∀ a, av !! id1 = Some a → ∃ xs, a = ASmall xs) →
  (∀ a, av !! id2 = Some a → ∃ xs, a = ASmall xs) →
  small_of st1 = pad SMALL_SIZE z1 → length z1 ≤ SMALL_SIZE →
  small_of st2 = pad SMALL_SIZE z2 → length z2 ≤ SMALL_SIZE →
  rep (mk_world (<[id2 := mk_vec (length z2) true st2]>
                   (<[id1 := mk_vec (length z1) true st1]> vs)) hp c')
      (<[id2 := ASmall z2]> (<[id1 := ASmall z1]> av)).
Proof.
  intros Hrep Hne H1 H2 Hs1 Hn1 Hs2 Hn2.
  eapply rep_set_small; [|by rewrite lookup_insert_ne|done|done].
  by eapply (rep_set_small _ _ c c).
Qed.

Lemma small_or_none_small (av : gmap nat avec) (id : nat) xs :
  av !! id = Some (ASmall xs) →
  ∀ a : avec, av !! id = Some a → ∃ xs, a = ASmall xs.
Proof. intros -> a [= <-]. eauto. Qed.

Lemma small_or_none_none (av : gmap nat avec) (id : nat) :
  av !! id = None →
  ∀ a : avec, av !! id = Some a → ∃ xs, a = ASmall xs.
Proof. by intros -> a. Qed.

Lemma insert_swap_top {A} (m : gmap nat A) i j x y z :
  i ≠ j → <[i := x]> (<[j := y]> (<[i := z]> m)) = <[i := x]> (<[j := y]> m).
Proof.
  intros. apply map_eq. intros k.
  destruct (decide (k = i)) as [->|]; [by rewrite !lookup_insert_eq|].
  rewrite !(lookup_insert_ne _ i) by done.
  destruct (decide (k = j)) as [->|]; [by rewrite !lookup_insert_eq|].
  by rewrite !lookup_insert_ne by done.
Qed.

Lemma operator_assign_spec vs hp c av this other a ao Q E :
  rep (mk_world vs hp c) av →
  av !! this = Some a → av !! other = Some ao → this ≠ other →
  (∀ w', rep w' (<[this := ao]> av) →
         (∀ p cp ys, ao = ABig p cp ys → copies w' = c) →
         Q tt w') →
  (∀ w', may_throw → (∃ ys, ao = ASmall ys) → rep w' av → E w') →
  wp (operator_assign this other) (mk_world vs hp c) Q E.
Proof.
  intros Hrep Ha Hao Hne HQ HE. unfold operator_assign.
  rewrite decide_False by done.
  pose proof (rep_heap_pos _ _ Hrep) as Hpos. simpl in Hpos.
  destruct ao as [ys|p cp ys].
  - (* the source is small *)
    destruct (rep_small _ _ _ _ Hrep Hao) as (sto & Hvo & Hno & Hsto).
    simpl in Hvo.
    destruct a as [xs|q cq xs].
    + (* both are small *)
      destruct (rep_small _ _ _ _ Hrep Ha) as (st & Hv & Hn & Hst).
      simpl in Hv.
      wp_step. apply wp_bind. do 4 wp_step.
      set (m := length xs `min` length ys).
      pose proof (fresh_vecs vs) as Hfresh.
      apply wp_with_local. eapply wp_eq; [reflexivity|]. simpl.
      set (t := fresh (dom vs)) in *.
      assert (t ≠ this) as Htt by congruence.
      assert (t ≠ other) as Hto by congruence.
      assert (av !! t = None) as Hat by (by eapply rep_none).
      do 2 wp_step.
      apply wp_bind. eapply wp_mono.
      { eapply (uninitialized_copy_n_spec _ (in_small other) 0 (in_small t)
                  SMALL_SIZE SMALL_SIZE ys [] m);
          [congruence
          | simpl; rewrite lookup_insert_ne, Hvo by done; simpl; by rewrite Hsto
          | simpl; rewrite lookup_insert_eq; simpl; by rewrite pad_nil
          | simpl; lia | simpl; lia]. }
      * (* the prefix was copied into the temporary *)
        simpl. intros _ [vs2 hp2 c2] [(Hhp & v & stt & Hv' & Hstt & Hvs) Hc].
        simpl in *. subst vs2 hp2 c2.
        rewrite lookup_insert_eq in Hv'. simplify_eq.
        rewrite insert_insert_eq. unfold with_store. simpl.
        rewrite drop_0 in Hstt.
        assert (length (take m ys) = m) as Hlm by (rewrite length_take; lia).
        do 3 wp_step. rewrite insert_insert_eq. unfold with_size. simpl.
        match goal with
        | |- wp (bind _ ?k) _ ?Q' ?E' =>
            assert (∀ st1 c4 xs1,
              small_of st1 = pad SMALL_SIZE xs1 →
              length xs1 = length ys →
              take m ys ++ drop m xs1 = ys →
              wp (k tt)
                 (mk_world (<[this := mk_vec (length xs) true st1]>
                              (<[t := mk_vec m true stt]> vs)) hp c4)
                 Q' E') as Hcont
        end.
        { intros st1 c4 xs1 Hst1 Hl1 Hys. do 2 wp_step.
          rewrite insert_insert_eq. unfold with_size. simpl.
          do 3 wp_step. unfold swap_ranges. wp_step.
          rewrite Nat.sub_0_r.
          edestruct (swap_ranges_small hp c4 this t (length ys) m true true m 0
            (<[this := mk_vec (length ys) true st1]>
               (<[t := mk_vec m true stt]> vs)) st1 stt xs1 (take m ys))
            as (st1' & st2' & Hrun & Hs1' & Hs2').
          { done. }
          { apply lookup_insert_eq. }
          { rewrite lookup_insert_ne by done. apply lookup_insert_eq. }
          { done. }
          { done. }
          { lia. }
          { lia. }
          eapply wp_eq; [exact Hrun|].
          rewrite !drop_0, take_take, Nat.min_id in Hs1'.
          rewrite inserts_0_take_drop, Hys in Hs1' by lia.
          rewrite drop_0, inserts_0_take_drop in Hs2' by lia.
          rewrite (drop_ge (take m ys)), app_nil_r in Hs2' by lia.
          rewrite insert_insert_eq, insert_swap_top by done.
          assert (length (take m xs1) = m) as Hlt
            by (rewrite length_take; lia).
          rewrite <-Hlt at 1.
          eapply dtor_spec.
          { eapply (rep_two_small _ _ c); try done.
            - by eapply small_or_none_small.
            - by eapply small_or_none_none.
            - lia. }
          { rewrite lookup_insert_eq. eauto. }
          intros hp' Hrep'.
          rewrite !delete_insert_eq, !delete_id in Hrep'
            by (by rewrite lookup_insert_ne).
          rewrite !delete_insert_eq, !delete_id
            by (by rewrite lookup_insert_ne).
          eapply (assign_tail _ _ this other (ASmall ys) (ASmall ys));
            [exact Hrep'|apply lookup_insert_eq
            |by rewrite lookup_insert_ne|done|].
          by apply HQ. }
        apply wp_bind. case_decide as Hlt.
        -- (* the source is longer *)
           do 4 wp_step. unfold uninitialized_copy. wp_step.
           eapply wp_mono.
           { eapply (uninitialized_copy_n_spec _ (in_small other) (length xs)
                       (in_small this) SMALL_SIZE SMALL_SIZE ys xs
                       (length ys - length xs));
               [congruence
               | simpl; rewrite !lookup_insert_ne, Hvo by done; simpl;
                 by rewrite Hsto
               | simpl; rewrite lookup_insert_ne, Hv by done; simpl;
                 by rewrite Hst
               | lia | lia]. }
           ++ simpl. intros _ [vs4 hp4 c4] [(Hhp & v & st1 & Hv' & Hs1 & Hvs) _].
              simpl in *. subst vs4 hp4.
              rewrite lookup_insert_ne, Hv in Hv' by done. simplify_eq.
              unfold with_store. simpl.
              rewrite take_ge in Hs1 by (rewrite length_drop; lia).
              eapply Hcont; [exact Hs1| |].
              ** rewrite length_app, length_drop. lia.
              ** replace (length xs `min` length ys) with (length xs) by lia.
                 rewrite drop_app_length. apply take_drop.
           ++ simpl. intros [vs4 hp4 c4] [Hth (Hhp & v & st1 & Hv' & Hs1 & Hvs)].
              simpl in *. subst vs4 hp4.
              rewrite lookup_insert_ne, Hv in Hv' by done. simplify_eq.
              unfold with_store. simpl.
              rewrite (insert_insert_ne _ this t) by done.
              rewrite <-Hlm at 1.
              eapply dtor_spec.
              { eapply (rep_two_small _ _ c); try done.
                - by eapply small_or_none_small.
                - by eapply small_or_none_none.
                - lia. }
              { rewrite lookup_insert_eq. eauto. }
              intros hp' Hrep'.
              rewrite !delete_insert_eq, !delete_id in Hrep'
                by (by rewrite lookup_insert_ne).
              rewrite !delete_insert_eq, !delete_id
                by (by rewrite lookup_insert_ne).
              rewrite (insert_id av) in Hrep' by done.
              apply HE; eauto.
        -- (* the target is at least as long *)
           do 3 wp_step. unfold destroy. wp_step.
           destruct (destroy_tail_spec
                       (mk_world (<[t := mk_vec m true stt]> vs) hp
                          (c + m)) (in_small this) SMALL_SIZE xs (length ys))
             as ([vs4 hp4 c4] & Hrun & (Hhp & v & st1 & Hv' & Hs1 & Hvs) & _).
           { simpl. rewrite lookup_insert_ne, Hv by done. simpl.
             by rewrite Hst. }
           { done. }
           { lia. }
           simpl in *. subst vs4 hp4.
           rewrite lookup_insert_ne, Hv in Hv' by done. simplify_eq.
           eapply wp_eq; [exact Hrun|].
           unfold with_store. simpl.
           eapply Hcont; [exact Hs1| |].
           ** rewrite length_take. lia.
           ** replace (length xs `min` length ys) with (length ys) by lia.
              rewrite take_ge, drop_ge, app_nil_r;
                rewrite ?length_take; auto with lia.
      * (* a copy into the temporary threw *)
        simpl. intros [vs2 hp2 c2] [Hth (Hhp & v & stt & Hv' & Hstt & Hvs)].
        simpl in *. subst vs2 hp2.
        rewrite lookup_insert_eq in Hv'. simplify_eq.
        rewrite insert_insert_eq. unfold with_store. simpl.
        eapply dtor_spec.
        { eapply (rep_set_small _ _ c _ _ _ _ []); try done.
          by eapply small_or_none_none. simpl. lia. }
        { rewrite lookup_insert_eq. eauto. }
        intros hp' Hrep'.
        rewrite !delete_insert_eq, !delete_id in Hrep' by done.
        rewrite !delete_insert_eq, !delete_id by done.
        apply HE; eauto.
    + (* the target is big *)
      destruct (rep_big _ _ _ _ _ _ Hrep Ha)
        as (Hv & rc & Hb & Hn & _ & _ & Hrc).
      simpl in Hv, Hb.
      wp_step. apply wp_bind. do 4 wp_step.
      eapply copy_to_small_spec; try done.
      * congruence.
      * simpl. by rewrite Hvo, <-Hsto.
      * simpl. lia.
      * intros st' Hst'. wp_step. wp_step.
        rewrite take_ge, drop_0 in Hst' by (rewrite length_drop; lia).
        rewrite insert_insert_eq.
        apply HQ; [|done].
        eapply rep_change; [exact Hrep|done|by simpl|].
        intros r. simpl. rewrite Ha.
        eapply buf_lose_gain; [by eapply released_lose|apply buf_gain_small].
      * intros c' Hth. apply HE; [done|eauto|]. by eapply rep_copies.
  - (* the source is big *)
    destruct (rep_big _ _ _ _ _ _ Hrep Hao)
      as (Hvo & rco & Hbo & Hno & Hcp & _ & Hrco).
    pose proof (rep_fits _ _ _ _ _ _ Hrep Hao) as Hfo.
    simpl in Hvo, Hbo. wp_step. apply wp_bind.
    assert (∃ vs1 hp1 n1 sm1 st1,
      container_destroy this (mk_world vs hp c) = Ok tt (mk_world vs1 hp1 c) ∧
      vs1 = <[this := mk_vec n1 sm1 st1]> vs ∧
      (∀ r, buf_lose (Some a) r (hp !! r) (hp1 !! r)))
      as (vs1 & hp1 & n1 & sm1 & st1 & Hrun & -> & Hlose).
    { destruct a as [xs|q cq xs].
      - destruct (rep_small _ _ _ _ Hrep Ha) as (st & Hv & Hn & Hst).
        destruct (container_destroy_small data vs hp c this st xs good_data
                    Hv Hst Hn) as (st' & Hrun & _).
        eexists _, hp, _, _, _. split; [exact Hrun|]. split; [done|].
        intros r. by apply buf_lose_small.
      - destruct (rep_big _ _ _ _ _ _ Hrep Ha)
          as (Hv & rc & Hb & Hn & _ & _ & Hrc).
        simpl in Hv, Hb.
        eexists vs, (released hp q), _, _, _. split.
        { by eapply container_destroy_big. }
        split; [by rewrite insert_id|].
        intros r. by eapply released_lose. }
    destruct (rep_owner_alive _ _ _ _ _ _ _ _ _ _ Hrep Hao Ha
                (not_eq_sym Hne) hp1 Hlose) as (rc1 & Hb1 & Hrc1).
    eapply wp_bind_eq; [exact Hrun|].
    repeat wp_step. rewrite !insert_insert_eq.
    apply HQ; [|done].
    eapply rep_change; [exact Hrep|done| |].
    + simpl. repeat (split; [done|]). eexists. split; [apply lookup_insert_eq|].
      done.
    + intros r. simpl. rewrite Ha.
      eapply buf_lose_gain; [apply Hlose|].
      by apply (buf_gain_retain hp1 p (mk_buffer cp rc1 (pad cp ys))).
Qed.

(** ** Constructors *)

Lemma ctor_spec vs hp c av Q E :
  rep (mk_world vs hp c) av →
  (∀ t, vs !! t = None → av !! t = None →
        rep (mk_world (<[t := mk_vec 0 true (small_ (replicate SMALL_SIZE None))]> vs)
               hp c) (<[t := ASmall []]> av) →
        Q t (mk_world (<[t := mk_vec 0 true (small_ (replicate SMALL_SIZE None))]> vs)
               hp c)) →
  wp ctor (mk_world vs hp c) Q E.
Proof.
  intros Hrep HQ. eapply wp_eq; [reflexivity|]. simpl.
  pose proof (fresh_vecs vs) as Hfresh.
  assert (av !! fresh (dom vs) = None) as Hat by (by eapply rep_none).
  apply HQ; [done|done|].
  eapply (rep_set_small _ _ c c _ _ _ []); [done| |by rewrite pad_nil|simpl; lia].
  by apply small_or_none_none.
Qed.

Lemma ctor_capacity_spec vs hp c av cap Q E :
  rep (mk_world vs hp c) av → 0 < cap → fits cap →
  (∀ t p, vs !! t = None → av !! t = None → hp !! p = None →
          rep (mk_world (<[t := mk_vec 0 false (buf_ p)]> vs)
                 (<[p := mk_buffer cap 1 (pad cap [])]> hp) c)
              (<[t := ABig p cap []]> av) →
          Q t (mk_world (<[t := mk_vec 0 false (buf_ p)]> vs)
                 (<[p := mk_buffer cap 1 (pad cap [])]> hp) c)) →
  wp (ctor_capacity cap) (mk_world vs hp c) Q E.
Proof.
  intros Hrep Hcap Hal HQ. eapply wp_eq.
  { unfold ctor_capacity, bind. rewrite create_buf_fits by done. reflexivity. }
  simpl.
  pose proof (fresh_vecs vs) as Hfresh. pose proof (fresh_heap hp) as Hfp.
  assert (av !! fresh (dom vs) = None) as Hat by (by eapply rep_none).
  rewrite <-pad_nil.
  apply HQ; [done|done|done|].
  pose proof (rep_heap_pos _ _ Hrep) as Hpos. simpl in Hpos.
  eapply rep_change; [exact Hrep|done| |].
  - simpl. repeat (split; [done|]). eexists. split; [apply lookup_insert_eq|].
    simpl. repeat split; first [done | lia].
  - intros q. simpl. rewrite Hat.
    eapply buf_lose_gain; [by apply buf_lose_none|].
    by apply buf_gain_fresh.
Qed.

Lemma ctor_copy_spec vs hp c av other ao Q E :
  rep (mk_world vs hp c) av → av !! other = Some ao →
  (∀ t w', av !! t = None → rep w' (<[t := ao]> av) →
           (∀ p cp ys, ao = ABig p cp ys → copies w' = c) →
           Q t w') →
  (∀ w', may_throw → (∃ ys, ao = ASmall ys) → rep w' av → E w') →
  wp (ctor_copy other) (mk_world vs hp c) Q E.
Proof.
  intros Hrep Hao HQ HE. unfold ctor_copy.
  apply wp_bind. eapply ctor_spec; [exact Hrep|]. intros t Hfresh Hat Hrep1.
  assert (t ≠ other) as Hne by congruence.
  apply wp_bind, wp_try_catch.
  eapply operator_assign_spec; [exact Hrep1|apply lookup_insert_eq
                               |by rewrite lookup_insert_ne|done| |].
  - intros w' Hrep' Hc. rewrite insert_insert_eq in Hrep'.
    apply wp_ret. by apply HQ.
  - intros [vs' hp' c'] Hth Hsm Hrep'. apply wp_bind.
    eapply dtor_spec; [exact Hrep'|rewrite lookup_insert_eq; eauto|].
    intros hp'' Hrep''. apply wp_throw.
    rewrite delete_insert_eq, (delete_id av) in Hrep'' by done.
    by apply HE.
Qed.

(** ** The non-const [data()] on a shared block *)

Lemma data_body_shared_spec dr vs hp c av this p cp xs Q E :
  good dr → rep (mk_world vs hp c) av →
  av !! this = Some (ABig p cp xs) → 1 < owners av p →
  (∀ p' w', hp !! p' = None →
            rep w' (<[this := ABig p' cp xs]> av) →
            copies w' = c + length xs →
            Q (in_buf p', 0) w') →
  (∀ c', may_throw → E (mk_world vs hp c')) →
  wp (data_body dr this) (mk_world vs hp c) Q E.
Proof.
  intros Hdr Hrep Ha Hsh HQ HE. unfold data_body.
  destruct (rep_big _ _ _ _ _ _ Hrep Ha)
    as (Hv & rc & Hb & Hn & Hcp & Hrc & _).
  simpl in Hv, Hb. wp_step.
  rewrite bool_decide_eq_true_2 by lia. simpl.
  wp_step. apply wp_bind.
  eapply (unshare_spec dr vs hp c av this (ABig p cp xs) cp); try done.
  { by eapply rep_fits. }
  intros p' hp' Hfresh Hrep'. simpl in *.
  destruct (rep_big _ _ _ _ _ _ Hrep' (lookup_insert_eq _ _ _))
    as (_ & rc' & Hb' & _).
  simpl in Hb'. repeat wp_step. by apply HQ.
Qed.

Lemma data_shared_spec vs hp c av this p cp xs Q E :
  rep (mk_world vs hp c) av →
  av !! this = Some (ABig p cp xs) → 1 < owners av p →
  (∀ p' w', hp !! p' = None →
            rep w' (<[this := ABig p' cp xs]> av) →
            copies w' = c + length xs →
            Q (in_buf p', 0) w') →
  (∀ c', may_throw → E (mk_world vs hp c')) →
  wp (data this) (mk_world vs hp c) Q E.
Proof. apply data_body_shared_spec, (good_data_fuel 0). Qed.

(** ** Mutation in place

    While an instance mutates storage that nobody else refers to, the
    world differs from the one at entry by the slots of that storage
    and by the instance's [size_] only. *)

Definition region_of (this : nat) (a : avec) : region :=
  match a with ASmall _ => in_small this | ABig p _ _ => in_buf p end.

Definition with_elems (xs' : list T) (a : avec) : avec :=
  match a with ASmall _ => ASmall xs' | ABig p c _ => ABig p c xs' end.

Definition exclusive (av : gmap nat avec) (a : avec) : Prop :=
  match a with ASmall _ => True | ABig p _ _ => owners av p = 1 end.

Definition inplace (w w' : world) (this : nat) (r : region)
    (l' : list (option T)) (n' : nat) : Prop :=
  match r with
  | in_small id =>
      id = this ∧ heap w' = heap w ∧
      ∃ st', small_of st' = l' ∧
             vecs w' = <[this := mk_vec n' true st']> (vecs w)
  | in_buf p =>
      vecs w' = <[this := mk_vec n' false (buf_ p)]> (vecs w) ∧
      ∃ b, heap w !! p = Some b ∧ ref_count_ b ≤ 1 ∧
           heap w' = <[p := with_data l' b]> (heap w)
  end.

Lemma inplace_init w av this a :
  rep w av → av !! this = Some a → exclusive av a →
  inplace w w this (region_of this a) (pad (acap a) (aelems a))
    (length (aelems a)).
Proof.
  intros Hrep Ha Hex. destruct a as [xs|p cp xs]; simpl.
  - destruct (rep_small _ _ _ _ Hrep Ha) as (st & Hv & _ & Hst).
    split; [done|]. split; [done|]. exists st. split; [done|].
    by rewrite insert_id.
  - destruct (rep_big _ _ _ _ _ _ Hrep Ha) as (Hv & rc & Hb & _ & _ & Hrc & _).
    split; [by rewrite insert_id|]. eexists. split; [done|].
    simpl in *. split; [lia|]. by rewrite insert_id.
Qed.

Lemma inplace_slots w w' this r l n :
  inplace w w' this r l n → region_slots w' r = Some l.
Proof.
  destruct r as [id|p]; simpl.
  - intros (-> & _ & st' & <- & ->). by rewrite lookup_insert_eq.
  - intros (_ & b & _ & _ & ->). by rewrite lookup_insert_eq.
Qed.

Lemma inplace_data_eq w w' this r l n :
  inplace w w' this r l n → data this w' = Ok (r, 0) w'.
Proof.
  destruct w' as [vs' hp' c']. destruct r as [id|p]; simpl.
  - intros (-> & _ & st' & _ & ->). eapply data_small_eq, lookup_insert_eq.
  - intros (-> & b & _ & ? & ->).
    eapply data_private_eq;
      [apply lookup_insert_eq|apply lookup_insert_eq|done].
Qed.

Lemma inplace_size_eq w w' this r l n :
  inplace w w' this r l n → size this w' = Ok n w'.
Proof.
  destruct w' as [vs' hp' c']. destruct r as [id|p]; simpl.
  - intros (-> & _ & st' & _ & ->).
    by erewrite size_eq by apply lookup_insert_eq.
  - intros (-> & _). by erewrite size_eq by apply lookup_insert_eq.
Qed.

Lemma inplace_end_eq w w' this r l n :
  inplace w w' this r l n → end_ this w' = Ok (r, n) w'.
Proof.
  intros H. unfold end_. rewrite (bind_eq _ _ _ _ _ (inplace_data_eq _ _ _ _ _ _ H)).
  by rewrite (bind_eq _ _ _ _ _ (inplace_size_eq _ _ _ _ _ _ H)).
Qed.

Lemma inplace_index_eq w w' this r l n i :
  inplace w w' this r l n → operator_index this i w' = Ok (r, i) w'.
Proof.
  intros H. unfold operator_index.
  by rewrite (bind_eq _ _ _ _ _ (inplace_data_eq _ _ _ _ _ _ H)).
Qed.

Lemma inplace_updated w w1 w2 this r l n l2 :
  inplace w w1 this r l n → region_updated w1 w2 r l2 →
  inplace w w2 this r l2 n.
Proof.
  destruct r as [id|p]; simpl.
  - intros (-> & Hh & st' & Hst' & Hvs) (Hh2 & v & st2 & Hv & Hst2 & Hvs2).
    split; [done|]. split; [congruence|]. exists st2. split; [done|].
    rewrite Hvs, lookup_insert_eq in Hv. simplify_eq.
    by rewrite Hvs2, Hvs, insert_insert_eq.
  - intros (Hvs & b & Hb & Hrc & Hh) (Hvs2 & b2 & Hb2 & Hh2).
    split; [congruence|]. exists b. split; [done|]. split; [done|].
    rewrite Hh, lookup_insert_eq in Hb2. simplify_eq.
    by rewrite Hh2, Hh, insert_insert_eq.
Qed.

Lemma inplace_set_size w w1 this r l n n' :
  inplace w w1 this r l n →
  ∃ w2, set_size_ this n' w1 = Ok tt w2 ∧ inplace w w2 this r l n' ∧
        copies w2 = copies w1.
Proof.
  destruct w1 as [vs1 hp1 c1]. destruct r as [id|p]; simpl.
  - intros (-> & Hh & st' & Hst' & ->).
    eexists. split; [by eapply set_size_eq, lookup_insert_eq|]. simpl.
    rewrite insert_insert_eq. eauto 10.
  - intros (-> & b & Hb & Hrc & ->).
    eexists. split; [by eapply set_size_eq, lookup_insert_eq|]. simpl.
    rewrite insert_insert_eq. eauto 10.
Qed.

Lemma rep_inplace_big vs hp c c' av this p cp xs xs' :
  rep (mk_world vs hp c) av → av !! this = Some (ABig p cp xs) →
  owners av p = 1 → length xs' ≤ cp →
  rep (mk_world (<[this := mk_vec (length xs') false (buf_ p)]> vs)
         (<[p := mk_buffer cp 1 (pad cp xs')]> hp) c')
      (<[this := ABig p cp xs']> av).
Proof.
  intros Hrep Ha Hown Hn.
  destruct (rep_big _ _ _ _ _ _ Hrep Ha) as (Hv & rc & Hb & _ & Hcp & Hrc & _).
  pose proof (rep_fits _ _ _ _ _ _ Hrep Ha) as Hal.
  simpl in Hv, Hb. pose proof (rep_heap_pos _ _ Hrep) as Hpos. simpl in Hpos.
  eapply rep_change; [exact Hrep|done| |].
  - simpl. repeat (split; [done|]). eexists. split; [apply lookup_insert_eq|].
    done.
  - intros q. simpl. rewrite Ha. unfold buf_adjust.
    destruct (decide (q = p)) as [->|Hne].
    + rewrite Hb, lookup_insert_eq. simpl.
      rewrite bool_decide_eq_true_2 by done. split; [right; lia|]. lia.
    + rewrite lookup_insert_ne by done.
      destruct (hp !! q) as [b|] eqn:Hq; [|done].
      pose proof (Hpos q b Hq). simpl.
      rewrite bool_decide_eq_false_2 by done. split; [by left|]. lia.
Qed.

Lemma inplace_rep w w' av this a xs' :
  rep w av → av !! this = Some a → exclusive av a →
  inplace w w' this (region_of this a) (pad (acap a) xs') (length xs') →
  length xs' ≤ acap a →
  rep w' (<[this := with_elems xs' a]> av).
Proof.
  intros Hrep Ha Hex Hin Hn. destruct w as [vs hp c], w' as [vs' hp' c'].
  destruct a as [xs|p cp xs]; simpl in *.
  - destruct Hin as (_ & -> & st' & Hst' & ->).
    eapply rep_set_small; [done| |done|done].
    by eapply small_or_none_small.
  - destruct Hin as (-> & b & Hb & Hrc & ->).
    destruct (rep_big _ _ _ _ _ _ Hrep Ha) as (_ & rc & Hb' & _ & _ & Hrc' & _).
    simpl in Hb'. rewrite Hb in Hb'. simplify_eq. simpl.
    unfold with_data. simpl. rewrite Hex.
    by eapply rep_inplace_big.
Qed.

(** ** clear, reserve, shrink_to_fit *)

Definition is_shared (av : gmap nat avec) (a : avec) : bool :=
  match a with
  | ABig p _ _ => bool_decide (1 < owners av p)
  | ASmall _ => false
  end.

Lemma shared_buf_rep vs hp c av this a :
  rep (mk_world vs hp c) av → av !! this = Some a →
  shared_buf this (mk_world vs hp c) = Ok (is_shared av a) (mk_world vs hp c).
Proof.
  intros Hrep Ha. destruct a as [xs|p cp xs]; simpl.
  - destruct (rep_small _ _ _ _ Hrep Ha) as (st & Hv & _).
    by eapply shared_buf_small_eq.
  - destruct (rep_big _ _ _ _ _ _ Hrep Ha) as (Hv & rc & Hb & _ & _ & -> & _).
    simpl in Hv, Hb. by rewrite (shared_buf_big_eq vs hp c this _ p _ Hv Hb).
Qed.

Lemma not_shared_exclusive w av this a :
  rep w av → av !! this = Some a → is_shared av a = false → exclusive av a.
Proof.
  intros Hrep Ha Hsh. destruct a as [xs|p cp xs]; simpl in *; [done|].
  destruct (rep_big _ _ _ _ _ _ Hrep Ha) as (_ & rc & _ & _ & _ & -> & ?).
  apply bool_decide_eq_false in Hsh. lia.
Qed.

Lemma capacity_rep vs hp c av this a :
  rep (mk_world vs hp c) av → av !! this = Some a →
  capacity this (mk_world vs hp c) = Ok (acap a) (mk_world vs hp c).
Proof.
  intros Hrep Ha. destruct a as [xs|p cp xs]; simpl.
  - destruct (rep_small _ _ _ _ Hrep Ha) as (st & Hv & _).
    by eapply capacity_small_eq.
  - destruct (rep_big _ _ _ _ _ _ Hrep Ha) as (Hv & rc & Hb & _).
    simpl in Hv, Hb. by rewrite (capacity_big_eq vs hp c this _ p _ Hv Hb).
Qed.

Lemma size_rep vs hp c av this a :
  rep (mk_world vs hp c) av → av !! this = Some a →
  size this (mk_world vs hp c) = Ok (length (aelems a)) (mk_world vs hp c).
Proof.
  intros Hrep Ha. destruct (rep_size _ _ _ _ Hrep Ha) as (v & Hv & <-).
  by eapply size_eq.
Qed.

Lemma acap_bound w av this a :
  rep w av → av !! this = Some a → length (aelems a) ≤ acap a ∧ 0 < acap a ∨
  (SMALL_SIZE = 0 ∧ ∃ xs, a = ASmall xs ∧ xs = []).
Proof.
  intros Hrep Ha. destruct a as [xs|p cp xs]; simpl.
  - destruct (rep_small _ _ _ _ Hrep Ha) as (st & _ & Hn & _).
    destruct (decide (SMALL_SIZE = 0)) as [H0|]; [|left; lia].
    right. split; [done|]. exists xs. split; [done|].
    destruct xs; [done|simpl in *; lia].
  - destruct (rep_big _ _ _ _ _ _ Hrep Ha) as (_ & rc & _ & ? & ? & _). by left.
Qed.

Lemma size_le_acap w av this a :
  rep w av → av !! this = Some a → length (aelems a) ≤ acap a.
Proof.
  intros Hrep Ha. destruct a as [xs|p cp xs]; simpl.
  - by destruct (rep_small _ _ _ _ Hrep Ha) as (st & _ & Hn & _).
  - by destruct (rep_big _ _ _ _ _ _ Hrep Ha) as (_ & rc & _ & ? & _).
Qed.

(** What [clear] leaves. *)
Definition cleared (av : gmap nat avec) (a : avec) : avec :=
  if is_shared av a then ASmall [] else with_elems [] a.

Lemma clear_spec vs hp c av this a Q E :
  rep (mk_world vs hp c) av → av !! this = Some a →
  (∀ w', rep w' (<[this := cleared av a]> av) → copies w' = c → Q tt w') →
  wp (clear this) (mk_world vs hp c) Q E.
Proof.
  intros Hrep Ha HQ. unfold clear.
  eapply wp_bind_eq; [by eapply shared_buf_rep|].
  destruct (is_shared av a) eqn:Hsh.
  - (* shared: give the reference up *)
    destruct a as [xs|p cp xs]; [done|].
    destruct (rep_big _ _ _ _ _ _ Hrep Ha)
      as (Hv & rc & Hb & Hn & _ & Hrc & Hpos).
    simpl in Hv, Hb. apply wp_bind. wp_step.
    eapply wp_bind_eq; [by eapply release_ref_eq|].
    repeat wp_step. rewrite !insert_insert_eq.
    apply HQ; [|done]. unfold cleared. rewrite Hsh.
    eapply (rep_change _ _ _ _ _ (ASmall [])); [exact Hrep|done| |].
    + simpl. repeat (split; [done || lia|]). by rewrite pad_nil.
    + intros q. simpl. rewrite Ha.
      eapply buf_lose_gain; [|apply buf_gain_small].
      eapply released_lose; [|done]. by eapply (rep_heap_pos _ _ Hrep).
  - (* not shared: destroy the elements where they are *)
    pose proof (not_shared_exclusive _ _ _ _ Hrep Ha Hsh) as Hex.
    pose proof (inplace_init _ _ _ _ Hrep Ha Hex) as Hin.
    pose proof (size_le_acap _ _ _ _ Hrep Ha) as Hle.
    apply wp_bind.
    eapply wp_bind_eq; [by eapply inplace_data_eq|].
    eapply wp_bind_eq; [by eapply inplace_size_eq|].
    destruct (destroy_tail_spec (mk_world vs hp c) (region_of this a)
                (acap a) (aelems a) 0) as (w1 & Hrun & Hup & Hc);
      [by eapply inplace_slots|done|lia|].
    rewrite Nat.sub_0_r in Hrun. eapply wp_eq; [exact Hrun|].
    pose proof (inplace_updated _ _ _ _ _ _ _ _ Hin Hup) as Hin1.
    destruct (inplace_set_size _ _ _ _ _ _ 0 Hin1) as (w2 & Hrun2 & Hin2 & Hc2).
    eapply wp_eq; [exact Hrun2|].
    apply HQ; [|by rewrite Hc2, Hc]. unfold cleared. rewrite Hsh.
    eapply (inplace_rep _ _ _ _ _ []); [exact Hrep|done|done|done|simpl; lia].
Qed.

(** [reserve(nc)] allocates a block of capacity [nc]; [sh] tells whether
    the instance is shared. *)
Definition reserve_allocates (sh : bool) (a : avec) (nc : nat) : bool :=
  bool_decide (length (aelems a) < nc) &&
  negb (sh && bool_decide (nc ≤ SMALL_SIZE)) &&
  (sh || bool_decide (acap a < nc)).

(** What [reserve] leaves. *)
Definition reserved (hp : gmap nat buffer) (av : gmap nat avec) (a : avec)
    (nc : nat) (a' : avec) : Prop :=
  if decide (nc ≤ length (aelems a)) then a' = a
  else if is_shared av a && bool_decide (nc ≤ SMALL_SIZE)
       then a' = ASmall (aelems a)
  else if is_shared av a || bool_decide (acap a < nc)
       then ∃ p', hp !! p' = None ∧ a' = ABig p' nc (aelems a)
  else a' = a.

Lemma reserve_spec vs hp c av this a nc Q E :
  rep (mk_world vs hp c) av → av !! this = Some a →
  (reserve_allocates (is_shared av a) a nc = true → fits nc) →
  (∀ w' a', rep w' (<[this := a']> av) → reserved hp av a nc a' →
            (a' = a → w' = mk_world vs hp c) → Q tt w') →
  (∀ w', may_throw → rep w' av → E w') →
  wp (reserve this nc) (mk_world vs hp c) Q E.
Proof.
  intros Hrep Ha Hal HQ HE. unfold reserve.
  assert (rep (mk_world vs hp c) (<[this := a]> av)) as Hrep0
    by (by rewrite insert_id).
  eapply wp_bind_eq; [exact (size_rep _ _ _ _ _ _ Hrep Ha)|].
  case_decide as Hnc.
  2:{ apply wp_ret. eapply HQ; [exact Hrep0| |done].
      unfold reserved. by rewrite decide_True by lia. }
  eapply wp_bind_eq; [exact (shared_buf_rep _ _ _ _ _ _ Hrep Ha)|].
  destruct (is_shared av a && bool_decide (nc ≤ SMALL_SIZE)) eqn:Hdem.
  - (* shared and the request fits inline *)
    apply andb_true_iff in Hdem as [Hsh HN].
    apply bool_decide_eq_true in HN.
    destruct a as [xs|p cp xs]; [done|].
    destruct (rep_big _ _ _ _ _ _ Hrep Ha)
      as (Hv & rc & Hb & Hn & _ & Hrc & Hpos).
    simpl in Hv, Hb, Hnc. do 3 wp_step.
    eapply copy_to_small_spec; try done.
    + simpl. by rewrite Hb.
    + simpl. lia.
    + simpl. lia.
    + intros st' Hst'.
      rewrite take_ge, drop_0 in Hst' by (rewrite length_drop; lia).
      eapply (HQ _ (ASmall xs)).
      * eapply rep_change; [exact Hrep|done|simpl; split_and!; auto with lia|].
        intros q. simpl. rewrite Ha.
        eapply buf_lose_gain; [|apply buf_gain_small].
        eapply released_lose; [|done]. by eapply (rep_heap_pos _ _ Hrep).
      * unfold reserved. rewrite decide_False by (simpl; lia).
        by rewrite Hsh, bool_decide_eq_true_2.
      * done.
    + intros c' Hth. apply HE; [done|]. by eapply rep_copies.
  - eapply wp_bind_eq; [exact (shared_buf_rep _ _ _ _ _ _ Hrep Ha)|].
    apply wp_bind.
    assert (wp (if is_shared av a then ret true
                else c0 <- capacity this ;; ret (bool_decide (c0 < nc)))
              (mk_world vs hp c)
              (λ g w', g = is_shared av a || bool_decide (acap a < nc) ∧
                       w' = mk_world vs hp c) E) as Hgrow.
    { destruct (is_shared av a); [by apply wp_ret|].
      eapply wp_bind_eq; [exact (capacity_rep _ _ _ _ _ _ Hrep Ha)|]. by apply wp_ret. }
    eapply wp_mono; [exact Hgrow| |done]. simpl. intros g w' [-> ->].
    destruct (is_shared av a || bool_decide (acap a < nc)) eqn:Hgr.
    + eapply (unshare_spec data vs hp c av this a nc);
        [apply good_data|exact Hrep|exact Ha|lia|lia| | |].
      { apply Hal. unfold reserve_allocates.
        by rewrite Hdem, Hgr, bool_decide_eq_true_2. }
      * intros p' hp' Hfresh Hrep'. eapply HQ; [exact Hrep'| |].
        -- unfold reserved. rewrite decide_False by lia.
           rewrite Hdem, Hgr. eauto.
        -- intros Heq. exfalso.
           pose proof (rep_none _ _ p' Hrep) as Hnone.
           destruct a as [xs|p cp xs]; [done|]. simplify_eq.
           destruct (rep_big _ _ _ _ _ _ Hrep Ha) as (_ & rc & Hb & _).
           simpl in *. congruence.
      * intros c' Hth. apply HE; [done|]. by eapply rep_copies.
    + apply wp_ret. eapply HQ; [exact Hrep0| |done].
      unfold reserved. rewrite decide_False by lia. by rewrite Hdem, Hgr.
Qed.

(** What [shrink_to_fit] leaves. *)
Definition shrunk (hp : gmap nat buffer) (a : avec) (a' : avec) : Prop :=
  match a with
  | ASmall _ => a' = a
  | ABig p cp xs =>
      if decide (length xs < cp) then
        if decide (length xs ≤ SMALL_SIZE) then a' = ASmall xs
        else ∃ p', hp !! p' = None ∧ a' = ABig p' (length xs) xs
      else a' = a
  end.

Lemma shrink_to_fit_spec vs hp c av this a Q E :
  rep (mk_world vs hp c) av → av !! this = Some a →
  (∀ w' a', rep w' (<[this := a']> av) → shrunk hp a a' → Q tt w') →
  (∀ w', may_throw → rep w' av → E w') →
  wp (shrink_to_fit this) (mk_world vs hp c) Q E.
Proof.
  intros Hrep Ha HQ HE. unfold shrink_to_fit.
  assert (rep (mk_world vs hp c) (<[this := a]> av)) as Hrep0
    by (by rewrite insert_id).
  destruct a as [xs|p cp xs].
  - destruct (rep_small _ _ _ _ Hrep Ha) as (st & Hv & _).
    simpl in Hv. repeat wp_step. by eapply HQ.
  - destruct (rep_big _ _ _ _ _ _ Hrep Ha)
      as (Hv & rc & Hb & Hn & _ & Hrc & Hpos).
    simpl in Hv, Hb. wp_step. apply wp_bind. do 3 wp_step.
    case_bool_decide as Hslack; simpl.
    2:{ apply wp_ret. eapply HQ; [exact Hrep0|].
        simpl. by rewrite decide_False. }
    wp_step. case_decide as HN.
    + do 3 wp_step.
      eapply copy_to_small_spec; try done.
      * simpl. by rewrite Hb.
      * simpl. lia.
      * intros st' Hst'.
        rewrite take_ge, drop_0 in Hst' by (rewrite length_drop; lia).
        eapply (HQ _ (ASmall xs)).
        -- eapply rep_change; [exact Hrep|done|simpl; split_and!; auto with lia|].
           intros q. simpl. rewrite Ha.
           eapply buf_lose_gain; [|apply buf_gain_small].
           eapply released_lose; [|done]. by eapply (rep_heap_pos _ _ Hrep).
        -- simpl. by rewrite !decide_True.
      * intros c' Hth. apply HE; [done|]. by eapply rep_copies.
    + wp_step.
      eapply (unshare_spec data vs hp c av this (ABig p cp xs));
        [apply good_data|exact Hrep|exact Ha|done|simpl; lia| | |].
      { apply (fits_le cp); [simpl in *; lia|].
        exact (rep_fits _ _ _ _ _ _ Hrep Ha). }
      * intros p' hp' Hfresh Hrep'. eapply HQ; [exact Hrep'|].
        simpl. rewrite decide_True, decide_False by done. eauto.
      * intros c' Hth. apply HE; [done|]. by eapply rep_copies.
Qed.

(** ** swap *)

Definition a_small (a : avec) : bool :=
  match a with ASmall _ => true | ABig _ _ _ => false end.

Lemma get_is_small_rep vs hp c av this a :
  rep (mk_world vs hp c) av → av !! this = Some a →
  get_is_small_ this (mk_world vs hp c) = Ok (a_small a) (mk_world vs hp c).
Proof.
  intros Hrep Ha. destruct a as [xs|p cp xs]; simpl.
  - destruct (rep_small _ _ _ _ Hrep Ha) as (st & Hv & _).
    simpl in Hv. by rewrite (get_is_small_eq _ _ _ _ _ Hv).
  - destruct (rep_big _ _ _ _ _ _ Hrep Ha) as (Hv & _).
    simpl in Hv. by rewrite (get_is_small_eq _ _ _ _ _ Hv).
Qed.

Lemma swap_small_small vs hp c av this other xs ys Q E :
  rep (mk_world vs hp c) av →
  av !! this = Some (ASmall xs) → av !! other = Some (ASmall ys) →
  this ≠ other → length xs ≤ length ys →
  (∀ w', rep w' (<[this := ASmall ys]> (<[other := ASmall xs]> av)) →
         Q tt w') →
  (∀ w', may_throw → rep w' av → E w') →
  wp (ob <- begin other ;;
      n <- size this ;;
      oe <- end_ other ;;
      e <- end_ this ;;
      uninitialized_copy (ptr_add ob n) oe e ;;
      ob <- begin other ;;
      n <- size this ;;
      oe <- end_ other ;;
      destroy (ptr_add ob n) oe ;;
      n <- size this ;;
      on <- size other ;;
      set_size_ this on ;;
      set_size_ other n ;;
      b <- begin this ;;
      b' <- begin this ;;
      on <- size other ;;
      ob <- begin other ;;
      swap_ranges b (ptr_add b' on) ob)
     (mk_world vs hp c) Q E.
Proof.
  intros Hrep Ha Hao Hne Hle HQ HE.
  destruct (rep_small _ _ _ _ Hrep Ha) as (st & Hv & Hn & Hst).
  destruct (rep_small _ _ _ _ Hrep Hao) as (sto & Hvo & Hno & Hsto).
  simpl in Hv, Hvo.
  do 4 wp_step. apply wp_bind. unfold uninitialized_copy. wp_step.
  eapply wp_mono.
  { eapply (uninitialized_copy_n_spec _ (in_small other) (length xs)
              (in_small this) SMALL_SIZE SMALL_SIZE ys xs
              (length ys - length xs));
      [congruence | simpl; rewrite Hvo; simpl; by rewrite Hsto
      | simpl; rewrite Hv; simpl; by rewrite Hst | lia | lia]. }
  - simpl. intros _ [vs1 hp1 c1] [(Hhp & v & st1 & Hv' & Hs1 & Hvs) _].
    simpl in *. subst vs1 hp1. rewrite Hv in Hv'. simplify_eq.
    unfold with_store. simpl.
    rewrite take_ge in Hs1 by (rewrite length_drop; lia).
    do 3 wp_step. apply wp_bind. unfold destroy. wp_step.
    destruct (destroy_tail_spec
                (mk_world (<[this := mk_vec (length xs) true st1]> vs) hp c1)
                (in_small other) SMALL_SIZE ys (length xs))
      as ([vs2 hp2 c2] & Hrun & (Hhp & v & sto1 & Hv' & Hso1 & Hvs) & _).
    { simpl. rewrite lookup_insert_ne, Hvo by done. simpl. by rewrite Hsto. }
    { done. }
    { done. }
    simpl in *. subst vs2 hp2.
    rewrite lookup_insert_ne, Hvo in Hv' by done. simplify_eq.
    eapply wp_eq; [exact Hrun|].
    unfold with_store. simpl.
    do 4 wp_step. rewrite insert_swap_top, insert_insert_eq by done.
    unfold with_size. simpl.
    do 4 wp_step. unfold swap_ranges. wp_step. rewrite Nat.sub_0_r.
    edestruct (swap_ranges_small hp c2 this other (length ys) (length xs)
      true true (length xs) 0
      (<[other := mk_vec (length xs) true sto1]>
         (<[this := mk_vec (length ys) true st1]> vs))
      st1 sto1 (xs ++ drop (length xs) ys) (take (length xs) ys))
      as (st1' & st2' & Hrun2 & Hs1' & Hs2').
    { done. }
    { rewrite lookup_insert_ne by done. apply lookup_insert_eq. }
    { apply lookup_insert_eq. }
    { done. }
    { done. }
    { rewrite length_app. lia. }
    { rewrite length_take. lia. }
    eapply wp_eq; [exact Hrun2|].
    rewrite !drop_0, take_take, Nat.min_id in Hs1'.
    rewrite inserts_0_take_drop in Hs1'
      by (rewrite ?length_app, ?length_take; lia).
    rewrite drop_app_length, take_drop in Hs1'.
    rewrite drop_0, inserts_0_take_drop in Hs2'
      by (rewrite ?length_app, ?length_take; lia).
    rewrite take_app_length, (drop_ge (take _ _)), app_nil_r in Hs2'
      by (rewrite length_take; lia).
    rewrite insert_swap_top, insert_insert_eq by done.
    apply HQ. rewrite (insert_insert_ne av this other) by done.
    eapply (rep_two_small _ _ c); try done.
    + by eapply small_or_none_small.
    + by eapply small_or_none_small.
  - simpl. intros [vs1 hp1 c1] [Hth (Hhp & v & st1 & Hv' & Hs1 & Hvs)].
    simpl in *. subst vs1 hp1. rewrite Hv in Hv'. simplify_eq.
    unfold with_store. simpl. apply HE; [done|].
    rewrite <-(insert_id av this (ASmall xs)) by done.
    eapply (rep_set_small _ _ c); try done.
    by eapply small_or_none_small.
Qed.

Ltac map_solver :=
  apply map_eq; intros ?;
  rewrite ?lookup_delete, ?lookup_insert;
  repeat (case_decide; rewrite ?lookup_delete, ?lookup_insert);
  simplify_eq; done.

Lemma delete_insert_3 {A} (m : gmap nat A) t i j x y z :
  t ≠ i → t ≠ j → m !! t = None →
  delete t (<[i := x]> (<[j := y]> (<[t := z]> m))) = <[i := x]> (<[j := y]> m).
Proof.
  intros ?? Hm. apply map_eq. intros k.
  destruct (decide (k = t)) as [->|].
  - rewrite lookup_delete_eq, !lookup_insert_ne by done. done.
  - rewrite lookup_delete_ne by done.
    destruct (decide (k = i)) as [->|]; [by rewrite !lookup_insert_eq|].
    rewrite !(lookup_insert_ne _ i) by done.
    destruct (decide (k = j)) as [->|]; [by rewrite !lookup_insert_eq|].
    by rewrite !lookup_insert_ne by done.
Qed.

Lemma delete_insert_2 {A} (m : gmap nat A) t j y z :
  t ≠ j → m !! t = None →
  delete t (<[j := y]> (<[t := z]> m)) = <[j := y]> m.
Proof.
  intros ? Hm. apply map_eq. intros k.
  destruct (decide (k = t)) as [->|].
  - rewrite lookup_delete_eq, !lookup_insert_ne by done. done.
  - rewrite lookup_delete_ne by done.
    destruct (decide (k = j)) as [->|]; [by rewrite !lookup_insert_eq|].
    by rewrite !lookup_insert_ne by done.
Qed.

Lemma swap_fuel_S fuel this other :
  swap_fuel (S fuel) this other =
  if decide (this = other) then ret tt
  else
    n <- size this ;;
    on <- size other ;;
    if decide (on < n) then swap_fuel fuel other this
    else
      sm <- get_is_small_ this ;;
      osm <- get_is_small_ other ;;
      if sm && osm then
        ob <- begin other ;;
        n <- size this ;;
        oe <- end_ other ;;
        e <- end_ this ;;
        uninitialized_copy (ptr_add ob n) oe e ;;
        ob <- begin other ;;
        n <- size this ;;
        oe <- end_ other ;;
        destroy (ptr_add ob n) oe ;;
        n <- size this ;;
        on <- size other ;;
        set_size_ this on ;;
        set_size_ other n ;;
        b <- begin this ;;
        b' <- begin this ;;
        on <- size other ;;
        ob <- begin other ;;
        swap_ranges b (ptr_add b' on) ob
      else
        with_local (ctor_copy other) (λ tmp,
          operator_assign other this ;;
          operator_assign this tmp).
Proof. done. Qed.

Arguments swap_fuel : simpl never.

Lemma swap_ordered_spec f vs hp c av this other a ao Q E :
  rep (mk_world vs hp c) av →
  av !! this = Some a → av !! other = Some ao → this ≠ other →
  length (aelems a) ≤ length (aelems ao) →
  (∀ w', rep w' (<[this := ao]> (<[other := a]> av)) → Q tt w') →
  (∀ w' av', may_throw → a_small a || a_small ao = true →
             av' = av ∨ av' = <[other := a]> av → rep w' av' → E w') →
  wp (swap_fuel (S f) this other) (mk_world vs hp c) Q E.
Proof.
  intros Hrep Ha Hao Hne Hle HQ HE. rewrite swap_fuel_S.
  rewrite decide_False by done.
  eapply wp_bind_eq; [exact (size_rep _ _ _ _ _ _ Hrep Ha)|].
  eapply wp_bind_eq; [exact (size_rep _ _ _ _ _ _ Hrep Hao)|].
  rewrite decide_False by lia.
  eapply wp_bind_eq; [exact (get_is_small_rep _ _ _ _ _ _ Hrep Ha)|].
  eapply wp_bind_eq; [exact (get_is_small_rep _ _ _ _ _ _ Hrep Hao)|].
  destruct (a_small a && a_small ao) eqn:Hsm.
  - destruct a as [xs|]; [|done]. destruct ao as [ys|]; [|done].
    eapply swap_small_small; try done.
    intros w' Hth Hrep'. eapply HE; [done|done|by left|done].
  - apply wp_with_local.
    eapply ctor_copy_spec; [exact Hrep|exact Hao| |].
    + intros t [vs1 hp1 c1] Hat Hrep1 _.
      assert (t ≠ this) as Htt by congruence.
      assert (t ≠ other) as Hto by congruence.
      apply wp_bind.
      eapply (operator_assign_spec _ _ _ _ other this ao a);
        [exact Hrep1|by rewrite lookup_insert_ne|by rewrite lookup_insert_ne
        |done| |].
      * intros [vs2 hp2 c2] Hrep2 _.
        eapply (operator_assign_spec _ _ _ _ this t a ao);
          [exact Hrep2|by rewrite !lookup_insert_ne
          |rewrite lookup_insert_ne by done; apply lookup_insert_eq|done| |].
        -- intros [vs3 hp3 c3] Hrep3 _.
           eapply dtor_spec; [exact Hrep3| |].
           { rewrite !lookup_insert_ne by done. rewrite lookup_insert_eq. eauto. }
           intros hp' Hrep'. rewrite delete_insert_3 in Hrep' by done.
           by apply HQ.
        -- intros [vs3 hp3 c3] Hth [ys ->] Hrep3.
           eapply dtor_spec; [exact Hrep3| |].
           { rewrite !lookup_insert_ne by done. rewrite lookup_insert_eq. eauto. }
           intros hp' Hrep'. rewrite delete_insert_2 in Hrep' by done.
           eapply HE; [done| |by right|exact Hrep'].
           by rewrite orb_true_r.
      * intros [vs2 hp2 c2] Hth [xs ->] Hrep2.
        eapply dtor_spec; [exact Hrep2|rewrite lookup_insert_eq; eauto|].
        intros hp' Hrep'.
        rewrite delete_insert_eq, (delete_id av) in Hrep' by done.
        eapply HE; [done|done|by left|exact Hrep'].
    + intros w' Hth [ys ->] Hrep'.
      eapply HE; [done| |by left|exact Hrep']. by rewrite orb_true_r.
Qed.

Lemma swap_spec vs hp c av this other a ao Q E :
  rep (mk_world vs hp c) av →
  av !! this = Some a → av !! other = Some ao → this ≠ other →
  (∀ w', rep w' (<[this := ao]> (<[other := a]> av)) → Q tt w') →
  (∀ w' av', may_throw → a_small a || a_small ao = true →
             av' = av ∨ av' = <[other := a]> av ∨ av' = <[this := ao]> av →
             rep w' av' → E w') →
  wp (swap this other) (mk_world vs hp c) Q E.
Proof.
  intros Hrep Ha Hao Hne HQ HE. unfold swap.
  destruct (decide (length (aelems a) ≤ length (aelems ao))) as [Hle|Hgt].
  - eapply swap_ordered_spec; try done.
    intros w' av' Hth Hsm Hav' Hrep'. eapply HE; try done. tauto.
  - rewrite swap_fuel_S. rewrite decide_False by done.
    eapply wp_bind_eq; [exact (size_rep _ _ _ _ _ _ Hrep Ha)|].
    eapply wp_bind_eq; [exact (size_rep _ _ _ _ _ _ Hrep Hao)|].
    rewrite decide_True by lia.
    eapply swap_ordered_spec; try done.
    + lia.
    + intros w' Hrep'. apply HQ.
      by rewrite insert_insert_ne.
    + intros w' av' Hth Hsm Hav' Hrep'. eapply HE; try done.
      * by rewrite orb_comm.
      * tauto.
Qed.

(** ** insert *)

Lemma data_const_rep vs hp c av this a :
  rep (mk_world vs hp c) av → av !! this = Some a →
  data_const this (mk_world vs hp c)
  = Ok (region_of this a, 0) (mk_world vs hp c).
Proof.
  intros Hrep Ha. destruct a as [xs|p cp xs]; simpl.
  - destruct (rep_small _ _ _ _ Hrep Ha) as (st & Hv & _).
    by eapply data_const_small_eq.
  - destruct (rep_big _ _ _ _ _ _ Hrep Ha) as (Hv & rc & Hb & _).
    by eapply data_const_big_eq.
Qed.

Lemma end_const_rep vs hp c av this a :
  rep (mk_world vs hp c) av → av !! this = Some a →
  end_const this (mk_world vs hp c)
  = Ok (region_of this a, length (aelems a)) (mk_world vs hp c).
Proof.
  intros Hrep Ha. unfold end_const.
  rewrite (bind_eq _ _ _ _ _ (data_const_rep _ _ _ _ _ _ Hrep Ha)).
  by rewrite (bind_eq _ _ _ _ _ (size_rep _ _ _ _ _ _ Hrep Ha)).
Qed.

Lemma region_slots_rep w av this a :
  rep w av → av !! this = Some a →
  region_slots w (region_of this a) = Some (pad (acap a) (aelems a)).
Proof.
  intros Hrep Ha. destruct a as [xs|p cp xs]; simpl.
  - destruct (rep_small _ _ _ _ Hrep Ha) as (st & -> & _ & Hst).
    simpl. by rewrite Hst.
  - by destruct (rep_big _ _ _ _ _ _ Hrep Ha) as (_ & rc & -> & _).
Qed.

Lemma data_exclusive_rep w av this a :
  rep w av → av !! this = Some a → exclusive av a →
  data this w = Ok (region_of this a, 0) w.
Proof.
  intros Hrep Ha Hex. eapply inplace_data_eq. by eapply inplace_init.
Qed.

Lemma inplace_tick w w' this r l n :
  inplace w w' this r l n → inplace w (tick w') this r l n.
Proof. by destruct r. Qed.

Lemma inplace_other_vec w w' this r l n id :
  inplace w w' this r l n → id ≠ this → vecs w' !! id = vecs w !! id.
Proof.
  destruct r as [id'|p]; simpl.
  - intros (_ & _ & st' & _ & ->) ?. by rewrite lookup_insert_ne.
  - intros (-> & _) ?. by rewrite lookup_insert_ne.
Qed.

Lemma bubble_step (xs : list T) x idx y :
  xs !! idx = Some y →
  <[idx := x]> (<[S idx := y]> (take (S idx) xs ++ x :: drop (S idx) xs))
  = take idx xs ++ x :: drop idx xs.
Proof.
  intros Hy. pose proof (lookup_lt_Some _ _ _ Hy) as Hlt.
  rewrite (take_S_r _ _ _ Hy), (drop_S _ _ _ Hy), <-app_assoc. simpl.
  assert (length (take idx xs) = idx) as Hl by (rewrite length_take; lia).
  rewrite (insert_app_r_alt _ _ (S idx)) by lia.
  rewrite Hl. replace (S idx - idx) with 1 by lia. simpl.
  rewrite (insert_app_r_alt _ _ idx) by lia.
  rewrite Hl, Nat.sub_diag. done.
Qed.

Lemma insert_loop_spec w0 this r cap n x xs i : ∀ idx w,
  inplace w0 w this r (pad cap (take idx xs ++ x :: drop idx xs)) n →
  i ≤ idx → idx ≤ length xs →
  ∃ w', insert_loop this idx i w = Ok tt w' ∧
        inplace w0 w' this r (pad cap (take i xs ++ x :: drop i xs)) n ∧
        copies w' = copies w.
Proof.
  induction idx as [|idx IH]; intros w Hin Hi Hidx; simpl.
  { assert (i = 0) as -> by lia. eauto. }
  case_decide as Hlt.
  2:{ assert (i = S idx) as -> by lia. eauto. }
  destruct (lookup_lt_is_Some_2 xs idx) as [y Hy]; [lia|].
  rewrite (bind_eq _ _ _ _ _ (inplace_index_eq _ _ _ _ _ _ (S idx) Hin)).
  rewrite (bind_eq _ _ _ _ _ (inplace_index_eq _ _ _ _ _ _ idx Hin)).
  destruct (swap_elems_same w r cap
              (take (S idx) xs ++ x :: drop (S idx) xs) (S idx) idx x y)
    as (w1 & Hrun & Hup & Hc).
  { by eapply inplace_slots. }
  { rewrite lookup_app_r by (rewrite length_take; lia).
    rewrite length_take. by replace (S idx - S idx `min` length xs) with 0 by lia. }
  { rewrite lookup_app_l by (rewrite length_take; lia).
    by rewrite lookup_take_lt by lia. }
  rewrite (bind_eq _ _ _ _ _ Hrun).
  rewrite bubble_step in Hup by done.
  destruct (IH w1) as (w' & Hrun' & Hin' & Hc'); [|lia|lia|].
  { by eapply inplace_updated. }
  exists w'. split; [done|]. split; [done|]. by rewrite Hc'.
Qed.

(** [insert] builds a new block when the storage is full or shared. *)
Definition grows (av : gmap nat avec) (a : avec) : bool :=
  bool_decide (length (aelems a) = acap a) || is_shared av a.

Definition new_cap (a : avec) : nat :=
  if decide (length (aelems a) = acap a) then acap a * 2 else acap a.

(** The doubled capacity of a full instance is one that can be
    allocated. *)
Definition growth_fits (a : avec) : Prop :=
  length (aelems a) = acap a → fits (acap a * 2).

Lemma new_cap_fits w av this a :
  rep w av → av !! this = Some a → grows av a = true → growth_fits a →
  fits (new_cap a).
Proof.
  intros Hrep Ha Hg Hgf. unfold new_cap. case_decide as Hfull; [by apply Hgf|].
  unfold grows in Hg. rewrite bool_decide_eq_false_2 in Hg by done.
  destruct a as [xs|p cp xs]; [done|]. by eapply rep_fits.
Qed.

Definition inserted (hp : gmap nat buffer) (av : gmap nat avec) (a : avec)
    (i : nat) (x : T) (a' : avec) : Prop :=
  let xs' := take i (aelems a) ++ x :: drop i (aelems a) in
  if grows av a
  then ∃ p', hp !! p' = None ∧ a' = ABig p' (new_cap a) xs'
  else a' = with_elems xs' a.

Lemma region_of_with_elems this xs' a :
  region_of this (with_elems xs' a) = region_of this a.
Proof. by destruct a. Qed.

Lemma acap_with_elems xs' a : acap (with_elems xs' a) = acap a.
Proof. by destruct a. Qed.

Lemma aelems_with_elems xs' a : aelems (with_elems xs' a) = xs'.
Proof. by destruct a. Qed.

Lemma owners_fresh_one w av this p cp xs :
  rep w av → heap w !! p = None →
  owners (<[this := ABig p cp xs]> av) p = 1.
Proof.
  intros Hrep Hp. pose proof (owners_insert av this (ABig p cp xs) p) as Hins.
  pose proof (rep_no_owner _ _ _ Hrep Hp) as H0.
  pose proof (owners_ge av this p). simpl in Hins.
  rewrite bool_decide_eq_true_2 in Hins by done. lia.
Qed.

Lemma insert_in_place vs hp c av this a i x Q E :
  rep (mk_world vs hp c) av → av !! this = Some a →
  i ≤ length (aelems a) → exclusive av a → length (aelems a) < acap a →
  (∀ w', rep w' (<[this := with_elems
                    (take i (aelems a) ++ x :: drop i (aelems a)) a]> av) →
         data this w' = Ok (region_of this a, 0) w' → Q tt w') →
  (∀ w', may_throw → rep w' av → E w') →
  wp (e <- end_ this ;;
      placement_new e x ;;
      n <- size this ;;
      set_size_ this (n + 1) ;;
      n <- size this ;;
      idx <- size_sub n 1 ;;
      insert_loop this idx i)
     (mk_world vs hp c) Q E.
Proof.
  intros Hrep Ha Hi Hex Hroom HQ HE.
  pose proof (inplace_init _ _ _ _ Hrep Ha Hex) as Hin.
  set (xs := aelems a) in *. set (r := region_of this a) in *.
  eapply wp_bind_eq; [by eapply inplace_end_eq|].
  apply wp_bind. eapply placement_new_end_spec;
    [by eapply inplace_slots|done| |].
  - intros w1 Hup Hc1.
    pose proof (inplace_updated _ _ _ _ _ _ _ _ Hin Hup) as Hin1.
    eapply wp_bind_eq; [by eapply inplace_size_eq|].
    destruct (inplace_set_size _ _ _ _ _ _ (length xs + 1) Hin1)
      as (w2 & Hrun2 & Hin2 & Hc2).
    eapply wp_bind_eq; [exact Hrun2|].
    eapply wp_bind_eq; [by eapply inplace_size_eq|].
    eapply wp_bind_eq.
    { destruct w2. apply size_sub_eq. lia. }
    replace (length xs + 1 - 1) with (length xs) by lia.
    destruct (insert_loop_spec (mk_world vs hp c) this r (acap a)
                (length xs + 1) x xs i (length xs) w2)
      as (w3 & Hrun3 & Hin3 & Hc3); [|done|done|].
    { by rewrite take_ge, drop_ge by lia. }
    eapply wp_eq; [exact Hrun3|].
    apply HQ.
    + eapply inplace_rep; [exact Hrep|done|done| |].
      * rewrite length_app, length_take. simpl. rewrite length_drop.
        by replace (i `min` length xs + S (length xs - i))
          with (length xs + 1) by lia.
      * rewrite length_app, length_take. simpl. rewrite length_drop. lia.
    + by eapply inplace_data_eq.
  - intros Hth. apply HE; [done|]. by eapply rep_copies.
Qed.

Lemma placement_new_at_spec w r cap ys k x Q E :
  region_slots w r = Some (pad cap ys) → k = length ys → length ys < cap →
  (∀ w', region_updated w w' r (pad cap (ys ++ [x])) →
         copies w' = S (copies w) → Q tt w') →
  (may_throw → E (tick w)) →
  wp (placement_new (r, k) x) w Q E.
Proof. intros ? Hk. subst k. by apply placement_new_end_spec. Qed.

Lemma uninitialized_copy_n_at_spec w rs so rd cs cd ys yd n k Q E :
  rs ≠ rd →
  region_slots w rs = Some (pad cs ys) →
  region_slots w rd = Some (pad cd yd) →
  k = length yd → so + n ≤ length ys → length yd + n ≤ cd →
  (∀ w', region_updated w w' rd (pad cd (yd ++ take n (drop so ys))) →
         Q tt w') →
  (∀ w', may_throw → region_updated w w' rd (pad cd yd) → E w') →
  wp (uninitialized_copy_n (rs, so) n (rd, k)) w Q E.
Proof.
  intros Hne Hs Hd Hk Hso Hfit HQ HE. subst k.
  eapply wp_mono; [by eapply uninitialized_copy_n_spec| |].
  - simpl. intros [] w' [Hup _]. by apply HQ.
  - simpl. intros w' [Hth Hup]. by apply HE.
Qed.

(** Unwinding through the destructor of a local instance. *)
Lemma local_unwind w av t a0 (P : world → Prop) E :
  rep w (<[t := a0]> av) → av !! t = None →
  (∀ w', rep w' av → P w') →
  wp (dtor t) w (λ _ w3, P w3) E.
Proof.
  intros Hrep Hat HP. destruct w as [vs hp c].
  eapply dtor_spec; [exact Hrep|rewrite lookup_insert_eq; eauto|].
  intros hp' Hrep'. rewrite delete_insert_eq, (delete_id av) in Hrep' by done.
  by apply HP.
Qed.

Lemma insert_grow vs hp c av this a i x nc Q E :
  rep (mk_world vs hp c) av → av !! this = Some a →
  i ≤ length (aelems a) → length (aelems a) < nc → fits nc →
  (∀ w' p', hp !! p' = None →
            rep w' (<[this := ABig p' nc
                        (take i (aelems a) ++ x :: drop i (aelems a))]> av) →
            Q tt w') →
  (∀ w', may_throw → rep w' av → E w') →
  wp (with_local (ctor_capacity nc) (λ tmp,
        cb <- begin_const this ;;
        tb <- begin tmp ;;
        uninitialized_copy_n cb i tb ;;
        set_size_ tmp i ;;
        te <- end_ tmp ;;
        placement_new te x ;;
        tn <- size tmp ;;
        set_size_ tmp (tn + 1) ;;
        cb <- begin_const this ;;
        ce <- end_const this ;;
        te <- end_ tmp ;;
        uninitialized_copy (ptr_add cb i) ce te ;;
        n <- size this ;;
        set_size_ tmp (n + 1) ;;
        operator_assign this tmp))
     (mk_world vs hp c) Q E.
Proof.
  intros Hrep Ha Hi Hnc Hal HQ HE.
  set (xs := aelems a) in *.
  apply wp_with_local. eapply ctor_capacity_spec; [exact Hrep|lia|done|].
  intros t pt Hfresh Hat Hpt Hrep1.
  set (w1 := mk_world (<[t := mk_vec 0 false (buf_ pt)]> vs)
               (<[pt := mk_buffer nc 1 (pad nc [])]> hp) c) in *.
  set (av1 := <[t := ABig pt nc []]> av) in *.
  assert (t ≠ this) as Htt by congruence.
  assert (av1 !! this = Some a) as Ha1 by (by unfold av1; rewrite lookup_insert_ne).
  assert (av1 !! t = Some (ABig pt nc [])) as Hat1 by apply lookup_insert_eq.
  assert (exclusive av1 (ABig pt nc [])) as Hex1.
  { simpl. unfold av1. by eapply (owners_fresh_one _ _ _ _ _ _ Hrep). }
  assert (inplace w1 w1 t (in_buf pt) (pad nc []) 0) as Hin
    by exact (inplace_init _ _ _ _ Hrep1 Hat1 Hex1).
  assert (region_of this a ≠ in_buf pt) as Hner.
  { destruct a as [ys|p cp ys]; simpl; [done|].
    destruct (rep_big _ _ _ _ _ _ Hrep Ha) as (_ & rc & Hb & _).
    simpl in Hb. congruence. }
  destruct (rep_size _ _ _ _ Hrep1 Ha1) as (v & Hv & Hsz).
  assert (∀ w' zs, inplace w1 w' t (in_buf pt) (pad nc zs) (length zs) →
                   length zs ≤ nc →
                   rep w' (<[t := ABig pt nc zs]> av)) as Hreps.
  { intros w' zs Hin' Hlen.
    pose proof (inplace_rep _ _ _ _ _ zs Hrep1 Hat1 Hex1 Hin' Hlen) as Hr.
    simpl in Hr. unfold av1 in Hr. by rewrite insert_insert_eq in Hr. }
  assert (∀ w' zs, inplace w1 w' t (in_buf pt) (pad nc zs) (length zs) →
                   length zs ≤ nc → may_throw →
                   wp (dtor t) w' (λ _ w3, E w3) E) as Hunwind.
  { intros w' zs Hin' Hlen Hth. eapply local_unwind; [by eapply Hreps|done|].
    intros w3 Hrep3. by apply HE. }
  eapply wp_bind_eq; [exact (data_const_rep _ _ _ _ _ _ Hrep1 Ha1)|].
  eapply wp_bind_eq; [exact (inplace_data_eq _ _ _ _ _ _ Hin)|].
  apply wp_bind.
  eapply (uninitialized_copy_n_at_spec w1 (region_of this a) 0 (in_buf pt)
            (acap a) nc xs [] i);
    [done|by eapply region_slots_rep|by eapply inplace_slots|done|lia
    |simpl; lia| |].
  2:{ intros w2 Hth Hup. eapply (Hunwind w2 []); [|simpl; lia|done].
      by eapply inplace_updated. }
  intros w2 Hup. simpl in Hup. rewrite drop_0 in Hup.
  pose proof (inplace_updated _ _ _ _ _ _ _ _ Hin Hup) as Hin2.
  assert (length (take i xs) = i) as Hli by (rewrite length_take; lia).
  destruct (inplace_set_size _ _ _ _ _ _ i Hin2) as (w3 & Hrun3 & Hin3 & _).
  eapply wp_bind_eq; [exact Hrun3|].
  eapply wp_bind_eq; [by eapply inplace_end_eq|].
  apply wp_bind.
  eapply (placement_new_at_spec w3 (in_buf pt) nc (take i xs));
    [by eapply inplace_slots|done|lia| |].
  2:{ intros Hth. eapply (Hunwind _ (take i xs)); [|lia|done].
      rewrite Hli. by apply inplace_tick. }
  intros w4 Hup4 _.
  pose proof (inplace_updated _ _ _ _ _ _ _ _ Hin3 Hup4) as Hin4.
  eapply wp_bind_eq; [by eapply inplace_size_eq|].
  destruct (inplace_set_size _ _ _ _ _ _ (i + 1) Hin4) as (w5 & Hrun5 & Hin5 & _).
  eapply wp_bind_eq; [exact Hrun5|].
  assert (length (take i xs ++ [x]) = i + 1) as Hli1
    by (rewrite length_app, Hli; done).
  rewrite <-Hli1 in Hin5.
  pose proof (Hreps _ _ Hin5 ltac:(lia)) as Hrep5.
  destruct w5 as [vs5 hp5 c5].
  eapply wp_bind_eq.
  { eapply data_const_rep; [exact Hrep5|by rewrite lookup_insert_ne]. }
  eapply wp_bind_eq.
  { eapply end_const_rep; [exact Hrep5|by rewrite lookup_insert_ne]. }
  eapply wp_bind_eq; [by eapply inplace_end_eq|].
  apply wp_bind. unfold uninitialized_copy, ptr_add. simpl. fold xs.
  eapply wp_bind_eq; [apply ptr_diff_eq; lia|]. simpl.
  eapply (uninitialized_copy_n_at_spec _ (region_of this a) i (in_buf pt)
            (acap a) nc xs (take i xs ++ [x]) (length xs - i));
    [done|by eapply region_slots_rep; [exact Hrep5|by rewrite lookup_insert_ne]
    |by eapply inplace_slots|done|lia|lia| |].
  2:{ intros w6 Hth Hup6. eapply (Hunwind w6 (take i xs ++ [x])); [|lia|done].
      by eapply inplace_updated. }
  intros w6 Hup6.
  rewrite (take_ge (drop i xs)), <-app_assoc in Hup6
    by (rewrite length_drop; lia).
  simpl in Hup6.
  pose proof (inplace_updated _ _ _ _ _ _ _ _ Hin5 Hup6) as Hin6.
  eapply wp_bind_eq.
  { destruct w6 as [vs6 hp6 c6]. eapply size_eq.
    pose proof (inplace_other_vec _ _ _ _ _ _ this Hin6 (not_eq_sym Htt)) as Ho.
    simpl in Ho. rewrite Ho. exact Hv. }
  rewrite Hsz.
  destruct (inplace_set_size _ _ _ _ _ _ (length xs + 1) Hin6)
    as (w7 & Hrun7 & Hin7 & _).
  eapply wp_bind_eq; [exact Hrun7|].
  assert (length (take i xs ++ x :: drop i xs) = length xs + 1) as Hlx.
  { rewrite length_app, Hli. simpl. rewrite length_drop. lia. }
  rewrite <-Hlx in Hin7.
  pose proof (Hreps _ _ Hin7 ltac:(lia)) as Hrep7.
  destruct w7 as [vs7 hp7 c7].
  eapply operator_assign_spec;
    [exact Hrep7|by rewrite lookup_insert_ne|apply lookup_insert_eq|done| |].
  2:{ by intros w' _ [ys ?]. }
  intros [vs8 hp8 c8] Hrep8 _.
  eapply dtor_spec; [exact Hrep8| |].
  { rewrite lookup_insert_ne by done. rewrite lookup_insert_eq. eauto. }
  intros hp' Hrep'. rewrite delete_insert_2 in Hrep' by done.
  by eapply HQ.
Qed.

Lemma insert_spec vs hp c av this a i x Q E :
  rep (mk_world vs hp c) av → av !! this = Some a →
  i ≤ length (aelems a) → 0 < acap a → growth_fits a →
  (∀ w' a', rep w' (<[this := a']> av) → inserted hp av a i x a' →
            Q (region_of this a', i) w') →
  (∀ w', may_throw → rep w' av → E w') →
  wp (insert this (region_of this a, i) x) (mk_world vs hp c) Q E.
Proof.
  intros Hrep Ha Hi Hpos Hgf HQ HE. unfold insert.
  pose proof (size_le_acap _ _ _ _ Hrep Ha) as Hle.
  eapply wp_bind_eq; [exact (data_const_rep _ _ _ _ _ _ Hrep Ha)|].
  eapply wp_bind_eq; [apply ptr_diff_eq; lia|]. rewrite Nat.sub_0_r.
  eapply wp_bind_eq; [exact (size_rep _ _ _ _ _ _ Hrep Ha)|].
  eapply wp_bind_eq; [exact (capacity_rep _ _ _ _ _ _ Hrep Ha)|].
  assert (∀ w' p',
    hp !! p' = None →
    rep w' (<[this := ABig p' (new_cap a)
                (take i (aelems a) ++ x :: drop i (aelems a))]> av) →
    grows av a = true →
    wp (b <- begin this ;; ret (ptr_add b i)) w' Q E) as Hgrown.
  { intros w' p' Hp' Hrep' Hg.
    eapply wp_bind_eq.
    { eapply data_exclusive_rep; [exact Hrep'|apply lookup_insert_eq|].
      simpl. by eapply (owners_fresh_one _ _ _ _ _ _ Hrep). }
    apply wp_ret. unfold ptr_add. simpl.
    eapply (HQ w' (ABig p' _ _)); [exact Hrep'|].
    unfold inserted. rewrite Hg. eauto. }
  assert (∀ b, grows av a = b →
    wp (full_or_shared <- ret b ;;
        _ <- (if full_or_shared then
           n <- size this ;;
           c <- capacity this ;;
           new_capacity <- (if decide (n ≠ c) then capacity this
                            else c <- capacity this ;; ret (size_mul c 2)) ;;
           with_local (ctor_capacity new_capacity) (λ tmp,
             cb <- begin_const this ;;
             tb <- begin tmp ;;
             uninitialized_copy_n cb i tb ;;
             set_size_ tmp i ;;
             te <- end_ tmp ;;
             placement_new te x ;;
             tn <- size tmp ;;
             set_size_ tmp (tn + 1) ;;
             cb <- begin_const this ;;
             ce <- end_const this ;;
             te <- end_ tmp ;;
             uninitialized_copy (ptr_add cb i) ce te ;;
             n <- size this ;;
             set_size_ tmp (n + 1) ;;
             operator_assign this tmp)
         else
           e <- end_ this ;;
           placement_new e x ;;
           n <- size this ;;
           set_size_ this (n + 1) ;;
           n <- size this ;;
           idx <- size_sub n 1 ;;
           insert_loop this idx i) ;;
        b <- begin this ;;
        ret (ptr_add b i)) (mk_world vs hp c) Q E) as Hbody.
  { intros b Hb. eapply wp_bind_eq; [reflexivity|]. apply wp_bind.
    destruct b.
    - eapply wp_bind_eq; [exact (size_rep _ _ _ _ _ _ Hrep Ha)|].
      eapply wp_bind_eq; [exact (capacity_rep _ _ _ _ _ _ Hrep Ha)|].
      eapply (wp_bind_eq _ _ _ (new_cap a)).
      { unfold new_cap. case_decide; case_decide; try done.
        - exact (capacity_rep _ _ _ _ _ _ Hrep Ha).
        - rewrite (bind_eq _ _ _ _ _ (capacity_rep _ _ _ _ _ _ Hrep Ha)).
          unfold ret. by rewrite size_mul_fits by (by apply Hgf). }
      eapply insert_grow; [exact Hrep|exact Ha|done| | | |].
      + unfold new_cap. case_decide; lia.
      + by eapply new_cap_fits.
      + intros w' p' Hp' Hrep'. by eapply Hgrown.
      + intros w' Hth Hrep'. by apply HE.
    - unfold grows in Hb. apply orb_false_iff in Hb as [Hfull Hsh].
      apply bool_decide_eq_false in Hfull.
      pose proof (not_shared_exclusive _ _ _ _ Hrep Ha Hsh) as Hex.
      eapply insert_in_place; [exact Hrep|exact Ha|done|done|lia| |].
      + intros w' Hrep' Hdata.
        eapply wp_bind_eq; [exact Hdata|]. apply wp_ret.
        unfold ptr_add. simpl.
        rewrite <-(region_of_with_elems this
          (take i (aelems a) ++ x :: drop i (aelems a)) a).
        eapply HQ; [exact Hrep'|].
        unfold inserted, grows.
        rewrite bool_decide_eq_false_2, Hsh by done. done.
      + intros w' Hth Hrep'. by apply HE. }
  case_decide as Hfull.
  - apply Hbody. unfold grows. by rewrite bool_decide_eq_true_2.
  - eapply wp_bind. eapply wp_eq; [exact (shared_buf_rep _ _ _ _ _ _ Hrep Ha)|].
    pose proof (Hbody (is_shared av a)) as Hb.
    unfold grows in Hb. rewrite bool_decide_eq_false_2 in Hb by done.
    simpl in Hb. specialize (Hb eq_refl).
    unfold wp in Hb |- *. exact Hb.
Qed.

(** ** erase *)

(** One turn of the shifting loop on the list of elements. *)
Lemma shift_step (L : list T) l r a b :
  l < r → L !! l = Some a → L !! r = Some b →
  take (S l) (<[r := a]> (<[l := b]> L)) ++
    drop (S r) (<[r := a]> (<[l := b]> L))
  = take l L ++ drop r L.
Proof.
  intros Hlr Hl Hr.
  rewrite take_insert_ge, drop_insert_lt, drop_insert_lt by lia.
  rewrite (take_S_r _ _ b)
    by (apply list_lookup_insert_eq; by eapply lookup_lt_Some).
  rewrite take_insert_ge by lia.
  rewrite (drop_S L b r Hr). by rewrite <-app_assoc.
Qed.

Lemma erase_loop_spec w0 this reg cap n : ∀ fuel l r L w,
  inplace w0 w this reg (pad cap L) n → length L = n →
  l < r → r ≤ n → n - r ≤ fuel →
  ∃ w' L', erase_loop fuel this l r w = Ok (l + (n - r), n) w' ∧
           inplace w0 w' this reg (pad cap L') n ∧ length L' = n ∧
           take (l + (n - r)) L' = take l L ++ drop r L ∧
           copies w' = copies w.
Proof.
  induction fuel as [|fuel IH]; intros l r L w Hin Hlen Hlr Hrn Hfuel.
  - assert (r = n) as -> by lia. exists w, L.
    split.
    { simpl. rewrite (bind_eq _ _ _ _ _ (inplace_size_eq _ _ _ _ _ _ Hin)).
      rewrite decide_False by lia. by rewrite Nat.sub_diag, Nat.add_0_r. }
    split; [done|]. split; [done|]. split; [|done].
    by rewrite Nat.sub_diag, Nat.add_0_r, drop_ge, app_nil_r by lia.
  - destruct (decide (r < n)) as [Hlt|Hge].
    2:{ assert (r = n) as -> by lia. exists w, L.
        split.
        { simpl. rewrite (bind_eq _ _ _ _ _ (inplace_size_eq _ _ _ _ _ _ Hin)).
          rewrite decide_False by lia. by rewrite Nat.sub_diag, Nat.add_0_r. }
        split; [done|]. split; [done|]. split; [|done].
        by rewrite Nat.sub_diag, Nat.add_0_r, drop_ge, app_nil_r by lia. }
    destruct (lookup_lt_is_Some_2 L l) as [a Ha]; [lia|].
    destruct (lookup_lt_is_Some_2 L r) as [b Hb]; [lia|].
    destruct (swap_elems_same w reg cap L l r a b
                (inplace_slots _ _ _ _ _ _ Hin) Ha Hb)
      as (w1 & Hrun & Hup & Hc).
    pose proof (inplace_updated _ _ _ _ _ _ _ _ Hin Hup) as Hin1.
    destruct (IH (l + 1) (r + 1) (<[r := a]> (<[l := b]> L)) w1 Hin1)
      as (w' & L' & Hrun' & Hin' & Hlen' & Htake & Hc');
      [by rewrite !length_insert|lia|lia|lia|].
    exists w', L'. split.
    { simpl. rewrite (bind_eq _ _ _ _ _ (inplace_size_eq _ _ _ _ _ _ Hin)).
      rewrite decide_True by done.
      rewrite (bind_eq _ _ _ _ _ (inplace_index_eq _ _ _ _ _ _ l Hin)).
      rewrite (bind_eq _ _ _ _ _ (inplace_index_eq _ _ _ _ _ _ r Hin)).
      rewrite (bind_eq _ _ _ _ _ Hrun). rewrite Hrun'.
      f_equal. f_equal. lia. }
    split; [done|]. split; [done|]. split; [|congruence].
    replace (l + (n - r)) with (l + 1 + (n - (r + 1))) by lia.
    rewrite Htake, !Nat.add_1_r. by apply shift_step.
Qed.

Lemma erase_in_place vs hp c av this a i j Q E :
  rep (mk_world vs hp c) av → av !! this = Some a → exclusive av a →
  i < j → j ≤ length (aelems a) →
  (∀ w', rep w' (<[this := with_elems
                    (take i (aelems a) ++ drop j (aelems a)) a]> av) →
         copies w' = c → Q (region_of this a, i) w') →
  wp (n <- size this ;;
      lr <- erase_loop n this i j ;;
      e <- end_ this ;;
      e' <- ptr_sub e lr.2 ;;
      e'' <- end_ this ;;
      destroy (ptr_add e' lr.1) e'' ;;
      n <- size this ;;
      k <- size_sub n (lr.2 - lr.1) ;;
      set_size_ this k ;;
      b <- begin this ;;
      ret (ptr_add b i))
     (mk_world vs hp c) Q E.
Proof.
  intros Hrep Ha Hex Hij Hj HQ.
  pose proof (inplace_init _ _ _ _ Hrep Ha Hex) as Hin.
  assert (length (aelems a) ≤ acap a) as Hcap.
  { destruct (acap_bound _ _ _ _ Hrep Ha) as [[? _]|(_ & xs & -> & ->)];
      [done|simpl; lia]. }
  set (xs := aelems a) in *. set (r := region_of this a) in *.
  set (n := length xs) in *.
  eapply wp_bind_eq; [exact (inplace_size_eq _ _ _ _ _ _ Hin)|].
  destruct (erase_loop_spec _ _ _ _ _ n i j xs _ Hin)
    as ([vs1 hp1 c1] & L & Hrun & Hin1 & HL & Htake & Hc1);
    [done|done|done|lia|].
  eapply wp_bind_eq; [exact Hrun|]. simpl.
  set (lf := i + (n - j)) in *.
  eapply wp_bind_eq; [exact (inplace_end_eq _ _ _ _ _ _ Hin1)|].
  eapply wp_bind_eq; [apply ptr_sub_eq; lia|].
  eapply wp_bind_eq; [exact (inplace_end_eq _ _ _ _ _ _ Hin1)|].
  unfold ptr_add, destroy. simpl. rewrite Nat.sub_diag. simpl.
  destruct (destroy_tail_spec _ r (acap a) L lf
              (inplace_slots _ _ _ _ _ _ Hin1))
    as ([vs2 hp2 c2] & Hrun2 & Hup2 & Hc2); [lia|lia|].
  rewrite HL in Hrun2. rewrite Htake in Hup2.
  apply wp_bind. eapply wp_bind_eq; [apply ptr_diff_eq; lia|].
  eapply wp_eq; [exact Hrun2|].
  pose proof (inplace_updated _ _ _ _ _ _ _ _ Hin1 Hup2) as Hin2.
  eapply wp_bind_eq; [exact (inplace_size_eq _ _ _ _ _ _ Hin2)|].
  eapply wp_bind_eq; [apply size_sub_eq; lia|].
  destruct (inplace_set_size _ _ _ _ _ _ (n - (n - lf)) Hin2)
    as (w3 & Hrun3 & Hin3 & Hc3).
  eapply wp_bind_eq; [exact Hrun3|].
  eapply wp_bind_eq; [exact (inplace_data_eq _ _ _ _ _ _ Hin3)|].
  apply wp_ret. simpl. apply HQ; [|simpl in *; congruence].
  eapply inplace_rep; [exact Hrep|exact Ha|exact Hex| |].
  - replace (length (take i xs ++ drop j xs)) with (n - (n - lf)); [done|].
    rewrite length_app, length_take, length_drop. lia.
  - rewrite length_app, length_take, length_drop. lia.
Qed.

Lemma erase_unshare vs hp c av this p cp xs i j Q E :
  rep (mk_world vs hp c) av → av !! this = Some (ABig p cp xs) →
  i < j → j ≤ length xs →
  (∀ w' p', hp !! p' = None →
            rep w' (<[this := ABig p' cp (take i xs ++ drop j xs)]> av) →
            Q (in_buf p', i) w') →
  (∀ w', may_throw → rep w' av → E w') →
  wp (c <- capacity this ;;
      with_local (ctor_capacity c) (λ tmp,
        buf <- get_buf_ this ;;
        d <- buffer_data buf ;;
        tb <- begin tmp ;;
        uninitialized_copy_n d i tb ;;
        set_size_ tmp i ;;
        buf <- get_buf_ this ;;
        d <- buffer_data buf ;;
        n <- size this ;;
        k <- size_sub n j ;;
        tb <- begin tmp ;;
        uninitialized_copy_n (ptr_add d j) k (ptr_add tb i) ;;
        n <- size this ;;
        k <- size_sub n (j - i) ;;
        set_size_ tmp k ;;
        swap this tmp ;;
        b <- begin this ;;
        ret (ptr_add b i)))
     (mk_world vs hp c) Q E.
Proof.
  intros Hrep Ha Hij Hj HQ HE.
  destruct (rep_big _ _ _ _ _ _ Hrep Ha) as (Hv & rc & Hb & Hcp & Hpos & _).
  simpl in Hv, Hb.
  eapply wp_bind_eq; [exact (capacity_rep _ _ _ _ _ _ Hrep Ha)|]. simpl.
  apply wp_with_local.
  eapply ctor_capacity_spec;
    [exact Hrep|lia|exact (rep_fits _ _ _ _ _ _ Hrep Ha)|].
  intros t pt Hfresh Hat Hpt Hrep1.
  set (w1 := mk_world (<[t := mk_vec 0 false (buf_ pt)]> vs)
               (<[pt := mk_buffer cp 1 (pad cp [])]> hp) c) in *.
  set (av1 := <[t := ABig pt cp []]> av) in *.
  assert (t ≠ this) as Htt by congruence.
  assert (p ≠ pt) as Hppt by congruence.
  assert (av1 !! this = Some (ABig p cp xs)) as Ha1
    by (by unfold av1; rewrite lookup_insert_ne).
  assert (av1 !! t = Some (ABig pt cp [])) as Hat1 by apply lookup_insert_eq.
  assert (exclusive av1 (ABig pt cp [])) as Hex1.
  { simpl. unfold av1. by eapply (owners_fresh_one _ _ _ _ _ _ Hrep). }
  assert (inplace w1 w1 t (in_buf pt) (pad cp []) 0) as Hin
    by exact (inplace_init _ _ _ _ Hrep1 Hat1 Hex1).
  assert (∀ w' zs, inplace w1 w' t (in_buf pt) (pad cp zs) (length zs) →
                   length zs ≤ cp →
                   rep w' (<[t := ABig pt cp zs]> av)) as Hreps.
  { intros w' zs Hin' Hlen.
    pose proof (inplace_rep _ _ _ _ _ zs Hrep1 Hat1 Hex1 Hin' Hlen) as Hr.
    simpl in Hr. unfold av1 in Hr. by rewrite insert_insert_eq in Hr. }
  assert (∀ w' zs, inplace w1 w' t (in_buf pt) (pad cp zs) (length zs) →
                   length zs ≤ cp → may_throw →
                   wp (dtor t) w' (λ _ w3, E w3) E) as Hunwind.
  { intros w' zs Hin' Hlen Hth. eapply local_unwind; [by eapply Hreps|done|].
    intros w3 Hrep3. by apply HE. }
  assert (∀ w' l n, inplace w1 w' t (in_buf pt) l n →
     vecs w' !! this = Some (mk_vec (length xs) false (buf_ p)) ∧
     heap w' !! p = Some (mk_buffer cp rc (pad cp xs))) as Hread.
  { intros w' l n (Hvs' & b & _ & _ & Hh'). rewrite Hvs', Hh'. simpl.
    by rewrite !lookup_insert_ne by done. }
  assert (length (take i xs) = i) as Hli by (rewrite length_take; lia).
  destruct (Hread _ _ _ Hin) as [Hv1 Hb1].
  eapply wp_bind_eq; [by eapply get_buf_eq|].
  eapply wp_bind_eq; [by eapply buffer_data_eq|].
  eapply wp_bind_eq; [exact (inplace_data_eq _ _ _ _ _ _ Hin)|].
  apply wp_bind.
  eapply (uninitialized_copy_n_at_spec w1 (in_buf p) 0 (in_buf pt)
            cp cp xs [] i);
    [congruence|unfold region_slots; by rewrite Hb1|by eapply inplace_slots|done|lia
    |simpl; lia| |].
  2:{ intros w2 Hth Hup. eapply (Hunwind w2 []); [|simpl; lia|done].
      by eapply inplace_updated. }
  intros w2 Hup. simpl in Hup. rewrite drop_0 in Hup.
  pose proof (inplace_updated _ _ _ _ _ _ _ _ Hin Hup) as Hin2.
  destruct (inplace_set_size _ _ _ _ _ _ i Hin2)
    as ([vs3 hp3 c3] & Hrun3 & Hin3 & _).
  eapply wp_bind_eq; [exact Hrun3|].
  destruct (Hread _ _ _ Hin3) as [Hv3 Hb3]. simpl in Hv3, Hb3.
  eapply wp_bind_eq; [by eapply get_buf_eq|].
  eapply wp_bind_eq; [by eapply buffer_data_eq|].
  eapply wp_bind_eq; [by eapply size_eq|]. simpl.
  eapply wp_bind_eq; [apply size_sub_eq; lia|].
  eapply wp_bind_eq; [exact (inplace_data_eq _ _ _ _ _ _ Hin3)|].
  apply wp_bind. unfold ptr_add. simpl.
  eapply (uninitialized_copy_n_at_spec _ (in_buf p) j (in_buf pt)
            cp cp xs (take i xs) (length xs - j));
    [congruence|unfold region_slots; simpl; by rewrite Hb3
    |by eapply inplace_slots|lia|lia|lia| |].
  2:{ intros w4 Hth Hup4. eapply (Hunwind w4 (take i xs)); [|lia|done].
      rewrite Hli. by eapply inplace_updated. }
  intros w4 Hup4.
  rewrite (take_ge (drop j xs)) in Hup4 by (rewrite length_drop; lia).
  pose proof (inplace_updated _ _ _ _ _ _ _ _ Hin3 Hup4) as Hin4.
  destruct w4 as [vs4 hp4 c4].
  destruct (Hread _ _ _ Hin4) as [Hv4 Hb4]. simpl in Hv4, Hb4.
  eapply wp_bind_eq; [by eapply size_eq|]. simpl.
  eapply wp_bind_eq; [apply size_sub_eq; lia|].
  destruct (inplace_set_size _ _ _ _ _ _ (length xs - (j - i)) Hin4)
    as ([vs5 hp5 c5] & Hrun5 & Hin5 & _).
  eapply wp_bind_eq; [exact Hrun5|].
  assert (length (take i xs ++ drop j xs) = length xs - (j - i)) as Hlx.
  { rewrite length_app, Hli, length_drop. lia. }
  rewrite <-Hlx in Hin5.
  pose proof (Hreps _ _ Hin5 ltac:(lia)) as Hrep5.
  apply wp_bind.
  eapply swap_spec;
    [exact Hrep5|by rewrite lookup_insert_ne|apply lookup_insert_eq|done| |].
  2:{ by intros w' av' _ Hsm. }
  intros [vs6 hp6 c6] Hrep6. rewrite insert_insert_eq in Hrep6.
  eapply wp_bind_eq.
  { eapply data_exclusive_rep; [exact Hrep6|apply lookup_insert_eq|].
    simpl.
    pose proof (owners_insert (<[t := ABig p cp xs]> av) this
                  (ABig pt cp (take i xs ++ drop j xs)) pt) as H1.
    pose proof (owners_insert av t (ABig p cp xs) pt) as H2.
    rewrite lookup_insert_ne, Ha in H1 by done. rewrite Hat in H2.
    pose proof (rep_no_owner _ _ _ Hrep Hpt) as H0.
    unfold nb, big_at in H1, H2.
    rewrite (bool_decide_eq_true_2 (pt = pt)) in H1 by done.
    rewrite (bool_decide_eq_false_2 (p = pt)) in H1, H2 by done. lia. }
  apply wp_ret. unfold ptr_add. simpl.
  eapply dtor_spec; [exact Hrep6| |].
  { rewrite lookup_insert_ne by done. rewrite lookup_insert_eq. eauto. }
  intros hp' Hrep'. rewrite delete_insert_2 in Hrep' by done.
  by eapply HQ.
Qed.

(** What [erase] over the positions [i .. j) makes of an instance. *)
Definition erased (hp : gmap nat buffer) (av : gmap nat avec) (a : avec)
    (i j : nat) (a' : avec) : Prop :=
  let xs' := take i (aelems a) ++ drop j (aelems a) in
  if is_shared av a
  then ∃ p', hp !! p' = None ∧ a' = ABig p' (acap a) xs'
  else a' = with_elems xs' a.

Lemma with_elems_id a : with_elems (aelems a) a = a.
Proof. by destruct a. Qed.

Lemma erase_spec vs hp c av this a i j Q E :
  rep (mk_world vs hp c) av → av !! this = Some a →
  i ≤ j → j ≤ length (aelems a) →
  (∀ w' a', rep w' (<[this := a']> av) → erased hp av a i j a' →
            (is_shared av a = false → copies w' = c) →
            Q (region_of this a', i) w') →
  (∀ w', may_throw → is_shared av a = true → rep w' av → E w') →
  wp (erase this (region_of this a, i) (region_of this a, j))
     (mk_world vs hp c) Q E.
Proof.
  intros Hrep Ha Hij Hj HQ HE. unfold erase.
  eapply wp_bind_eq; [exact (data_const_rep _ _ _ _ _ _ Hrep Ha)|].
  eapply wp_bind_eq; [apply ptr_diff_eq; lia|]. rewrite Nat.sub_0_r.
  eapply wp_bind_eq; [exact (data_const_rep _ _ _ _ _ _ Hrep Ha)|].
  eapply wp_bind_eq; [apply ptr_diff_eq; lia|]. rewrite Nat.sub_0_r.
  case_decide as Heq.
  - (* the empty range: only the call of [begin()] *)
    subst j. destruct (is_shared av a) eqn:Hsh.
    + destruct a as [xs|p cp xs]; [done|]. simpl in Hsh.
      apply bool_decide_eq_true in Hsh.
      apply wp_bind. eapply data_shared_spec; [exact Hrep|exact Ha|done| |].
      * intros p' w' Hp' Hrep' _. apply wp_ret. unfold ptr_add. simpl.
        eapply (HQ w' (ABig p' cp xs)); [exact Hrep'| |done].
        unfold erased. simpl. rewrite bool_decide_eq_true_2 by done.
        rewrite take_drop. eauto.
      * intros c' Hth. apply HE; [done|done|by eapply rep_copies].
    + pose proof (not_shared_exclusive _ _ _ _ Hrep Ha Hsh) as Hex.
      eapply wp_bind_eq; [exact (data_exclusive_rep _ _ _ _ Hrep Ha Hex)|].
      apply wp_ret. unfold ptr_add. simpl.
      eapply (HQ _ a); [by rewrite insert_id| |done].
      unfold erased. rewrite Hsh. simpl.
      by rewrite take_drop, with_elems_id.
  - eapply wp_bind_eq; [exact (shared_buf_rep _ _ _ _ _ _ Hrep Ha)|].
    destruct (is_shared av a) eqn:Hsh.
    + destruct a as [xs|p cp xs]; [done|].
      eapply erase_unshare; [exact Hrep|exact Ha|simpl in *; lia|done| |].
      * intros w' p' Hp' Hrep'.
        eapply (HQ w' (ABig p' cp _)); [exact Hrep'| |done].
        unfold erased. rewrite Hsh. simpl. eauto.
      * intros w' Hth Hrep'. by apply HE.
    + pose proof (not_shared_exclusive _ _ _ _ Hrep Ha Hsh) as Hex.
      eapply erase_in_place; [exact Hrep|exact Ha|done|lia|done|].
      intros w' Hrep' Hc.
      rewrite <-(region_of_with_elems this
        (take i (aelems a) ++ drop j (aelems a)) a).
      eapply HQ; [exact Hrep'| |done].
      unfold erased. by rewrite Hsh.
Qed.

Lemma push_back_spec vs hp c av this a x Q E :
  rep (mk_world vs hp c) av → av !! this = Some a →
  0 < acap a → growth_fits a →
  (∀ w' a', rep w' (<[this := a']> av) →
            inserted hp av a (length (aelems a)) x a' → Q tt w') →
  (∀ w', may_throw → rep w' av → E w') →
  wp (push_back this x) (mk_world vs hp c) Q E.
Proof.
  intros Hrep Ha Hpos Hgf HQ HE. unfold push_back.
  eapply wp_bind_eq; [exact (end_const_rep _ _ _ _ _ _ Hrep Ha)|].
  apply wp_bind.
  eapply insert_spec; [exact Hrep|exact Ha|done|done|done| |done].
  intros w' a' Hrep' Hins. apply wp_ret. by eapply HQ.
Qed.

Lemma pop_back_spec vs hp c av this a Q E :
  rep (mk_world vs hp c) av → av !! this = Some a → 0 < length (aelems a) →
  (∀ w' a', rep w' (<[this := a']> av) →
            erased hp av a (length (aelems a) - 1) (length (aelems a)) a' →
            Q tt w') →
  (∀ w', may_throw → is_shared av a = true → rep w' av → E w') →
  wp (pop_back this) (mk_world vs hp c) Q E.
Proof.
  intros Hrep Ha Hn HQ HE. unfold pop_back.
  eapply wp_bind_eq; [exact (end_const_rep _ _ _ _ _ _ Hrep Ha)|].
  eapply wp_bind_eq; [apply ptr_sub_eq; lia|].
  apply wp_bind. unfold erase1, ptr_add. simpl.
  replace (length (aelems a) - 1 + 1) with (length (aelems a)) by lia.
  eapply erase_spec; [exact Hrep|exact Ha|lia|done| |done].
  intros w' a' Hrep' Her _. apply wp_ret. by eapply HQ.
Qed.

(** ** What a client observes *)

Lemma read_n_spec w r cap xs : ∀ n k,
  region_slots w r = Some (pad cap xs) → k + n ≤ length xs →
  read_n (r, k) n w = Ok (take n (drop k xs)) w.
Proof.
  induction n as [|n IH]; intros k Hr Hk; simpl; [done|].
  destruct (lookup_lt_is_Some_2 xs k) as [x Hx]; [lia|].
  rewrite (bind_eq _ _ _ _ _
    (load_eq _ _ _ _ _ Hr (pad_lookup_lt cap _ _ _ Hx))).
  unfold ptr_add. simpl.
  rewrite (bind_eq _ _ _ _ _ (IH (k + 1) Hr ltac:(lia))).
  rewrite (drop_S _ _ _ Hx). simpl. by rewrite Nat.add_1_r.
Qed.

Lemma contents_rep vs hp c av this a :
  rep (mk_world vs hp c) av → av !! this = Some a →
  contents this (mk_world vs hp c) = Ok (aelems a) (mk_world vs hp c).
Proof.
  intros Hrep Ha. unfold contents.
  rewrite (bind_eq _ _ _ _ _ (data_const_rep _ _ _ _ _ _ Hrep Ha)).
  rewrite (bind_eq _ _ _ _ _ (size_rep _ _ _ _ _ _ Hrep Ha)).
  erewrite read_n_spec; [|by eapply region_slots_rep|simpl; lia].
  by rewrite drop_0, take_ge.
Qed.

(** [size()], [capacity()] and the elements, as a client reads them
    through the const interface. *)
Definition observe (this : nat) : M (nat * nat * list T) :=
  n <- size this ;;
  c <- capacity this ;;
  xs <- contents this ;;
  ret (n, c, xs).

Definition aobs (a : avec) : nat * nat * list T :=
  (length (aelems a), acap a, aelems a).

Lemma observe_rep w av this a :
  rep w av → av !! this = Some a → observe this w = Ok (aobs a) w.
Proof.
  destruct w as [vs hp c]. intros Hrep Ha. unfold observe.
  rewrite (bind_eq _ _ _ _ _ (size_rep _ _ _ _ _ _ Hrep Ha)).
  rewrite (bind_eq _ _ _ _ _ (capacity_rep _ _ _ _ _ _ Hrep Ha)).
  by rewrite (bind_eq _ _ _ _ _ (contents_rep _ _ _ _ _ _ Hrep Ha)).
Qed.

Lemma observe_same w w' av av' this a r :
  rep w av → av !! this = Some a → rep w' av' → av' !! this = Some a →
  observe this w = Ok r w → observe this w' = Ok r w'.
Proof.
  intros Hrep Ha Hrep' Ha' Hobs.
  rewrite (observe_rep _ _ _ _ Hrep Ha) in Hobs.
  rewrite (observe_rep _ _ _ _ Hrep' Ha'). congruence.
Qed.

(** ** The mutators of the public interface *)

Inductive mutation :=
  | MPushBack (x : T)
  | MPopBack
  | MInsert (i : nat) (x : T)
  | MErase (i j : nat)
  | MReserve (n : nat)
  | MShrinkToFit
  | MClear.

(** A client's call; positions are formed as [begin() + i] on the const
    range. *)
Definition run_mutation (this : nat) (m : mutation) : M unit :=
  match m with
  | MPushBack x => push_back this x
  | MPopBack => pop_back this
  | MInsert i x =>
      b <- begin_const this ;; _ <- insert this (ptr_add b i) x ;; ret tt
  | MErase i j =>
      b <- begin_const this ;;
      _ <- erase this (ptr_add b i) (ptr_add b j) ;; ret tt
  | MReserve n => reserve this n
  | MShrinkToFit => shrink_to_fit this
  | MClear => clear this
  end.

(** What the caller owes: the positions handed to the call lie in the
    range of the instance; [pop_back] finds an element; [push_back] and
    [insert] find a capacity that is not zero; and where the call
    allocates a block of a capacity beyond the current one, the doubled
    capacity or the argument of [reserve], the byte size of that block
    does not wrap. *)
Definition mutation_ok (sh : bool) (a : avec) (m : mutation) : Prop :=
  match m with
  | MPushBack _ => 0 < acap a ∧ growth_fits a
  | MPopBack => 0 < length (aelems a)
  | MInsert i _ => i ≤ length (aelems a) ∧ 0 < acap a ∧ growth_fits a
  | MErase i j => i ≤ j ∧ j ≤ length (aelems a)
  | MReserve n => reserve_allocates sh a n = true → fits n
  | _ => True
  end.

Definition mutated (hp : gmap nat buffer) (av : gmap nat avec) (a : avec)
    (m : mutation) (a' : avec) : Prop :=
  match m with
  | MPushBack x => inserted hp av a (length (aelems a)) x a'
  | MPopBack =>
      erased hp av a (length (aelems a) - 1) (length (aelems a)) a'
  | MInsert i x => inserted hp av a i x a'
  | MErase i j => erased hp av a i j a'
  | MReserve n => reserved hp av a n a'
  | MShrinkToFit => shrunk hp a a'
  | MClear => a' = cleared av a
  end.

Lemma run_mutation_spec vs hp c av this a m Q E :
  rep (mk_world vs hp c) av → av !! this = Some a →
  mutation_ok (is_shared av a) a m →
  (∀ w' a', rep w' (<[this := a']> av) → mutated hp av a m a' → Q tt w') →
  (∀ w', may_throw → rep w' av → E w') →
  wp (run_mutation this m) (mk_world vs hp c) Q E.
Proof.
  intros Hrep Ha Hok HQ HE. destruct m as [x| |i x|i j|n| |]; simpl in *.
  - destruct Hok. by eapply push_back_spec.
  - eapply pop_back_spec; [exact Hrep|exact Ha|done|done|].
    intros w' Hth _ Hrep'. by apply HE.
  - destruct Hok as (? & ? & ?).
    eapply wp_bind_eq; [exact (data_const_rep _ _ _ _ _ _ Hrep Ha)|].
    apply wp_bind. unfold ptr_add. simpl.
    eapply insert_spec; [exact Hrep|exact Ha|done|done|done| |done].
    intros w' a' Hrep' Hins. apply wp_ret. by eapply HQ.
  - eapply wp_bind_eq; [exact (data_const_rep _ _ _ _ _ _ Hrep Ha)|].
    apply wp_bind. unfold ptr_add. simpl.
    eapply erase_spec; [exact Hrep|exact Ha|tauto|tauto| |].
    + intros w' a' Hrep' Her _. apply wp_ret. by eapply HQ.
    + intros w' Hth _ Hrep'. by apply HE.
  - eapply reserve_spec; [exact Hrep|exact Ha|done| |done].
    intros w' a' Hrep' Hres _. by eapply HQ.
  - eapply shrink_to_fit_spec; [exact Hrep|exact Ha| |done].
    intros w' a' Hrep' Hs. by eapply HQ.
  - eapply clear_spec; [exact Hrep|exact Ha|].
    intros w' Hrep' _. by eapply HQ.
Qed.

(** ** Checking the invariant of a given state

    With decidable equality on the elements, [rep] can be computed. *)

Section check.

Context `{EqDecision T}.

Global Instance storage_eq_dec : EqDecision storage.
Proof. solve_decision. Defined.

Definition vrep_check (hp : gmap nat buffer) (v : socow_vector) (a : avec)
    : bool :=
  match a with
  | ASmall xs =>
      bool_decide (is_small_ v = true ∧ size_ v = length xs ∧
                   length xs ≤ SMALL_SIZE ∧
                   small_of (store_ v) = pad SMALL_SIZE xs)
  | ABig p c xs =>
      match hp !! p with
      | Some b =>
          bool_decide (is_small_ v = false ∧ size_ v = length xs ∧
                       store_ v = buf_ p ∧ capacity_ b = c ∧
                       data_ b = pad c xs ∧ length xs ≤ c ∧ 0 < c ∧
                       fits c)
      | None => false
      end
  end.

Definition rep_check (w : world) (av : gmap nat avec) : bool :=
  bool_decide (dom (vecs w) = dom av) &&
  bool_decide (map_Forall (λ id a,
     from_option (λ v, vrep_check (heap w) v a) false (vecs w !! id) = true)
     av) &&
  bool_decide (map_Forall (λ p b,
     ref_count_ b = owners av p ∧ 0 < ref_count_ b) (heap w)).

Lemma vrep_check_sound hp v a : vrep_check hp v a = true → vrep hp v a.
Proof.
  destruct a as [xs|p c xs]; simpl.
  - by intros ?%bool_decide_eq_true.
  - destruct (hp !! p) as [b|]; [|done].
    intros (? & ? & ? & ? & ? & ? & ? & ?)%bool_decide_eq_true. eauto 10.
Qed.

Lemma rep_check_sound w av : rep_check w av = true → rep w av.
Proof.
  unfold rep_check. rewrite !andb_true_iff, !bool_decide_eq_true.
  intros [[Hdom Hv] Hh]. split.
  - intros id. destruct (av !! id) as [a|] eqn:Ha.
    + specialize (Hv id a Ha). simpl in Hv.
      destruct (vecs w !! id) as [v|]; [|done].
      constructor. by apply vrep_check_sound.
    + apply not_elem_of_dom in Ha. rewrite <-Hdom in Ha.
      apply not_elem_of_dom in Ha. rewrite Ha. constructor.
  - intros p b Hb. exact (Hh p b Hb).
Qed.

End check.

(** ** What other instances read, and who owns a block *)

Lemma load_rep w av this a i y :
  rep w av → av !! this = Some a → aelems a !! i = Some y →
  load (region_of this a, i) w = Ok y w.
Proof.
  intros Hrep Ha Hy.
  eapply load_eq; [by eapply region_slots_rep|by apply pad_lookup_lt].
Qed.

Lemma observe_live w av id r :
  rep w av → observe id w = Ok r w → ∃ a, av !! id = Some a ∧ r = aobs a.
Proof.
  intros Hrep Hobs. destruct (av !! id) as [a|] eqn:Ha.
  - exists a. split; [done|].
    rewrite (observe_rep _ _ _ _ Hrep Ha) in Hobs. congruence.
  - apply (proj2 (rep_none _ _ id Hrep)) in Ha.
    unfold observe, size, get_vec, bind in Hobs. by rewrite Ha in Hobs.
Qed.

(** What is read through an instance whose abstract value is the same. *)
Lemma observe_preserved w w' av av' id r :
  rep w av → rep w' av' → av' !! id = av !! id →
  observe id w = Ok r w → observe id w' = Ok r w'.
Proof.
  intros Hrep Hrep' Heq Hobs.
  destruct (observe_live _ _ _ _ Hrep Hobs) as (a & Ha & ->).
  eapply observe_rep; [exact Hrep'|congruence].
Qed.

Lemma owners_same_block av this a a' p :
  av !! this = Some a → big_at p a' = big_at p a →
  owners (<[this := a']> av) p = owners av p.
Proof.
  intros Ha Hbig. pose proof (owners_insert av this a' p) as Hins.
  rewrite Ha in Hins. simpl in Hins. rewrite Hbig in Hins. lia.
Qed.

Lemma owners_pos_owner av p :
  0 < owners av p → ∃ id c xs, av !! id = Some (ABig p c xs).
Proof.
  unfold owners. intros Hpos.
  destruct (filter (λ kv : nat * avec, big_at p kv.2 = true)
              (map_to_list av)) as [|[id a0] l] eqn:Hf; [simpl in Hpos; lia|].
  assert ((id, a0) ∈ filter (λ kv : nat * avec, big_at p kv.2 = true)
            (map_to_list av)) as Hin
    by (rewrite Hf; apply elem_of_cons; by left).
  apply list_elem_of_filter in Hin as [Hbig Hin]. simpl in Hbig.
  apply elem_of_map_to_list in Hin.
  apply big_at_true in Hbig as (c0 & xs0 & ->). eauto.
Qed.

(** Every allocated block is the block of some live instance. *)
Lemma rep_block_owned w av p b :
  rep w av → heap w !! p = Some b →
  ∃ id c xs, av !! id = Some (ABig p c xs).
Proof.
  intros Hrep Hb. destruct Hrep as [_ H2].
  destruct (H2 p b Hb) as [Hrc Hpos]. apply owners_pos_owner. lia.
Qed.

Lemma is_shared_with_elems av this a xs' :
  av !! this = Some a →
  is_shared (<[this := with_elems xs' a]> av) (with_elems xs' a)
  = is_shared av a.
Proof.
  intros Ha. destruct a as [xs|p cp xs]; simpl; [done|].
  by rewrite (owners_same_block av this (ABig p cp xs)).
Qed.

Lemma is_shared_fresh w av this p cp xs :
  rep w av → heap w !! p = None →
  is_shared (<[this := ABig p cp xs]> av) (ABig p cp xs) = false.
Proof.
  intros Hrep Hp. simpl.
  rewrite (owners_fresh_one _ _ _ _ _ _ Hrep Hp).
  by apply bool_decide_eq_false_2; lia.
Qed.

(** After an insertion the instance is the only owner of its storage. *)
Lemma inserted_not_shared w av this a i x a' :
  rep w av → av !! this = Some a → inserted (heap w) av a i x a' →
  is_shared (<[this := a']> av) a' = false.
Proof.
  intros Hrep Ha. unfold inserted, grows.
  destruct (bool_decide (length (aelems a) = acap a)) eqn:Hfull; simpl.
  - intros (p' & Hp' & ->). by eapply is_shared_fresh.
  - destruct (is_shared av a) eqn:Hsh.
    + intros (p' & Hp' & ->). by eapply is_shared_fresh.
    + intros ->. by rewrite is_shared_with_elems.
Qed.

Lemma insert_erase_elems (xs : list T) i x :
  i ≤ length xs →
  take i (take i xs ++ x :: drop i xs) ++
    drop (i + 1) (take i xs ++ x :: drop i xs) = xs.
Proof.
  revert i. induction xs as [|y xs IH]; intros [|i] Hi; simpl in *;
    try done; try lia.
  f_equal. apply IH. lia.
Qed.

Lemma insert_elems_lookup (xs : list T) i x :
  i ≤ length xs → (take i xs ++ x :: drop i xs) !! i = Some x.
Proof.
  intros Hi. rewrite lookup_app_r by (rewrite length_take; lia).
  rewrite length_take. by replace (i - i `min` length xs) with 0 by lia.
Qed.

Lemma erase_elems_lookup (xs : list T) i j y :
  i ≤ j → j ≤ length xs → xs !! j = Some y →
  (take i xs ++ drop j xs) !! i = Some y.
Proof.
  intros Hij Hj Hy. rewrite lookup_app_r by (rewrite length_take; lia).
  rewrite length_take, lookup_drop.
  by replace (j + (i - i `min` length xs)) with j by lia.
Qed.

(** Assignment to an element the instance owns alone. *)
Lemma store_exclusive w av this a i x :
  rep w av → av !! this = Some a → exclusive av a →
  i < length (aelems a) →
  ∃ w', store (region_of this a, i) x w = Ok tt w' ∧
        rep w' (<[this := with_elems (<[i := x]> (aelems a)) a]> av).
Proof.
  intros Hrep Ha Hex Hi.
  pose proof (inplace_init _ _ _ _ Hrep Ha Hex) as Hin.
  pose proof (inplace_slots _ _ _ _ _ _ Hin) as Hslots.
  destruct (lookup_lt_is_Some_2 (aelems a) i Hi) as [y Hy].
  eexists. split.
  { eapply store_eq; [exact Hslots|by apply pad_lookup_lt]. }
  rewrite pad_insert_lt by done.
  eapply inplace_rep; [exact Hrep|exact Ha|exact Hex| |].
  - rewrite length_insert.
    eapply inplace_updated; [exact Hin|].
    by eapply region_updated_write.
  - rewrite length_insert. by eapply size_le_acap.
Qed.

(** * Properties of the interface *)

(** ** What a client can do to an instance *)














(** The operations that copy elements into storage built aside. *)
Inductive guarded_op :=
  | GAssign (other : nat)
  | GUnshare
  | GInsert (i : nat) (x : T)
  | GErase (i j : nat).

Definition run_guarded (this : nat) (op : guarded_op) : M unit :=
  match op with
  | GAssign other => operator_assign this other
  | GUnshare => _ <- data this ;; ret tt
  | GInsert i x => run_mutation this (MInsert i x)
  | GErase i j => run_mutation this (MErase i j)
  end.

(** What the caller owes: a live source, positions in the range of the
    instance, and for [insert] into a full instance a doubled capacity
    whose byte size does not wrap. *)
Definition guarded_ok (av : gmap nat avec) (a : avec) (op : guarded_op)
    : Prop :=
  match op with
  | GAssign other => is_Some (av !! other)
  | GUnshare => True
  | GInsert i x => i ≤ length (aelems a) ∧ growth_fits a
  | GErase i j => i ≤ j ∧ j ≤ length (aelems a)
  end.

(** [insert] into an instance without capacity, which is the empty
    inline instance when [SMALL_SIZE] is zero: the doubled capacity is
    zero, and the new element is constructed past the end of the new
    block.  When the copy of the element throws before that, the block
    is given back and nothing but the count of copies has changed. *)
Lemma insert_no_capacity vs hp c av this a x :
  rep (mk_world vs hp c) av → av !! this = Some a → acap a = 0 →
  growth_fits a →
  insert this (region_of this a, 0) x (mk_world vs hp c)
  = if throws c then Throw (mk_world vs hp (S c)) else Undef.
Proof.
  intros Hrep Ha Hcap Hgf.
  change (outcome (insert this (region_of this a, 0) x) (mk_world vs hp c)
            (λ r, r = if throws c then Throw (mk_world vs hp (S c))
                      else Undef)).
  destruct a as [xs|p cp xs]; simpl in Hcap.
  2:{ destruct (rep_big _ _ _ _ _ _ Hrep Ha) as (_ & ? & _ & _ & ? & _). lia. }
  destruct (rep_small _ _ _ _ Hrep Ha) as (st & Hv & Hn & Hst).
  assert (xs = []) as -> by (destruct xs; [done|simpl in Hn; lia]).
  simpl in Hv.
  assert (fits 0) as Hfit.
  { assert (fits (SMALL_SIZE * 2)) as H by (apply Hgf; simpl; lia).
    by rewrite Hcap in H. }
  assert (size_mul 0 2 = 0) as Hmul by (by rewrite size_mul_fits).
  pose proof (fresh_vecs vs) as Hft. pose proof (fresh_heap hp) as Hfp.
  unfold insert. simpl.
  eapply outcome_bind_eq; [by eapply data_const_small_eq|].
  eapply outcome_bind_eq; [apply ptr_diff_eq; lia|]. simpl.
  do 2 wp_step. rewrite Hcap, decide_True by done.
  eapply outcome_bind_eq; [reflexivity|]. simpl. apply outcome_bind.
  do 2 wp_step. rewrite Hcap, decide_False by (intros ?; done).
  eapply (outcome_bind_eq _ _ _ 0).
  { erewrite bind_eq by (by eapply capacity_small_eq).
    unfold ret. by rewrite Hcap, Hmul. }
  unfold with_local.
  eapply outcome_bind_eq.
  { unfold ctor_capacity, bind. rewrite create_buf_fits by done.
    reflexivity. }
  simpl.
  set (t := fresh (dom vs)) in *. set (pt := fresh (dom hp)) in *.
  assert (this ≠ t) as Htt by congruence.
  apply outcome_finally.
  eapply outcome_bind_eq; [eapply data_const_small_eq; lk|].
  wp_step. eapply outcome_bind_eq; [reflexivity|]. do 2 wp_step.
  rewrite !insert_insert_eq.
  unfold outcome, bind, placement_new, bind, copy_construct. simpl.
  destruct (throws c) eqn:Hth.
  - (* the copy throws: the new block is given back *)
    unfold dtor, bind.
    erewrite (container_destroy_big data _ _ _ t pt 0 1 []);
      [|lk|lk|lia|simpl; lia].
    simpl. unfold released. rewrite lookup_insert_eq. simpl.
    by rewrite !delete_insert_eq, !delete_id by done.
  - (* it does not: the element is constructed past the block *)
    unfold construct_at. simpl. by rewrite lookup_insert_eq.
Qed.

(** C2: copy assignment (so also from a small source), the first
    mutable access to a shared buffer, [insert] (so also when it grows
    or unshares) and [erase] (so also when it unshares), under every
    schedule of throwing copy constructors: when the call ends in an
    exception, the size, the capacity and the elements of the instance
    are what they were before the call; and the behaviour of the call is
    defined, except for [insert] into an instance whose capacity is
    zero. *)
Theorem strong_guarantee w av this a op r :
  rep w av → av !! this = Some a →
  guarded_ok av a op →
  observe this w = Ok r w →
  (∀ w', run_guarded this op w = Throw w' → observe this w' = Ok r w') ∧
  (run_guarded this op w = Undef → acap a = 0 ∧ ∃ i x, op = GInsert i x).
Proof.
  destruct w as [vs hp c]. intros Hrep Ha Hok Hobs.
  assert (∀ w', rep w' av → observe this w' = Ok r w') as Hsame.
  { intros w' Hrep'.
    by eapply (observe_same _ w' av av this a r Hrep Ha Hrep' Ha). }
  assert (wp (run_guarded this op) (mk_world vs hp c)
             (λ _ _, True) (λ w', observe this w' = Ok r w') →
          (∀ w', run_guarded this op (mk_world vs hp c) = Throw w' →
                 observe this w' = Ok r w') ∧
          (run_guarded this op (mk_world vs hp c) = Undef →
           acap a = 0 ∧ ∃ i x, op = GInsert i x)) as Hwp.
  { unfold wp. intros H. split.
    - intros w' Hrun. by rewrite Hrun in H.
    - intros Hrun. by rewrite Hrun in H. }
  destruct op as [other| |i x|i j]; simpl in Hok.
  - apply Hwp. simpl.
    destruct Hok as [ao Hao]. destruct (decide (this = other)) as [<-|Hne].
    + unfold operator_assign. rewrite decide_True by done. by apply wp_ret.
    + eapply operator_assign_spec; [exact Hrep|exact Ha|exact Hao|done| |].
      * done.
      * intros w' _ _ Hrep'. by apply Hsame.
  - apply Hwp. simpl. apply wp_bind. destruct (is_shared av a) eqn:Hsh.
    + destruct a as [xs|p cp xs]; [done|]. simpl in Hsh.
      apply bool_decide_eq_true in Hsh.
      eapply data_shared_spec; [exact Hrep|exact Ha|done| |].
      * intros. by apply wp_ret.
      * intros c' _. apply Hsame. by eapply rep_copies.
    + pose proof (not_shared_exclusive _ _ _ _ Hrep Ha Hsh) as Hex.
      eapply wp_eq; [exact (data_exclusive_rep _ _ _ _ Hrep Ha Hex)|].
      by apply wp_ret.
  - destruct Hok as [Hi Hgf].
    destruct (decide (acap a = 0)) as [Hcap|Hcap].
    + split; [|eauto].
      assert (i = 0) as ->.
      { pose proof (size_le_acap _ _ _ _ Hrep Ha). lia. }
      pose proof (insert_no_capacity vs hp c av this a x Hrep Ha Hcap Hgf)
        as Hins.
      intros w' Hrun. simpl in Hrun.
      rewrite (bind_eq _ _ _ _ _ (data_const_rep _ _ _ _ _ _ Hrep Ha))
        in Hrun.
      unfold ptr_add in Hrun. simpl in Hrun.
      unfold bind in Hrun. rewrite Hins in Hrun.
      destruct (throws c); [|done]. simplify_eq.
      apply Hsame. by eapply rep_copies.
    + apply Hwp.
      eapply (run_mutation_spec _ _ _ _ _ _ (MInsert i x));
        [exact Hrep|exact Ha|simpl; split_and!; [done|lia|done]| |].
      * done.
      * intros w' _ Hrep'. by apply Hsame.
  - apply Hwp.
    eapply (run_mutation_spec _ _ _ _ _ _ (MErase i j));
      [exact Hrep|exact Ha|done|done|].
    intros w' _ Hrep'. by apply Hsame.
Qed.

(** Where the elements of an instance live after a mutator. *)
Inductive placement :=
  | Demoted                (* in the inline array *)
  | Unshared (cap : nat)   (* in a new private block of capacity [cap] *)
  | InPlace.               (* where they were *)

(** The choice each mutator makes. *)
Definition placement_of (av : gmap nat avec) (a : avec) (m : mutation)
    : placement :=
  match m with
  | MPushBack _ | MInsert _ _ =>
      if grows av a then Unshared (new_cap a) else InPlace
  | MPopBack | MErase _ _ =>
      if is_shared av a then Unshared (acap a) else InPlace
  | MReserve n =>
      if decide (n ≤ length (aelems a)) then InPlace
      else if is_shared av a && bool_decide (n ≤ SMALL_SIZE) then Demoted
      else if is_shared av a || bool_decide (acap a < n) then Unshared n
      else InPlace
  | MShrinkToFit =>
      if a_small a then InPlace
      else if decide (length (aelems a) < acap a) then
        if decide (length (aelems a) ≤ SMALL_SIZE) then Demoted
        else Unshared (length (aelems a))
      else InPlace
  | MClear => if is_shared av a then Demoted else InPlace
  end.

Definition elems_after (a : avec) (m : mutation) : list T :=
  let xs := aelems a in
  match m with
  | MPushBack x => xs ++ [x]
  | MPopBack => take (length xs - 1) xs
  | MInsert i x => take i xs ++ x :: drop i xs
  | MErase i j => take i xs ++ drop j xs
  | MClear => []
  | MReserve _ | MShrinkToFit => xs
  end.

Definition placed (hp : gmap nat buffer) (a : avec) (xs' : list T)
    (k : placement) (a' : avec) : Prop :=
  match k with
  | Demoted => a' = ASmall xs'
  | Unshared cap => ∃ p', hp !! p' = None ∧ a' = ABig p' cap xs'
  | InPlace => a' = with_elems xs' a
  end.

Lemma mutated_placed hp av a m a' :
  mutated hp av a m a' →
  placed hp a (elems_after a m) (placement_of av a m) a'.
Proof.
  destruct m as [x| |i x|i j|n| |]; simpl.
  - unfold inserted. rewrite take_ge, drop_ge by done.
    by destruct (grows av a).
  - unfold erased. rewrite (drop_ge _ (length (aelems a))), app_nil_r by done.
    by destruct (is_shared av a).
  - unfold inserted. by destruct (grows av a).
  - unfold erased. by destruct (is_shared av a).
  - unfold reserved.
    case_decide; [by intros ->; simpl; rewrite with_elems_id|].
    destruct (is_shared av a && bool_decide (n ≤ SMALL_SIZE)); [done|].
    destruct (is_shared av a || bool_decide (acap a < n)); [done|].
    intros ->. simpl. by rewrite with_elems_id.
  - unfold shrunk. destruct a as [xs|p cp xs]; simpl; [done|].
    repeat case_decide; simpl; done.
  - intros ->. unfold cleared. by destruct (is_shared av a).
Qed.

(** C3, as the code has it: a mutator called as [mutation_ok] asks has
    defined behaviour and leaves the elements [elems_after] in the place
    [placement_of] names.
    - [insert] and [push_back] build a new private block when the
      instance is full or shared, of twice the capacity when it is full
      and of the same capacity otherwise, whether or not the result
      would fit inline; otherwise they work in place.
    - [erase] and [pop_back] build a new private block of the same
      capacity when the instance is shared, whether or not the result
      would fit inline; otherwise they work in place.
    - [reserve(n)] with [n <= size()] changes nothing, so a shared
      instance stays shared.  With [size() < n]: a shared instance
      becomes inline when [n <= SMALL_SIZE]; otherwise an instance that
      is shared or has [capacity() < n] gets a new private block of
      capacity [n]; otherwise nothing changes.
    - [shrink_to_fit] changes nothing on an inline instance and on one
      with [size() = capacity()].  Otherwise, shared or not, the
      instance becomes inline when [size() <= SMALL_SIZE] and gets a new
      private block of capacity [size()] when not.
    - [clear] makes a shared instance the empty inline instance and
      destroys the elements of any other where they are.
    When the call throws nothing has changed. *)
Theorem mutator_placement w av this a m :
  rep w av → av !! this = Some a → mutation_ok (is_shared av a) a m →
  wp (run_mutation this m) w
     (λ _ w', ∃ a', rep w' (<[this := a']> av) ∧
                    placed (heap w) a (elems_after a m)
                      (placement_of av a m) a')
     (λ w', may_throw ∧ rep w' av).
Proof.
  destruct w as [vs hp c]. intros Hrep Ha Hok.
  eapply run_mutation_spec; [exact Hrep|exact Ha|done| |done].
  intros w' a' Hrep' Hm. exists a'. split; [done|].
  by apply mutated_placed.
Qed.

(** ** The public operations *)

Inductive operation :=
  | OCtor
  | OCopy (other : nat)
  | OAssign (this other : nat)
  | OMutate (this : nat) (m : mutation)
  | OSwap (this other : nat).

Definition run_op (o : operation) : M unit :=
  match o with
  | OCtor => _ <- ctor ;; ret tt
  | OCopy other => _ <- ctor_copy other ;; ret tt
  | OAssign this other => operator_assign this other
  | OMutate this m => run_mutation this m
  | OSwap this other => swap this other
  end.

(** The operation is called on live instances, and a mutator as
    [mutation_ok] asks. *)
Definition op_ok (av : gmap nat avec) (o : operation) : Prop :=
  match o with
  | OCtor => True
  | OCopy other => is_Some (av !! other)
  | OAssign this other | OSwap this other =>
      is_Some (av !! this) ∧ is_Some (av !! other)
  | OMutate this m =>
      ∃ a, av !! this = Some a ∧ mutation_ok (is_shared av a) a m
  end.

(** [size() <= capacity()] on every live instance. *)
Definition size_le_capacity (w : world) : Prop :=
  ∀ id, is_Some (vecs w !! id) →
    ∃ n c, size id w = Ok n w ∧ capacity id w = Ok c w ∧ n ≤ c.

Lemma wf_size_le_capacity w : wf w → size_le_capacity w.
Proof.
  destruct w as [vs hp c]. intros [av Hrep] id [v Hv].
  destruct (av !! id) as [a|] eqn:Ha.
  2:{ apply (proj2 (rep_none _ _ id Hrep)) in Ha. simpl in Ha, Hv.
      congruence. }
  exists (length (aelems a)), (acap a).
  split; [by eapply size_rep|]. split; [by eapply capacity_rep|].
  destruct a as [xs|p cp xs]; simpl.
  - by destruct (rep_small _ _ _ _ Hrep Ha) as (? & _ & ? & _).
  - by destruct (rep_big _ _ _ _ _ _ Hrep Ha) as (_ & ? & _ & ? & _).
Qed.

Lemma run_op_wf w av o :
  rep w av → op_ok av o →
  wp (run_op o) w (λ _ w', wf w') (λ w', wf w').
Proof.
  destruct w as [vs hp c]. intros Hrep Hok.
  assert (wf (mk_world vs hp c)) as Hwf by (by exists av).
  destruct o as [|other|this other|this m|this other]; simpl in *.
  - apply wp_bind. eapply ctor_spec; [exact Hrep|].
    intros t _ _ Hrep'. apply wp_ret. by eexists.
  - destruct Hok as [ao Hao]. apply wp_bind.
    eapply ctor_copy_spec; [exact Hrep|exact Hao| |].
    + intros t w' _ Hrep' _. apply wp_ret. by eexists.
    + intros w' _ _ Hrep'. by eexists.
  - destruct Hok as [[a Ha] [ao Hao]].
    destruct (decide (this = other)) as [<-|Hne].
    + unfold operator_assign. rewrite decide_True by done. by apply wp_ret.
    + eapply operator_assign_spec; [exact Hrep|exact Ha|exact Hao|done| |].
      * intros w' Hrep' _. by eexists.
      * intros w' _ _ Hrep'. by eexists.
  - destruct Hok as (a & Ha & Hm).
    eapply run_mutation_spec; [exact Hrep|exact Ha|done| |].
    + intros w' a' Hrep' _. by eexists.
    + intros w' _ Hrep'. by eexists.
  - destruct Hok as [[a Ha] [ao Hao]].
    destruct (decide (this = other)) as [<-|Hne].
    + unfold swap. rewrite swap_fuel_S, decide_True by done. by apply wp_ret.
    + eapply swap_spec; [exact Hrep|exact Ha|exact Hao|done| |].
      * intros w' Hrep'. by eexists.
      * intros w' av' _ _ _ Hrep'. by eexists.
Qed.

(** Every public operation that is called as [op_ok] asks has defined
    behaviour and, whether it returns or throws, ends in a state that
    satisfies the invariant again and in which [size() <= capacity()]
    on every live instance.  [op_ok] asks [push_back] and [insert] for
    an instance whose capacity is not zero. *)
Lemma size_le_capacity_preserved w av o :
  rep w av → op_ok av o →
  wp (run_op o) w
     (λ _ w', wf w' ∧ size_le_capacity w')
     (λ w', wf w' ∧ size_le_capacity w').
Proof.
  intros Hrep Hok.
  eapply wp_mono; [by eapply run_op_wf| |].
  - intros [] w' Hwf. split; [done|]. by apply wf_size_le_capacity.
  - intros w' Hwf. split; [done|]. by apply wf_size_le_capacity.
Qed.

(** C4, where the code breaks it: on an instance whose capacity is
    zero, which is the empty inline instance when [SMALL_SIZE] is zero,
    [push_back] asks for a block of twice the capacity, which is zero,
    and constructs the new element past the end of that block.  No state
    with [size() <= capacity()] follows the call: its behaviour is not
    defined, unless the copy of the element throws first, and then
    nothing but the count of copies has changed. *)
Theorem push_back_no_capacity w av this a x :
  rep w av → av !! this = Some a → acap a = 0 → growth_fits a →
  push_back this x w = if throws (copies w) then Throw (tick w) else Undef.
Proof.
  destruct w as [vs hp c]. intros Hrep Ha Hcap Hgf. unfold push_back.
  rewrite (bind_eq _ _ _ _ _ (end_const_rep _ _ _ _ _ _ Hrep Ha)).
  assert (length (aelems a) = 0) as ->.
  { pose proof (size_le_acap _ _ _ _ Hrep Ha). lia. }
  unfold bind.
  rewrite (insert_no_capacity vs hp c av this a x Hrep Ha Hcap Hgf). simpl.
  by destruct (throws c).
Qed.

(** The reference count of the block at [p]. *)
Definition ref_count_at (w : world) (p : nat) : option nat :=
  ref_count_ <$> heap w !! p.

Lemma ref_count_rep w av id p cp xs :
  rep w av → av !! id = Some (ABig p cp xs) →
  ref_count_at w p = Some (owners av p).
Proof.
  intros Hrep Ha. unfold ref_count_at.
  destruct (rep_big _ _ _ _ _ _ Hrep Ha) as (_ & rc & -> & _ & _ & -> & _).
  done.
Qed.

(** C5, as the code has it: after [a = b] on distinct instances, [b] is
    as it was and [a] has the size and the elements of [b]; when [b] is
    in big mode, [a] refers to the block of [b], reports its capacity,
    no element has been copied, and the reference count of the block has
    gone up by one --- unless [a] referred to that very block already,
    in which case its release and the retain cancel and the count is
    what it was.  The call can throw only when [b] is in small mode, and
    then nothing has changed. *)
Theorem copy_assign_adopts w av a b aa ab :
  rep w av → av !! a = Some aa → av !! b = Some ab → a ≠ b →
  wp (operator_assign a b) w
     (λ _ w',
        observe b w' = Ok (aobs ab) w' ∧
        size a w' = Ok (length (aelems ab)) w' ∧
        contents a w' = Ok (aelems ab) w' ∧
        ∀ p cp ys, ab = ABig p cp ys →
          get_is_small_ a w' = Ok false w' ∧
          get_buf_ a w' = Ok p w' ∧
          capacity a w' = Ok cp w' ∧
          copies w' = copies w ∧
          ∃ rc, ref_count_at w p = Some rc ∧
                ref_count_at w' p
                = Some (if big_at p aa then rc else rc + 1))
     (λ w', may_throw ∧ a_small ab = true ∧ rep w' av).
Proof.
  destruct w as [vs hp c]. intros Hrep Ha Hb Hne.
  eapply operator_assign_spec; [exact Hrep|exact Ha|exact Hb|done| |].
  2:{ intros w' Hth [ys ->] Hrep'. done. }
  intros [vs' hp' c'] Hrep' Hc.
  assert ((<[a := ab]> av) !! a = Some ab) as Ha' by apply lookup_insert_eq.
  assert ((<[a := ab]> av) !! b = Some ab) as Hb'
    by (by rewrite lookup_insert_ne).
  split; [by eapply observe_rep|].
  split; [by eapply size_rep|].
  split; [by eapply contents_rep|].
  intros p cp ys ->.
  destruct (rep_big _ _ _ _ _ _ Hrep' Ha') as (Hv' & _). simpl in Hv'.
  split; [exact (get_is_small_rep _ _ _ _ _ _ Hrep' Ha')|].
  split; [by eapply get_buf_eq|].
  split; [exact (capacity_rep _ _ _ _ _ _ Hrep' Ha')|].
  split; [by eapply Hc|].
  exists (owners av p).
  split; [by eapply ref_count_rep|].
  rewrite (ref_count_rep _ _ _ _ _ _ Hrep' Ha'). f_equal.
  pose proof (owners_insert av a (ABig p cp ys) p) as Hins.
  rewrite Ha in Hins. unfold nb in Hins. rewrite big_at_same in Hins.
  destruct (big_at p aa); lia.
Qed.

(** ** [reserve] within the capacities that can be allocated

    When the block that [reserve(n)] allocates, if it allocates one, has
    a byte size that does not wrap, [reserve(n)] has defined behaviour
    and keeps the size and the elements.  With [n <= size()] nothing
    changes at all.  With [n > size()]: a shared instance with
    [n <= SMALL_SIZE] is demoted to the inline array; otherwise a shared
    instance, and any instance with [n > capacity()], gets a new block
    of capacity exactly [n] with reference count one; otherwise nothing
    changes.  When the call throws nothing has changed. *)
Lemma reserve_contract w av this a n :
  rep w av → av !! this = Some a →
  (reserve_allocates (is_shared av a) a n = true → fits n) →
  wp (reserve this n) w
     (λ _ w', ∃ a',
        rep w' (<[this := a']> av) ∧
        size this w' = Ok (length (aelems a)) w' ∧
        contents this w' = Ok (aelems a) w' ∧
        (n ≤ length (aelems a) → w' = w) ∧
        (length (aelems a) < n →
         if is_shared av a && bool_decide (n ≤ SMALL_SIZE)
         then a' = ASmall (aelems a) ∧
              get_is_small_ this w' = Ok true w'
         else if is_shared av a || bool_decide (acap a < n)
         then ∃ p', heap w !! p' = None ∧ a' = ABig p' n (aelems a) ∧
                    capacity this w' = Ok n w' ∧
                    ref_count_at w' p' = Some 1
         else w' = w))
     (λ w', may_throw ∧ rep w' av).
Proof.
  destruct w as [vs hp c]. intros Hrep Ha Hal.
  eapply reserve_spec; [exact Hrep|exact Ha|exact Hal| |done].
  intros [vs' hp' c'] a' Hrep' Hres Hsame. exists a'.
  assert ((<[this := a']> av) !! this = Some a') as Ha'
    by apply lookup_insert_eq.
  assert (aelems a' = aelems a) as Hel.
  { unfold reserved in Hres. case_decide; [by subst|].
    destruct (is_shared av a && bool_decide (n ≤ SMALL_SIZE)); [by subst|].
    destruct (is_shared av a || bool_decide (acap a < n)); [|by subst].
    by destruct Hres as (p' & _ & ->). }
  split; [done|].
  split; [rewrite <-Hel; by eapply size_rep|].
  split; [rewrite <-Hel; by eapply contents_rep|].
  unfold reserved in Hres. split.
  - intros Hn. rewrite decide_True in Hres by done. by apply Hsame.
  - intros Hn. rewrite decide_False in Hres by lia.
    destruct (is_shared av a && bool_decide (n ≤ SMALL_SIZE)).
    { split; [done|]. subst a'.
      exact (get_is_small_rep _ _ _ _ _ _ Hrep' Ha'). }
    destruct (is_shared av a || bool_decide (acap a < n)); [|by apply Hsame].
    destruct Hres as (p' & Hp' & ->). exists p'.
    split; [done|]. split; [done|].
    split; [exact (capacity_rep _ _ _ _ _ _ Hrep' Ha')|].
    rewrite (ref_count_rep _ _ _ _ _ _ Hrep' Ha'). f_equal.
    by eapply (owners_fresh_one _ _ _ _ _ _ Hrep).
Qed.

(** The capacity of the minimal representation of [n] elements. *)
Definition minimal_capacity (n : nat) : nat :=
  if decide (n ≤ SMALL_SIZE) then SMALL_SIZE else n.

(** Under the same condition and for [n > size()], [reserve(n)]
    followed by [shrink_to_fit()] has defined behaviour and, when no
    copy throws, keeps the size and the elements and ends in the minimal
    representation: small mode with capacity [SMALL_SIZE] when the size
    is at most [SMALL_SIZE], big mode with capacity exactly the size
    otherwise. *)
Lemma reserve_shrink_round_trip w av this a n :
  rep w av → av !! this = Some a → length (aelems a) < n →
  (reserve_allocates (is_shared av a) a n = true → fits n) →
  wp (reserve this n ;; shrink_to_fit this) w
     (λ _ w',
        observe this w'
        = Ok (length (aelems a), minimal_capacity (length (aelems a)),
              aelems a) w' ∧
        get_is_small_ this w'
        = Ok (bool_decide (length (aelems a) ≤ SMALL_SIZE)) w')
     (λ w', may_throw ∧ wf w').
Proof.
  destruct w as [vs hp c]. intros Hrep Ha Hn Hal. apply wp_bind.
  eapply reserve_spec; [exact Hrep|exact Ha|exact Hal| |].
  2:{ intros w' Hth Hrep'. split; [done|]. by exists av. }
  intros [vs1 hp1 c1] a1 Hrep1 Hres _.
  eapply shrink_to_fit_spec; [exact Hrep1|apply lookup_insert_eq| |].
  2:{ intros w' Hth Hrep'. split; [done|]. by eexists. }
  intros [vs2 hp2 c2] a2 Hrep2 Hshr. rewrite insert_insert_eq in Hrep2.
  assert ((<[this := a2]> av) !! this = Some a2) as Ha2
    by apply lookup_insert_eq.
  assert (a2 = ASmall (aelems a) ∧ length (aelems a) ≤ SMALL_SIZE ∨
          (∃ p', a2 = ABig p' (length (aelems a)) (aelems a)) ∧
          SMALL_SIZE < length (aelems a)) as Hcase.
  { assert (∀ p cp, a1 = ABig p cp (aelems a) → length (aelems a) < cp →
              a2 = ASmall (aelems a) ∧ length (aelems a) ≤ SMALL_SIZE ∨
              (∃ p', a2 = ABig p' (length (aelems a)) (aelems a)) ∧
              SMALL_SIZE < length (aelems a)) as Hbig.
    { intros p cp -> Hcp. simpl in Hshr.
      rewrite decide_True in Hshr by done. case_decide.
      - by left.
      - right. destruct Hshr as (p' & _ & ->). split; [eauto|lia]. }
    assert (a1 = a → is_shared av a || bool_decide (acap a < n) = false →
              a2 = ASmall (aelems a) ∧ length (aelems a) ≤ SMALL_SIZE ∨
              (∃ p', a2 = ABig p' (length (aelems a)) (aelems a)) ∧
              SMALL_SIZE < length (aelems a)) as Hkeep.
    { intros -> [_ Hcap%bool_decide_eq_false]%orb_false_iff.
      destruct a as [xs|p cp xs].
      - simpl in Hshr. subst a2. left. split; [done|].
        by destruct (rep_small _ _ _ _ Hrep Ha) as (? & _ & ? & _).
      - eapply Hbig; [done|]. simpl in *. lia. }
    unfold reserved in Hres. rewrite decide_False in Hres by lia.
    destruct (is_shared av a && bool_decide (n ≤ SMALL_SIZE)) eqn:Hd.
    { apply andb_true_iff in Hd as [_ HnN%bool_decide_eq_true].
      subst a1. simpl in Hshr. subst a2. left. split; [done|lia]. }
    destruct (is_shared av a || bool_decide (acap a < n)) eqn:Hu.
    - destruct Hres as (p' & _ & ->). by eapply Hbig.
    - by apply Hkeep. }
  unfold minimal_capacity.
  destruct Hcase as [[-> Hle]|[[p' ->] Hgt]].
  - rewrite decide_True, bool_decide_eq_true_2 by done.
    split; [exact (observe_rep _ _ _ _ Hrep2 Ha2)|].
    exact (get_is_small_rep _ _ _ _ _ _ Hrep2 Ha2).
  - rewrite decide_False, bool_decide_eq_false_2 by lia.
    split; [exact (observe_rep _ _ _ _ Hrep2 Ha2)|].
    exact (get_is_small_rep _ _ _ _ _ _ Hrep2 Ha2).
Qed.

(** ** [reserve] with a capacity whose byte size wraps *)

(** Copying into an array that is too short: when no copy throws, the
    loop goes on until it constructs an element past the end. *)
Lemma uninitialized_copy_overrun rs rd cs ys :
  (∀ k, throws k = false) → rs ≠ rd →
  ∀ n done w l,
    region_slots w rs = Some (pad cs ys) → region_slots w rd = Some l →
    done ≤ length l → length l < done + n → done + n ≤ length ys →
    uninitialized_copy_loop (rs, 0) n (rd, 0) done w = Undef.
Proof.
  intros Hno Hne. induction n as [|n IH];
    intros done w l Hs Hd Hdone Hover Hsrc; [lia|].
  simpl. unfold ptr_add. simpl.
  destruct (lookup_lt_is_Some_2 ys done) as [y Hy]; [lia|].
  rewrite (bind_eq _ _ _ _ _
             (load_eq _ _ _ _ _ Hs (pad_lookup_lt cs _ _ _ Hy))).
  unfold bind at 1. unfold try_catch, placement_new, bind, copy_construct.
  rewrite Hno.
  destruct (decide (done < length l)) as [Hlt|Hge].
  - rewrite (construct_at_eq (tick w) rd done l y)
      by (by rewrite ?region_slots_tick).
    pose proof (region_updated_write (tick w) rd l (<[done := Some y]> l)
                  ltac:(by rewrite region_slots_tick)) as Hup.
    eapply (IH _ _ (<[done := Some y]> l)).
    + rewrite (region_updated_other _ _ _ _ _ Hup) by done.
      by rewrite region_slots_tick.
    + by eapply region_updated_slots.
    + rewrite length_insert. lia.
    + rewrite length_insert. lia.
    + lia.
  - unfold construct_at. simpl.
    change (mk_world (vecs w) (heap w) (S (copies w))) with (tick w).
    rewrite region_slots_tick, Hd. by rewrite decide_False.
Qed.

(** [unshare(n)] when the block allocated for [n] has fewer slots than
    there are elements. *)
Lemma unshare_overrun dr vs hp c av this a n k :
  (∀ i, throws i = false) →
  rep (mk_world vs hp c) av → av !! this = Some a →
  alloc_slots n = Some k → k < length (aelems a) →
  unshare_rec dr this n (mk_world vs hp c) = Undef.
Proof.
  intros Hno Hrep Ha Hal Hk. unfold unshare_rec.
  pose proof (fresh_heap hp) as Hfresh.
  set (p' := fresh (dom hp)) in *.
  assert (create_buf n (mk_world vs hp c)
          = Ok p' (mk_world vs (<[p' := mk_buffer n 1 (replicate k None)]> hp)
                     c)) as Hcreate.
  { unfold create_buf. by rewrite Hal. }
  rewrite (bind_eq _ _ _ _ _ Hcreate).
  set (hp1 := <[p' := mk_buffer n 1 (replicate k None)]> hp).
  assert (hp1 !! p' = Some (mk_buffer n 1 (replicate k None))) as Hp1
    by apply lookup_insert_eq.
  assert (∃ src cs,
      data_const this (mk_world vs hp1 c) = Ok (src, 0) (mk_world vs hp1 c) ∧
      region_slots (mk_world vs hp1 c) src = Some (pad cs (aelems a)) ∧
      src ≠ in_buf p' ∧
      ∃ sm st, vs !! this = Some (mk_vec (length (aelems a)) sm st))
    as (src & cs & Hsrc & Hslots & Hne & sm & st & Hv).
  { destruct a as [xs|p cp xs]; simpl.
    - destruct (rep_small _ _ _ _ Hrep Ha) as (st & Hv & Hn & Hst).
      exists (in_small this), SMALL_SIZE. split; [by eapply data_const_small_eq|].
      simpl in *. rewrite Hv. simpl. rewrite Hst. eauto.
    - destruct (rep_big _ _ _ _ _ _ Hrep Ha) as (Hv & rc & Hb & _).
      simpl in *. assert (p ≠ p') by congruence.
      exists (in_buf p), cp. split.
      { eapply data_const_big_eq; [done|]. unfold hp1.
        by rewrite lookup_insert_ne. }
      simpl. unfold hp1. rewrite lookup_insert_ne, Hb by done. simpl.
      split; [done|]. split; [congruence|]. eauto. }
  unfold bind at 1. unfold try_catch.
  rewrite (bind_eq _ _ _ _ _ Hsrc).
  rewrite (bind_eq _ _ _ _ _ (size_eq _ _ _ _ _ Hv)). simpl.
  rewrite (bind_eq _ _ _ _ _ (buffer_data_eq _ _ _ _ _ Hp1)).
  unfold uninitialized_copy_n.
  rewrite (uninitialized_copy_overrun src (in_buf p') cs (aelems a) Hno Hne
             (length (aelems a)) 0 _ (replicate k None)); [done|done| | | |].
  - simpl. by rewrite Hp1.
  - lia.
  - rewrite length_replicate. lia.
  - lia.
Qed.

(** The same for [reserve(n)] when it allocates. *)
Lemma reserve_overrun vs hp c av this a n k :
  (∀ i, throws i = false) →
  rep (mk_world vs hp c) av → av !! this = Some a →
  reserve_allocates (is_shared av a) a n = true →
  alloc_slots n = Some k → k < length (aelems a) →
  reserve this n (mk_world vs hp c) = Undef.
Proof.
  intros Hno Hrep Ha Hres Hal Hk. unfold reserve_allocates in Hres.
  apply andb_true_iff in Hres as [[Hn%bool_decide_eq_true Hdem]%andb_true_iff
                                   Hgrow].
  apply negb_true_iff in Hdem.
  unfold reserve.
  rewrite (bind_eq _ _ _ _ _ (size_rep _ _ _ _ _ _ Hrep Ha)).
  rewrite decide_True by done.
  rewrite (bind_eq _ _ _ _ _ (shared_buf_rep _ _ _ _ _ _ Hrep Ha)).
  rewrite Hdem.
  rewrite (bind_eq _ _ _ _ _ (shared_buf_rep _ _ _ _ _ _ Hrep Ha)).
  assert ((if is_shared av a then ret true
           else c0 <- capacity this ;; ret (bool_decide (c0 < n)))
            (mk_world vs hp c) = Ok true (mk_world vs hp c)) as Hg.
  { destruct (is_shared av a); [done|].
    rewrite (bind_eq _ _ _ _ _ (capacity_rep _ _ _ _ _ _ Hrep Ha)).
    simpl in Hgrow. by rewrite Hgrow. }
  rewrite (bind_eq _ _ _ _ _ Hg).
  by eapply unshare_overrun.
Qed.

(** C6, where the code breaks it: [sizeof(buffer) + sizeof(T) * n] is
    computed on [std::size_t], so for a large [n] the block that
    [reserve(n)] allocates has room for [k] elements only; when
    [k < size()] the copy of the elements runs past the end of the
    block.  The instance does not obtain a private buffer of capacity
    [n]: the behaviour of the call is not defined. *)
Theorem reserve_overflow w av this a n k :
  (∀ i, throws i = false) →
  rep w av → av !! this = Some a →
  reserve_allocates (is_shared av a) a n = true →
  alloc_slots n = Some k → k < length (aelems a) →
  reserve this n w = Undef.
Proof. destruct w as [vs hp c]. apply reserve_overrun. Qed.

(** C7, where the code breaks it, for the same reason as C6: when the
    block that [reserve(n)] allocates has room for fewer elements than
    the instance holds, [reserve(n); shrink_to_fit()] does not reach
    [shrink_to_fit()].  The behaviour of [reserve(n)] is not defined,
    and the capacity is not returned to the minimal representation. *)
Theorem reserve_shrink_overflow w av this a n k :
  (∀ i, throws i = false) →
  rep w av → av !! this = Some a →
  reserve_allocates (is_shared av a) a n = true →
  alloc_slots n = Some k → k < length (aelems a) →
  (reserve this n ;; shrink_to_fit this) w = Undef.
Proof.
  destruct w as [vs hp c]. intros Hno Hrep Ha Hres Hal Hk. unfold bind.
  by rewrite (reserve_overrun vs hp c av this a n k).
Qed.

(** ** swap twice, the empty range, clear *)

Lemma insert_swap_back (av : gmap nat avec) a b aa ab :
  a ≠ b → av !! a = Some aa → av !! b = Some ab →
  <[a := aa]> (<[b := ab]> (<[a := ab]> (<[b := aa]> av))) = av.
Proof.
  intros Hne Ha Hb. apply map_eq. intros k.
  destruct (decide (k = a)) as [->|]; [by rewrite lookup_insert_eq|].
  rewrite (lookup_insert_ne _ a) by done.
  destruct (decide (k = b)) as [->|]; [by rewrite lookup_insert_eq|].
  by rewrite !lookup_insert_ne by done.
Qed.

(** C8: [a.swap(b); a.swap(b);] has defined behaviour and, when no copy
    throws, gives back to [a] and to [b] the size, the capacity and the
    elements they had (and the whole state satisfies the invariant for
    the same abstract contents).  A copy can throw only when one of the
    two is in small mode. *)
Theorem swap_twice_restores w av a b aa ab ra rb :
  rep w av → av !! a = Some aa → av !! b = Some ab →
  observe a w = Ok ra w → observe b w = Ok rb w →
  wp (swap a b ;; swap a b) w
     (λ _ w', rep w' av ∧
              observe a w' = Ok ra w' ∧ observe b w' = Ok rb w')
     (λ w', may_throw ∧ a_small aa || a_small ab = true ∧ wf w').
Proof.
  destruct w as [vs hp c]. intros Hrep Ha Hb Hoa Hob.
  assert (∀ w', rep w' av →
            rep w' av ∧ observe a w' = Ok ra w' ∧ observe b w' = Ok rb w')
    as Hback.
  { intros w' Hrep'. split; [done|].
    split; [exact (observe_same _ w' av av a aa ra Hrep Ha Hrep' Ha Hoa)|].
    exact (observe_same _ w' av av b ab rb Hrep Hb Hrep' Hb Hob). }
  destruct (decide (a = b)) as [<-|Hne].
  { unfold swap. rewrite swap_fuel_S, decide_True by done.
    apply wp_bind, wp_ret, wp_ret. by apply Hback. }
  apply wp_bind.
  eapply swap_spec; [exact Hrep|exact Ha|exact Hb|done| |].
  2:{ intros w' av' Hth Hsm _ Hrep'. split; [done|]. split; [done|].
      by exists av'. }
  intros [vs1 hp1 c1] Hrep1.
  eapply swap_spec;
    [exact Hrep1|apply lookup_insert_eq
    |by rewrite lookup_insert_ne, lookup_insert_eq|done| |].
  - intros w' Hrep'. rewrite insert_swap_back in Hrep' by done.
    by apply Hback.
  - intros w' av' Hth Hsm _ Hrep'. split; [done|].
    split; [by rewrite orb_comm|]. by exists av'.
Qed.

(** C9, as the code has it: [erase(pos, pos)] keeps the size, the
    capacity and the elements.  On an instance that is not shared it
    changes nothing and returns [pos].  On a shared instance its call of
    the mutable [begin()] unshares: the elements are copied to a new
    block of the same capacity, and the iterator returned is the
    position of [pos] in that new block; when one of these copies throws
    the instance is as it was. *)
Theorem erase_empty_range w av this a i :
  rep w av → av !! this = Some a → i ≤ length (aelems a) →
  wp (erase this (region_of this a, i) (region_of this a, i)) w
     (λ q w',
        observe this w' = Ok (aobs a) w' ∧
        if is_shared av a
        then ∃ p', heap w !! p' = None ∧ q = (in_buf p', i) ∧
                   rep w' (<[this := ABig p' (acap a) (aelems a)]> av) ∧
                   copies w' = copies w + length (aelems a)
        else q = (region_of this a, i) ∧ w' = w)
     (λ w', may_throw ∧ is_shared av a = true ∧
            observe this w' = Ok (aobs a) w').
Proof.
  destruct w as [vs hp c]. intros Hrep Ha Hi. unfold erase.
  eapply wp_bind_eq; [exact (data_const_rep _ _ _ _ _ _ Hrep Ha)|].
  eapply wp_bind_eq; [apply ptr_diff_eq; lia|]. rewrite Nat.sub_0_r.
  eapply wp_bind_eq; [exact (data_const_rep _ _ _ _ _ _ Hrep Ha)|].
  eapply wp_bind_eq; [apply ptr_diff_eq; lia|]. rewrite Nat.sub_0_r.
  rewrite decide_True by done.
  destruct (is_shared av a) eqn:Hsh.
  - destruct a as [xs|p cp xs]; [done|]. simpl in Hsh.
    apply bool_decide_eq_true in Hsh.
    apply wp_bind. eapply data_shared_spec; [exact Hrep|exact Ha|done| |].
    + intros p' w' Hp' Hrep' Hc. apply wp_ret. unfold ptr_add. simpl.
      split.
      { eapply (observe_rep _ _ this (ABig p' cp xs));
          [exact Hrep'|apply lookup_insert_eq]. }
      by exists p'.
    + intros c' Hth. split; [done|]. split; [done|].
      eapply observe_rep; [|exact Ha]. by eapply rep_copies.
  - pose proof (not_shared_exclusive _ _ _ _ Hrep Ha Hsh) as Hex.
    eapply wp_bind_eq; [exact (data_exclusive_rep _ _ _ _ Hrep Ha Hex)|].
    apply wp_ret. unfold ptr_add. simpl.
    split; [by eapply observe_rep|done].
Qed.

(** C10: on an instance in big mode whose block no other instance
    refers to, [clear()] returns normally under every schedule of
    throwing copy constructors, performs no copy, and leaves the
    instance in big mode on the same block, which is still allocated
    with the capacity it had and holds no element any more. *)
Theorem clear_private_big w av this p cp xs :
  rep w av → av !! this = Some (ABig p cp xs) → owners av p = 1 →
  ∃ w', clear this w = Ok tt w' ∧
        rep w' (<[this := ABig p cp []]> av) ∧
        get_is_small_ this w' = Ok false w' ∧
        get_buf_ this w' = Ok p w' ∧
        capacity this w' = Ok cp w' ∧
        size this w' = Ok 0 w' ∧
        heap w' !! p = Some (mk_buffer cp 1 (replicate cp None)) ∧
        copies w' = copies w.
Proof.
  destruct w as [vs hp c]. intros Hrep Ha Hown.
  assert (is_shared av (ABig p cp xs) = false) as Hsh.
  { simpl. apply bool_decide_eq_false. lia. }
  pose proof (clear_spec vs hp c av this (ABig p cp xs)
    (λ _ w', rep w' (<[this := ABig p cp []]> av) ∧ copies w' = c)
    (λ _, False) Hrep Ha) as Hwp.
  destruct (wp_ok _ _ _ _ (Hwp ltac:(
      intros w' Hrep' Hc; unfold cleared in Hrep'; rewrite Hsh in Hrep';
      done)) ltac:(tauto))
    as ([] & [vs' hp' c'] & Hrun & Hrep' & Hc).
  eexists. split; [exact Hrun|].
  assert ((<[this := ABig p cp []]> av) !! this = Some (ABig p cp []))
    as Ha' by apply lookup_insert_eq.
  destruct (rep_big _ _ _ _ _ _ Hrep' Ha')
    as (Hv' & rc & Hb' & _ & _ & Hrc & _).
  simpl in Hv', Hb'.
  split; [done|].
  split; [exact (get_is_small_rep _ _ _ _ _ _ Hrep' Ha')|].
  split; [by eapply get_buf_eq|].
  split; [exact (capacity_rep _ _ _ _ _ _ Hrep' Ha')|].
  split; [exact (size_rep _ _ _ _ _ _ Hrep' Ha')|].
  split; [|done].
  simpl. rewrite Hb'. f_equal. f_equal.
  - rewrite Hrc.
    pose proof (owners_insert av this (ABig p cp []) p) as Hins.
    rewrite Ha in Hins. unfold nb in Hins. rewrite !big_at_same in Hins.
    lia.
  - unfold pad. simpl. by rewrite Nat.sub_0_r.
Qed.

(** * Further properties of the member functions *)

(** ** insert and erase *)

(** X1: on an instance whose capacity is not zero, and whose doubled
    capacity has a byte size that does not wrap when the instance is
    full, [insert(begin() + i, x)] with [i <= size()] puts [x] before
    the element at index [i]; the size grows by one; the capacity is the
    old one, doubled exactly when the instance was full; the iterator
    returned is [begin() + i] of the instance as it now is and
    designates the new element.  When a copy throws the instance reads
    as before. *)
Theorem insert_result w av this a i x :
  rep w av → av !! this = Some a → i ≤ length (aelems a) →
  0 < acap a → growth_fits a →
  wp (b <- begin_const this ;; insert this (ptr_add b i) x) w
     (λ q w',
        observe this w'
        = Ok (S (length (aelems a)),
              (if decide (length (aelems a) = acap a)
               then acap a * 2 else acap a),
              take i (aelems a) ++ x :: drop i (aelems a)) w' ∧
        (b <- begin_const this ;; ret (ptr_add b i)) w' = Ok q w' ∧
        load q w' = Ok x w')
     (λ w', may_throw ∧ observe this w' = Ok (aobs a) w').
Proof.
  destruct w as [vs hp c]. intros Hrep Ha Hi Hpos Hgf.
  eapply wp_bind_eq; [exact (data_const_rep _ _ _ _ _ _ Hrep Ha)|].
  unfold ptr_add. simpl.
  eapply insert_spec; [exact Hrep|exact Ha|done|done|done| |].
  2:{ intros w' Hth Hrep'. split; [done|]. by eapply observe_rep. }
  intros [vs' hp' c'] a' Hrep' Hins.
  assert ((<[this := a']> av) !! this = Some a') as Ha'
    by apply lookup_insert_eq.
  assert (aelems a' = take i (aelems a) ++ x :: drop i (aelems a) ∧
          acap a' = new_cap a) as [Hel Hcap].
  { unfold inserted, grows in Hins.
    destruct (bool_decide (length (aelems a) = acap a)) eqn:Hfull;
      simpl in Hins.
    - by destruct Hins as (p' & _ & ->).
    - apply bool_decide_eq_false in Hfull.
      destruct (is_shared av a).
      + by destruct Hins as (p' & _ & ->).
      + subst a'. rewrite aelems_with_elems, acap_with_elems.
        unfold new_cap. by rewrite decide_False. }
  split.
  { rewrite (observe_rep _ _ _ _ Hrep' Ha'). unfold aobs.
    rewrite Hel, Hcap. unfold new_cap. do 3 f_equal.
    rewrite length_app, length_take. simpl. rewrite length_drop. lia. }
  split.
  { by rewrite (bind_eq _ _ _ _ _ (data_const_rep _ _ _ _ _ _ Hrep' Ha')). }
  eapply load_rep; [exact Hrep'|exact Ha'|].
  rewrite Hel. by apply insert_elems_lookup.
Qed.

(** X2: [erase(begin() + i, begin() + j)] with [i <= j <= size()]
    removes the elements at the indices [i .. j) and keeps the capacity;
    the iterator returned is [begin() + i] of the instance as it now
    is: it designates the element that followed the range, and is
    [end()] when the range reached the end.  A copy can throw only on a
    shared instance, which then reads as before. *)
Theorem erase_result w av this a i j :
  rep w av → av !! this = Some a → i ≤ j → j ≤ length (aelems a) →
  wp (b <- begin_const this ;; erase this (ptr_add b i) (ptr_add b j)) w
     (λ q w',
        observe this w'
        = Ok (length (aelems a) - (j - i), acap a,
              take i (aelems a) ++ drop j (aelems a)) w' ∧
        (b <- begin_const this ;; ret (ptr_add b i)) w' = Ok q w' ∧
        (∀ y, aelems a !! j = Some y → load q w' = Ok y w') ∧
        (j = length (aelems a) → end_const this w' = Ok q w'))
     (λ w', may_throw ∧ is_shared av a = true ∧
            observe this w' = Ok (aobs a) w').
Proof.
  destruct w as [vs hp c]. intros Hrep Ha Hij Hj.
  eapply wp_bind_eq; [exact (data_const_rep _ _ _ _ _ _ Hrep Ha)|].
  unfold ptr_add. simpl.
  eapply erase_spec; [exact Hrep|exact Ha|done|done| |].
  2:{ intros w' Hth Hsh Hrep'. split; [done|]. split; [done|].
      by eapply observe_rep. }
  intros [vs' hp' c'] a' Hrep' Her _.
  assert ((<[this := a']> av) !! this = Some a') as Ha'
    by apply lookup_insert_eq.
  assert (aelems a' = take i (aelems a) ++ drop j (aelems a) ∧
          acap a' = acap a) as [Hel Hcap].
  { unfold erased in Her. destruct (is_shared av a).
    - by destruct Her as (p' & _ & ->).
    - subst a'. by rewrite aelems_with_elems, acap_with_elems. }
  assert (length (aelems a') = length (aelems a) - (j - i)) as Hlen.
  { rewrite Hel, length_app, length_take, length_drop. lia. }
  split.
  { rewrite (observe_rep _ _ _ _ Hrep' Ha'). unfold aobs.
    by rewrite Hlen, Hcap, Hel. }
  split.
  { by rewrite (bind_eq _ _ _ _ _ (data_const_rep _ _ _ _ _ _ Hrep' Ha')). }
  split.
  - intros y Hy. eapply load_rep; [exact Hrep'|exact Ha'|].
    rewrite Hel. by apply erase_elems_lookup.
  - intros ->. rewrite (end_const_rep _ _ _ _ _ _ Hrep' Ha').
    do 2 f_equal. lia.
Qed.

(** X3: on an instance whose capacity is not zero, and whose doubled
    capacity has a byte size that does not wrap when the instance is
    full, [erase(insert(begin() + i, x))], the erase being called on the
    iterator that [insert] returned, gives back the size and the
    elements the instance had, and returns [begin() + i].  Only the
    insertion can throw, and then the instance reads as before. *)
Theorem insert_erase_round_trip w av this a i x :
  rep w av → av !! this = Some a → i ≤ length (aelems a) →
  0 < acap a → growth_fits a →
  wp (b <- begin_const this ;;
      q <- insert this (ptr_add b i) x ;;
      erase1 this q) w
     (λ q' w',
        size this w' = Ok (length (aelems a)) w' ∧
        contents this w' = Ok (aelems a) w' ∧
        (b <- begin_const this ;; ret (ptr_add b i)) w' = Ok q' w')
     (λ w', may_throw ∧ observe this w' = Ok (aobs a) w').
Proof.
  destruct w as [vs hp c]. intros Hrep Ha Hi Hpos Hgf.
  eapply wp_bind_eq; [exact (data_const_rep _ _ _ _ _ _ Hrep Ha)|].
  unfold ptr_add. simpl. apply wp_bind.
  eapply insert_spec; [exact Hrep|exact Ha|done|done|done| |].
  2:{ intros w' Hth Hrep'. split; [done|]. by eapply observe_rep. }
  intros [vs1 hp1 c1] a1 Hrep1 Hins.
  assert ((<[this := a1]> av) !! this = Some a1) as Ha1
    by apply lookup_insert_eq.
  pose proof (inserted_not_shared _ _ _ _ _ _ _ Hrep Ha Hins) as Hsh1.
  assert (aelems a1 = take i (aelems a) ++ x :: drop i (aelems a)) as Hel1.
  { unfold inserted in Hins. destruct (grows av a).
    - by destruct Hins as (p' & _ & ->).
    - subst a1. by rewrite aelems_with_elems. }
  assert (length (aelems a1) = S (length (aelems a))) as Hlen1.
  { rewrite Hel1, length_app, length_take. simpl. rewrite length_drop. lia. }
  unfold erase1, ptr_add. simpl.
  eapply erase_spec; [exact Hrep1|exact Ha1|lia|lia| |].
  2:{ intros w' _ Hsh. by rewrite Hsh1 in Hsh. }
  intros [vs2 hp2 c2] a2 Hrep2 Her _. rewrite insert_insert_eq in Hrep2.
  assert ((<[this := a2]> av) !! this = Some a2) as Ha2
    by apply lookup_insert_eq.
  unfold erased in Her. rewrite Hsh1 in Her. subst a2.
  rewrite region_of_with_elems.
  rewrite Hel1, insert_erase_elems in Hrep2, Ha2 by done.
  split.
  { rewrite (size_rep _ _ _ _ _ _ Hrep2 Ha2).
    by rewrite aelems_with_elems. }
  split.
  { rewrite (contents_rep _ _ _ _ _ _ Hrep2 Ha2).
    by rewrite aelems_with_elems. }
  rewrite (bind_eq _ _ _ _ _ (data_const_rep _ _ _ _ _ _ Hrep2 Ha2)).
  by rewrite region_of_with_elems.
Qed.

(** ** push_back and pop_back *)

(** A client's loop [for (y : ys) v.push_back(y);]. *)
Fixpoint push_back_all (this : nat) (ys : list T) : M unit :=
  match ys with
  | [] => ret tt
  | y :: ys' => push_back this y ;; push_back_all this ys'
  end.

Lemma inserted_end_elems hp av a x a' :
  inserted hp av a (length (aelems a)) x a' → aelems a' = aelems a ++ [x].
Proof.
  unfold inserted. rewrite take_ge, drop_ge by done.
  destruct (grows av a).
  - by intros (p' & _ & ->).
  - intros ->. by rewrite aelems_with_elems.
Qed.

Lemma inserted_acap hp av a i x a' :
  inserted hp av a i x a' →
  acap a' = if grows av a then new_cap a else acap a.
Proof.
  unfold inserted. destruct (grows av a).
  - by intros (p' & _ & ->).
  - intros ->. by rewrite acap_with_elems.
Qed.

Lemma inserted_acap_pos hp av a i x a' :
  inserted hp av a i x a' → 0 < acap a → 0 < acap a'.
Proof.
  intros Hins Hpos. rewrite (inserted_acap _ _ _ _ _ _ Hins).
  unfold new_cap. destruct (grows av a); [|done]. case_decide; lia.
Qed.

(** When twice the size that [k] more elements give can be allocated,
    so can the doubled capacity of a full instance. *)
Lemma growth_fits_bound w av this a k :
  rep w av → av !! this = Some a →
  fits ((length (aelems a) + S k) * 2) → growth_fits a.
Proof.
  intros Hrep Ha Hfit Hfull. eapply fits_le; [|exact Hfit]. lia.
Qed.

Lemma push_back_all_spec ys : ∀ w av this a,
  rep w av → av !! this = Some a → 0 < acap a →
  fits ((length (aelems a) + length ys) * 2) →
  wp (push_back_all this ys) w
     (λ _ w', ∃ a', rep w' (<[this := a']> av) ∧
                    aelems a' = aelems a ++ ys)
     (λ w', may_throw ∧
            ∃ a' k, k < length ys ∧ rep w' (<[this := a']> av) ∧
                    aelems a' = aelems a ++ take k ys).
Proof.
  induction ys as [|y ys IH]; intros [vs hp c] av this a Hrep Ha Hpos Hfit;
    simpl.
  - apply wp_ret. exists a. by rewrite insert_id, app_nil_r.
  - apply wp_bind. simpl in Hfit.
    eapply push_back_spec;
      [exact Hrep|exact Ha|done|by eapply growth_fits_bound| |].
    2:{ intros w' Hth Hrep'. split; [done|]. exists a, 0.
        split; [lia|]. by rewrite insert_id, app_nil_r. }
    intros w1 a1 Hrep1 Hins.
    pose proof (inserted_acap_pos _ _ _ _ _ _ Hins Hpos) as Hpos1.
    apply inserted_end_elems in Hins.
    eapply wp_mono;
      [eapply (IH w1 _ this a1);
         [exact Hrep1|apply lookup_insert_eq|done|]
      | |]; simpl.
    { rewrite Hins, length_app. simpl.
      by replace (length (aelems a) + 1 + length ys)
        with (length (aelems a) + S (length ys)) by lia. }
    + intros [] w' (a' & Hrep' & Hel). exists a'.
      rewrite insert_insert_eq in Hrep'. split; [done|].
      by rewrite Hel, Hins, <-app_assoc.
    + intros w' (Hth & a' & k & Hk & Hrep' & Hel). split; [done|].
      exists a', (S k). rewrite insert_insert_eq in Hrep'.
      split; [lia|]. split; [done|].
      by rewrite Hel, Hins, <-app_assoc.
Qed.

(** X4: on an instance whose capacity is not zero, and when twice the
    final size is a capacity whose byte size does not wrap, pushing the
    elements of [ys] one after the other appends [ys] to the sequence
    and leaves every other instance as it reads; when a copy throws on
    the way, the elements pushed before it stay. *)
Theorem push_back_all_appends w av this a ys :
  rep w av → av !! this = Some a → 0 < acap a →
  fits ((length (aelems a) + length ys) * 2) →
  wp (push_back_all this ys) w
     (λ _ w',
        size this w' = Ok (length (aelems a) + length ys) w' ∧
        contents this w' = Ok (aelems a ++ ys) w' ∧
        ∀ id r, id ≠ this → observe id w = Ok r w →
                observe id w' = Ok r w')
     (λ w', may_throw ∧
            ∃ k, k < length ys ∧
                 contents this w' = Ok (aelems a ++ take k ys) w').
Proof.
  intros Hrep Ha Hpos Hfit.
  eapply wp_mono; [by eapply push_back_all_spec| |]; simpl.
  - intros [] [vs' hp' c'] (a' & Hrep' & Hel).
    assert ((<[this := a']> av) !! this = Some a') as Ha'
      by apply lookup_insert_eq.
    split.
    { rewrite (size_rep _ _ _ _ _ _ Hrep' Ha').
      by rewrite Hel, length_app. }
    split.
    { by rewrite (contents_rep _ _ _ _ _ _ Hrep' Ha'), Hel. }
    intros id r Hne Hobs.
    eapply observe_preserved; [exact Hrep|exact Hrep'| |done].
    by rewrite lookup_insert_ne.
  - intros [vs' hp' c'] (Hth & a' & k & Hk & Hrep' & Hel).
    split; [done|]. exists k. split; [done|].
    rewrite <-Hel. eapply contents_rep; [exact Hrep'|].
    apply lookup_insert_eq.
Qed.

(** X5: on an instance whose capacity is not zero, and whose doubled
    capacity has a byte size that does not wrap when the instance is
    full: after [push_back(x)] the const [back()] designates [x], and a
    following [pop_back()] gives back the size and the elements the
    instance had.  Only the [push_back] can throw, and then the
    instance reads as before. *)
Theorem push_back_pop_back w av this a x :
  rep w av → av !! this = Some a → 0 < acap a → growth_fits a →
  wp (push_back this x ;;
      p <- back_const this ;;
      y <- load p ;;
      pop_back this ;;
      ret y) w
     (λ y w',
        y = x ∧
        size this w' = Ok (length (aelems a)) w' ∧
        contents this w' = Ok (aelems a) w')
     (λ w', may_throw ∧ observe this w' = Ok (aobs a) w').
Proof.
  destruct w as [vs hp c]. intros Hrep Ha Hpos Hgf. apply wp_bind.
  eapply push_back_spec; [exact Hrep|exact Ha|done|done| |].
  2:{ intros w' Hth Hrep'. split; [done|]. by eapply observe_rep. }
  intros [vs1 hp1 c1] a1 Hrep1 Hins.
  assert ((<[this := a1]> av) !! this = Some a1) as Ha1
    by apply lookup_insert_eq.
  pose proof (inserted_not_shared _ _ _ _ _ _ _ Hrep Ha Hins) as Hsh1.
  pose proof (inserted_end_elems _ _ _ _ _ Hins) as Hel1.
  assert (length (aelems a1) = length (aelems a) + 1) as Hlen1
    by (by rewrite Hel1, length_app).
  eapply wp_bind_eq.
  { unfold back_const.
    rewrite (bind_eq _ _ _ _ _ (data_const_rep _ _ _ _ _ _ Hrep1 Ha1)).
    rewrite (bind_eq _ _ _ _ _ (size_rep _ _ _ _ _ _ Hrep1 Ha1)).
    erewrite bind_eq by (apply size_sub_eq; lia).
    reflexivity. }
  unfold ptr_add. simpl.
  eapply wp_bind_eq.
  { eapply (load_rep _ _ _ _ _ x); [exact Hrep1|exact Ha1|].
    rewrite Hlen1, Hel1. rewrite lookup_app_r by lia.
    by replace (length (aelems a) + 1 - 1 - length (aelems a)) with 0
      by lia. }
  apply wp_bind.
  eapply pop_back_spec; [exact Hrep1|exact Ha1|lia| |].
  2:{ intros w' _ Hsh. by rewrite Hsh1 in Hsh. }
  intros [vs2 hp2 c2] a2 Hrep2 Her. rewrite insert_insert_eq in Hrep2.
  apply wp_ret. split; [done|].
  assert ((<[this := a2]> av) !! this = Some a2) as Ha2
    by apply lookup_insert_eq.
  assert (aelems a2 = aelems a) as Hel2.
  { unfold erased in Her. rewrite Hsh1 in Her. subst a2.
    rewrite aelems_with_elems, Hlen1, Hel1.
    replace (length (aelems a) + 1 - 1) with (length (aelems a)) by lia.
    rewrite take_app_length, drop_ge, app_nil_r; [done|].
    rewrite length_app. simpl. lia. }
  split.
  - by rewrite (size_rep _ _ _ _ _ _ Hrep2 Ha2), Hel2.
  - by rewrite (contents_rep _ _ _ _ _ _ Hrep2 Ha2), Hel2.
Qed.

(** ** Element access *)

(** X6: the const accessors leave the state as it is, shared or not:
    [operator[](i)] designates the element at index [i], [front()] the
    first and [back()] the last element, and [empty()] tells whether
    there is none. *)
Theorem const_access w av this a :
  rep w av → av !! this = Some a →
  (∀ i y, aelems a !! i = Some y →
          (p <- operator_index_const this i ;; load p) w = Ok y w) ∧
  (∀ y, head (aelems a) = Some y →
        (p <- front_const this ;; load p) w = Ok y w) ∧
  (∀ y, last (aelems a) = Some y →
        (p <- back_const this ;; load p) w = Ok y w) ∧
  empty this w = Ok (bool_decide (aelems a = [])) w.
Proof.
  destruct w as [vs hp c]. intros Hrep Ha.
  pose proof (data_const_rep _ _ _ _ _ _ Hrep Ha) as Hd.
  pose proof (size_rep _ _ _ _ _ _ Hrep Ha) as Hn.
  split; [|split; [|split]].
  - intros i y Hy.
    assert (operator_index_const this i (mk_world vs hp c)
            = Ok (region_of this a, i) (mk_world vs hp c)) as Hp.
    { unfold operator_index_const. by rewrite (bind_eq _ _ _ _ _ Hd). }
    rewrite (bind_eq _ _ _ _ _ Hp). by eapply load_rep.
  - intros y Hy.
    assert (front_const this (mk_world vs hp c)
            = Ok (region_of this a, 0) (mk_world vs hp c)) as Hp.
    { unfold front_const. by rewrite (bind_eq _ _ _ _ _ Hd). }
    rewrite (bind_eq _ _ _ _ _ Hp).
    eapply load_rep; [done|done|]. by rewrite <-head_lookup.
  - intros y Hy.
    assert (0 < length (aelems a)) as Hpos.
    { destruct (aelems a); [done|simpl; lia]. }
    assert (back_const this (mk_world vs hp c)
            = Ok (region_of this a, length (aelems a) - 1)
                 (mk_world vs hp c)) as Hp.
    { unfold back_const.
      rewrite (bind_eq _ _ _ _ _ Hd), (bind_eq _ _ _ _ _ Hn).
      by erewrite bind_eq by (apply size_sub_eq; lia). }
    rewrite (bind_eq _ _ _ _ _ Hp).
    eapply load_rep; [done|done|].
    rewrite last_lookup in Hy. rewrite <-Hy. f_equal. lia.
  - unfold empty. rewrite (bind_eq _ _ _ _ _ Hn). unfold ret. f_equal.
    by destruct (aelems a).
Qed.

(** X7: the assignment [v[i] = x] through the mutable [operator[]], with
    [i < size()], replaces the element at index [i] of [v], keeps its
    size and capacity, and leaves every other instance as it reads,
    also those that shared the block of [v].  A copy can throw only
    when [v] is shared, and then every instance reads as before. *)
Theorem element_write_isolated w av this a i x :
  rep w av → av !! this = Some a → i < length (aelems a) →
  wp (p <- operator_index this i ;; store p x) w
     (λ _ w',
        observe this w'
        = Ok (length (aelems a), acap a, <[i := x]> (aelems a)) w' ∧
        ∀ id r, id ≠ this → observe id w = Ok r w →
                observe id w' = Ok r w')
     (λ w', may_throw ∧ is_shared av a = true ∧
            ∀ id r, observe id w = Ok r w → observe id w' = Ok r w').
Proof.
  destruct w as [vs hp c]. intros Hrep Ha Hi.
  assert (∀ w1 av1 a1,
    rep w1 av1 → av1 !! this = Some a1 → exclusive av1 a1 →
    aelems a1 = aelems a → acap a1 = acap a →
    (∀ id, id ≠ this → av1 !! id = av !! id) →
    wp (store (region_of this a1, i) x) w1
       (λ _ w',
          observe this w'
          = Ok (length (aelems a), acap a, <[i := x]> (aelems a)) w' ∧
          ∀ id r, id ≠ this →
                  observe id (mk_world vs hp c) = Ok r (mk_world vs hp c) →
                  observe id w' = Ok r w')
       (λ w', may_throw ∧ is_shared av a = true ∧
              ∀ id r, observe id (mk_world vs hp c)
                      = Ok r (mk_world vs hp c) →
                      observe id w' = Ok r w')) as Hstore.
  { intros w1 av1 a1 Hrep1 Ha1 Hex1 Hel Hcap Hothers.
    destruct (store_exclusive w1 av1 this a1 i x Hrep1 Ha1 Hex1)
      as (w2 & Hrun & Hrep2); [by rewrite Hel|].
    eapply wp_eq; [exact Hrun|]. split.
    - erewrite observe_rep; [|exact Hrep2|apply lookup_insert_eq].
      unfold aobs.
      by rewrite aelems_with_elems, acap_with_elems, length_insert,
        Hel, Hcap.
    - intros id r Hne Hobs.
      eapply observe_preserved; [exact Hrep|exact Hrep2| |done].
      rewrite lookup_insert_ne by done. by apply Hothers. }
  unfold operator_index. apply wp_bind, wp_bind.
  destruct (is_shared av a) eqn:Hsh.
  - destruct a as [xs|p cp xs]; [done|]. simpl in Hsh.
    apply bool_decide_eq_true in Hsh.
    eapply data_shared_spec; [exact Hrep|exact Ha|done| |].
    + intros p' w1 Hp' Hrep1 _. apply wp_ret. unfold ptr_add. simpl.
      eapply (Hstore w1 _ (ABig p' cp xs));
        [exact Hrep1|apply lookup_insert_eq| |done|done|].
      * simpl. by eapply (owners_fresh_one _ _ _ _ _ _ Hrep).
      * intros id Hne. by rewrite lookup_insert_ne.
    + intros c' Hth. split; [done|]. split; [done|].
      intros id r Hobs.
      eapply observe_preserved;
        [exact Hrep|by eapply (rep_copies _ _ _ c')|done|done].
  - pose proof (not_shared_exclusive _ _ _ _ Hrep Ha Hsh) as Hex.
    eapply wp_eq; [exact (data_exclusive_rep _ _ _ _ Hrep Ha Hex)|].
    apply wp_ret. unfold ptr_add. simpl.
    by eapply (Hstore _ av a).
Qed.

(** X8: the mutable [data()] is the gate.  On an instance that is not
    shared it returns what the const [data()] returns and changes
    nothing.  On a shared instance it copies the elements, one copy
    construction each, into a new block of the same capacity whose
    reference count is one, takes one off the reference count of the
    old block, which stays allocated, and returns the start of the new
    block; the instance and all others read as before.  When a copy
    throws nothing has changed but the count of copies. *)
Theorem mutable_data_gate w av this a :
  rep w av → av !! this = Some a →
  (shared_buf this w = Ok false w → data this w = data_const this w) ∧
  (∀ p rc, shared_buf this w = Ok true w →
           get_buf_ this w = Ok p w → ref_count_at w p = Some rc →
     wp (data this) w
        (λ q w',
           ∃ p', heap w !! p' = None ∧ q = (in_buf p', 0) ∧
                 data_const this w' = Ok q w' ∧
                 ref_count_at w' p' = Some 1 ∧
                 ref_count_at w' p = Some (rc - 1) ∧ 0 < rc - 1 ∧
                 copies w' = copies w + length (aelems a) ∧
                 ∀ id r, observe id w = Ok r w → observe id w' = Ok r w')
        (λ w', may_throw ∧ vecs w' = vecs w ∧ heap w' = heap w)).
Proof.
  destruct w as [vs hp c]. intros Hrep Ha.
  pose proof (shared_buf_rep _ _ _ _ _ _ Hrep Ha) as Hshb.
  split.
  - intros Hsh. rewrite Hsh in Hshb.
    assert (is_shared av a = false) as Hsh' by congruence.
    pose proof (not_shared_exclusive _ _ _ _ Hrep Ha Hsh') as Hex.
    rewrite (data_exclusive_rep _ _ _ _ Hrep Ha Hex).
    by rewrite (data_const_rep _ _ _ _ _ _ Hrep Ha).
  - intros p rc Hsh Hbuf Hrc. rewrite Hsh in Hshb.
    assert (is_shared av a = true) as Hsh' by congruence.
    destruct a as [xs|p0 cp xs]; [done|]. simpl in Hsh'.
    apply bool_decide_eq_true in Hsh'.
    destruct (rep_big _ _ _ _ _ _ Hrep Ha) as (Hv & _). simpl in Hv.
    rewrite (get_buf_eq _ _ _ _ _ _ _ Hv) in Hbuf.
    assert (p0 = p) as -> by congruence.
    rewrite (ref_count_rep _ _ _ _ _ _ Hrep Ha) in Hrc.
    assert (rc = owners av p) as -> by congruence.
    eapply data_shared_spec; [exact Hrep|exact Ha|done| |].
    2:{ intros c' Hth. done. }
    intros p' [vs' hp' c'] Hp' Hrep' Hc. exists p'.
    assert ((<[this := ABig p' cp xs]> av) !! this = Some (ABig p' cp xs))
      as Ha' by apply lookup_insert_eq.
    assert (p ≠ p') as Hne.
    { destruct (rep_big _ _ _ _ _ _ Hrep Ha) as (_ & ? & Hb & _).
      simpl in Hb. congruence. }
    pose proof (owners_insert av this (ABig p' cp xs) p) as Hins.
    rewrite Ha in Hins. unfold nb in Hins.
    rewrite big_at_same, (big_at_ne p p') in Hins by done.
    split; [done|]. split; [done|].
    split; [exact (data_const_rep _ _ _ _ _ _ Hrep' Ha')|].
    split.
    { rewrite (ref_count_rep _ _ _ _ _ _ Hrep' Ha'). f_equal.
      by eapply (owners_fresh_one _ _ _ _ _ _ Hrep). }
    assert (∃ id c0 xs0, id ≠ this ∧ av !! id = Some (ABig p c0 xs0))
      as Hother.
    { pose proof (owners_delete av this p) as Hd.
      rewrite Ha in Hd. unfold nb in Hd. rewrite big_at_same in Hd.
      destruct (owners_pos_owner (delete this av) p) as (id & c0 & xs0 & Hid);
        [lia|].
      apply lookup_delete_Some in Hid as [? ?]. eauto 10. }
    destruct Hother as (id & c0 & xs0 & Hid & Hav).
    split.
    { rewrite (ref_count_rep _ (<[this := ABig p' cp xs]> av) id p c0 xs0
                 Hrep' ltac:(by rewrite lookup_insert_ne)).
      f_equal. lia. }
    split; [lia|]. split; [done|].
    intros id' r Hobs.
    destruct (decide (id' = this)) as [->|Hne'].
    + destruct (observe_live _ _ _ _ Hrep Hobs) as (a0 & Ha0 & ->).
      rewrite Ha in Ha0. simplify_eq.
      by rewrite (observe_rep _ _ _ _ Hrep' Ha').
    + eapply observe_preserved; [exact Hrep|exact Hrep'| |done].
      by rewrite lookup_insert_ne.
Qed.

(** ** Construction and destruction *)

(** X9: the destructor returns normally under every schedule and
    performs no copy.  The object is gone, every other instance reads
    as before, and the invariant holds for the instances left.  A block
    the object referred to loses one reference: it is freed when that
    was the last one and stays allocated otherwise.  Every block still
    allocated is the block of a live instance: nothing leaks. *)
Theorem destructor_releases w av this a :
  rep w av → av !! this = Some a →
  ∃ w', dtor this w = Ok tt w' ∧
        vecs w' = delete this (vecs w) ∧
        copies w' = copies w ∧
        rep w' (delete this av) ∧
        (∀ id r, id ≠ this → observe id w = Ok r w →
                 observe id w' = Ok r w') ∧
        (∀ p rc, get_buf_ this w = Ok p w → get_is_small_ this w = Ok false w →
                 ref_count_at w p = Some rc →
                 ref_count_at w' p
                 = if decide (rc = 1) then None else Some (rc - 1)) ∧
        (∀ q, is_Some (heap w' !! q) →
              ∃ id, id ≠ this ∧ get_is_small_ id w' = Ok false w' ∧
                    get_buf_ id w' = Ok q w').
Proof.
  destruct w as [vs hp c]. intros Hrep Ha.
  assert (wp (dtor this) (mk_world vs hp c)
            (λ _ w', ∃ hp', w' = mk_world (delete this vs) hp' c ∧
                            rep w' (delete this av))
            (λ _, False)) as Hwp.
  { eapply dtor_spec; [exact Hrep|by eexists|]. intros hp' Hrep'. eauto. }
  destruct (wp_ok _ _ _ _ Hwp ltac:(tauto))
    as ([] & w' & Hrun & hp' & -> & Hrep').
  eexists. split; [exact Hrun|].
  split; [done|]. split; [done|]. split; [done|].
  split; [|split].
  - intros id r Hne Hobs.
    eapply observe_preserved; [exact Hrep|exact Hrep'| |done].
    by rewrite lookup_delete_ne.
  - intros p rc Hbuf Hsm Hrc.
    rewrite (get_is_small_rep _ _ _ _ _ _ Hrep Ha) in Hsm.
    destruct a as [xs|p0 cp xs]; [done|].
    destruct (rep_big _ _ _ _ _ _ Hrep Ha) as (Hv & _). simpl in Hv.
    rewrite (get_buf_eq _ _ _ _ _ _ _ Hv) in Hbuf.
    assert (p0 = p) as -> by congruence.
    rewrite (ref_count_rep _ _ _ _ _ _ Hrep Ha) in Hrc.
    assert (rc = owners av p) as -> by congruence.
    pose proof (owners_delete av this p) as Hd.
    rewrite Ha in Hd. unfold nb in Hd. rewrite big_at_same in Hd.
    case_decide as H1.
    + unfold ref_count_at. simpl.
      destruct (hp' !! p) as [b|] eqn:Hb; [|done].
      destruct Hrep' as [_ H2]. destruct (H2 p b Hb) as [Hrc' Hpos]. lia.
    + destruct (owners_pos_owner (delete this av) p) as (id & c0 & xs0 & Hid);
        [lia|].
      rewrite (ref_count_rep _ _ _ _ _ _ Hrep' Hid). f_equal. lia.
  - intros q [b Hb].
    destruct (rep_block_owned _ _ _ _ Hrep' Hb) as (id & c0 & xs0 & Hid).
    exists id.
    split; [by apply lookup_delete_Some in Hid as [? _]|].
    split; [exact (get_is_small_rep _ _ _ _ _ _ Hrep' Hid)|].
    destruct (rep_big _ _ _ _ _ _ Hrep' Hid) as (Hv & _).
    by eapply get_buf_eq.
Qed.

(** X10: the copy constructor makes a new object that reads as the
    source does, and leaves every existing instance as it reads.  From
    a source in big mode no element is copied: the new object refers to
    the block of the source, whose reference count goes up by one.  A
    copy can throw only from a source in small mode, and then the
    half-made object has been destroyed and the state satisfies the
    invariant for the instances there were. *)
Theorem copy_constructor w av other ao :
  rep w av → av !! other = Some ao →
  wp (ctor_copy other) w
     (λ t w',
        vecs w !! t = None ∧
        observe t w' = Ok (aobs ao) w' ∧
        (∀ id r, observe id w = Ok r w → observe id w' = Ok r w') ∧
        (∀ p rc, get_is_small_ other w = Ok false w →
                 get_buf_ other w = Ok p w →
                 ref_count_at w p = Some rc →
                 get_is_small_ t w' = Ok false w' ∧
                 get_buf_ t w' = Ok p w' ∧
                 ref_count_at w' p = Some (rc + 1) ∧
                 copies w' = copies w))
     (λ w', may_throw ∧ get_is_small_ other w = Ok true w ∧ rep w' av).
Proof.
  destruct w as [vs hp c]. intros Hrep Hao.
  pose proof (get_is_small_rep _ _ _ _ _ _ Hrep Hao) as Hsm.
  eapply ctor_copy_spec; [exact Hrep|exact Hao| |].
  2:{ intros w' Hth [ys ->] Hrep'. done. }
  intros t [vs' hp' c'] Hat Hrep' Hc.
  assert ((<[t := ao]> av) !! t = Some ao) as Ht by apply lookup_insert_eq.
  assert (t ≠ other) as Hne by congruence.
  split; [by apply (rep_none _ _ t Hrep)|].
  split; [by eapply observe_rep|].
  split.
  - intros id r Hobs.
    destruct (observe_live _ _ _ _ Hrep Hobs) as (a0 & Ha0 & ->).
    eapply observe_rep; [exact Hrep'|].
    rewrite lookup_insert_ne by congruence. done.
  - intros p rc Hbig Hbuf Hrc. rewrite Hsm in Hbig.
    destruct ao as [ys|p0 cp ys]; [done|].
    destruct (rep_big _ _ _ _ _ _ Hrep Hao) as (Hv & _). simpl in Hv.
    rewrite (get_buf_eq _ _ _ _ _ _ _ Hv) in Hbuf.
    assert (p0 = p) as -> by congruence.
    rewrite (ref_count_rep _ _ _ _ _ _ Hrep Hao) in Hrc.
    assert (rc = owners av p) as -> by congruence.
    destruct (rep_big _ _ _ _ _ _ Hrep' Ht) as (Hv' & _). simpl in Hv'.
    split; [exact (get_is_small_rep _ _ _ _ _ _ Hrep' Ht)|].
    split; [by eapply get_buf_eq|].
    split; [|by eapply Hc].
    rewrite (ref_count_rep _ _ _ _ _ _ Hrep' Ht). f_equal.
    pose proof (owners_insert av t (ABig p cp ys) p) as Hins.
    rewrite Hat in Hins. unfold nb in Hins. rewrite big_at_same in Hins.
    lia.
Qed.

(** ** swap *)

(** X11: [a.swap(b)] on distinct instances exchanges what the two read
    (size, capacity, elements) and leaves every other instance as it
    reads.  A copy can throw only when one of the two is in small mode;
    the state then satisfies the invariant, each of the two reads what
    one of them read before, and the others read as before. *)
Theorem swap_exchanges w av a b aa ab :
  rep w av → av !! a = Some aa → av !! b = Some ab → a ≠ b →
  wp (swap a b) w
     (λ _ w',
        observe a w' = Ok (aobs ab) w' ∧
        observe b w' = Ok (aobs aa) w' ∧
        ∀ id r, id ≠ a → id ≠ b → observe id w = Ok r w →
                observe id w' = Ok r w')
     (λ w', may_throw ∧ a_small aa || a_small ab = true ∧ wf w' ∧
            (observe a w' = Ok (aobs aa) w' ∨
             observe a w' = Ok (aobs ab) w') ∧
            (observe b w' = Ok (aobs aa) w' ∨
             observe b w' = Ok (aobs ab) w') ∧
            ∀ id r, id ≠ a → id ≠ b → observe id w = Ok r w →
                    observe id w' = Ok r w').
Proof.
  destruct w as [vs hp c]. intros Hrep Ha Hb Hne.
  eapply swap_spec; [exact Hrep|exact Ha|exact Hb|done| |].
  - intros w' Hrep'.
    split; [eapply observe_rep; [exact Hrep'|apply lookup_insert_eq]|].
    split.
    { eapply observe_rep; [exact Hrep'|].
      by rewrite lookup_insert_ne, lookup_insert_eq. }
    intros id r Hna Hnb Hobs.
    eapply observe_preserved; [exact Hrep|exact Hrep'| |done].
    by rewrite !lookup_insert_ne.
  - intros w' av' Hth Hsm Hav' Hrep'.
    split; [done|]. split; [done|]. split; [by exists av'|].
    destruct Hav' as [->|[->| ->]].
    + split; [left; by eapply observe_rep|].
      split; [right; by eapply observe_rep|].
      intros id r _ _ Hobs.
      exact (observe_preserved _ _ av av id r Hrep Hrep' eq_refl Hobs).
    + split; [left; eapply observe_rep;
                [exact Hrep'|by rewrite lookup_insert_ne]|].
      split; [left; eapply observe_rep;
                [exact Hrep'|apply lookup_insert_eq]|].
      intros id r _ Hnb Hobs.
      eapply observe_preserved; [exact Hrep|exact Hrep'| |done].
      by rewrite lookup_insert_ne.
    + split; [right; eapply observe_rep;
                [exact Hrep'|apply lookup_insert_eq]|].
      split; [right; eapply observe_rep;
                [exact Hrep'|by rewrite lookup_insert_ne]|].
      intros id r Hna _ Hobs.
      eapply observe_preserved; [exact Hrep|exact Hrep'| |done].
      by rewrite lookup_insert_ne.
Qed.

(** ** Capacity *)

(** In small mode, and in big mode without spare capacity,
    [shrink_to_fit()] does nothing. *)
Lemma shrink_to_fit_fixed vs hp c av this a :
  rep (mk_world vs hp c) av → av !! this = Some a →
  a_small a = true ∨ acap a ≤ length (aelems a) →
  shrink_to_fit this (mk_world vs hp c) = Ok tt (mk_world vs hp c).
Proof.
  intros Hrep Ha Hfix.
  assert (wp (shrink_to_fit this) (mk_world vs hp c)
            (λ _ w', w' = mk_world vs hp c) (λ _, False)) as Hwp.
  { unfold shrink_to_fit. destruct a as [xs|p cp xs].
    - destruct (rep_small _ _ _ _ Hrep Ha) as (st & Hv & _).
      simpl in Hv. by repeat wp_step.
    - destruct Hfix as [?|Hfix]; [done|]. simpl in Hfix.
      destruct (rep_big _ _ _ _ _ _ Hrep Ha)
        as (Hv & rc & Hb & Hn & _ & Hrc & Hpos).
      simpl in Hv, Hb. wp_step. apply wp_bind. do 3 wp_step.
      rewrite bool_decide_eq_false_2 by lia. simpl. by apply wp_ret. }
  destruct (wp_ok _ _ _ _ Hwp ltac:(tauto)) as ([] & w' & Hrun & ->).
  done.
Qed.

(** X12: [shrink_to_fit()] keeps the size and the elements and leaves
    every other instance as it reads.  An instance in small mode, and
    one in big mode whose capacity is its size, is left untouched
    (shared or not).  An instance in big mode with spare capacity
    becomes small when its size is at most [SMALL_SIZE], and otherwise
    gets a block of capacity exactly its size that no other instance
    refers to.  A second call right after changes nothing.  When a copy
    throws the state is as before. *)
Theorem shrink_to_fit_contract w av this a :
  rep w av → av !! this = Some a →
  wp (shrink_to_fit this) w
     (λ _ w',
        observe this w'
        = Ok (length (aelems a),
              (if a_small a || bool_decide (acap a ≤ length (aelems a))
               then acap a
               else if decide (length (aelems a) ≤ SMALL_SIZE)
               then SMALL_SIZE else length (aelems a)),
              aelems a) w' ∧
        (a_small a = true ∨ acap a ≤ length (aelems a) → w' = w) ∧
        (a_small a = false → length (aelems a) < acap a →
         get_is_small_ this w'
         = Ok (bool_decide (length (aelems a) ≤ SMALL_SIZE)) w' ∧
         shared_buf this w' = Ok false w') ∧
        shrink_to_fit this w' = Ok tt w' ∧
        ∀ id r, id ≠ this → observe id w = Ok r w →
                observe id w' = Ok r w')
     (λ w', may_throw ∧ rep w' av).
Proof.
  destruct w as [vs hp c]. intros Hrep Ha.
  destruct (decide (a_small a = true ∨ acap a ≤ length (aelems a)))
    as [Hfix|Hslack].
  - eapply wp_eq; [by eapply shrink_to_fit_fixed|].
    split.
    { rewrite (observe_rep _ _ _ _ Hrep Ha). unfold aobs. do 3 f_equal.
      destruct Hfix as [->|?]; [done|].
      rewrite bool_decide_eq_true_2 by done. by rewrite orb_true_r. }
    split; [done|]. split.
    { intros Hbig Hlt. destruct Hfix as [?|?]; [congruence|lia]. }
    split; [by eapply shrink_to_fit_fixed|]. done.
  - assert (a_small a = false ∧ length (aelems a) < acap a) as [Hbig Hlt].
    { destruct (a_small a); [tauto|]. split; [done|].
      destruct (decide (length (aelems a) < acap a)); [done|].
      exfalso. apply Hslack. right. lia. }
    destruct a as [xs|p cp xs]; [done|]. simpl in Hlt.
    eapply shrink_to_fit_spec; [exact Hrep|exact Ha| |done].
    intros [vs' hp' c'] a' Hrep' Hshr.
    assert ((<[this := ABig p cp xs]> av) !! this = Some (ABig p cp xs))
      as _ by apply lookup_insert_eq.
    assert ((<[this := a']> av) !! this = Some a') as Ha'
      by apply lookup_insert_eq.
    simpl in Hshr. rewrite decide_True in Hshr by done.
    simpl. rewrite bool_decide_eq_false_2 by lia. simpl.
    assert (∀ id r, id ≠ this →
              observe id (mk_world vs hp c) = Ok r (mk_world vs hp c) →
              observe id (mk_world vs' hp' c') = Ok r (mk_world vs' hp' c'))
      as Hothers.
    { intros id r Hne Hobs.
      eapply observe_preserved; [exact Hrep|exact Hrep'| |done].
      by rewrite lookup_insert_ne. }
    case_decide as HN.
    + subst a'.
      split; [exact (observe_rep _ _ _ _ Hrep' Ha')|].
      split; [intros [?|?]; [done|simpl in *; lia]|].
      split.
      { intros _ _. rewrite bool_decide_eq_true_2 by done.
        split; [exact (get_is_small_rep _ _ _ _ _ _ Hrep' Ha')|].
        exact (shared_buf_rep _ _ _ _ _ _ Hrep' Ha'). }
      split; [|done].
      eapply shrink_to_fit_fixed; [exact Hrep'|exact Ha'|by left].
    + destruct Hshr as (p' & Hp' & ->).
      split; [exact (observe_rep _ _ _ _ Hrep' Ha')|].
      split; [intros [?|?]; [done|simpl in *; lia]|].
      split.
      { intros _ _. rewrite bool_decide_eq_false_2 by done.
        split; [exact (get_is_small_rep _ _ _ _ _ _ Hrep' Ha')|].
        rewrite (shared_buf_rep _ _ _ _ _ _ Hrep' Ha').
        by rewrite (is_shared_fresh _ _ _ _ _ _ Hrep Hp'). }
      split; [|done].
      eapply shrink_to_fit_fixed; [exact Hrep'|exact Ha'|by right].
Qed.

Lemma with_elems_twice xs1 xs2 a :
  with_elems xs2 (with_elems xs1 a) = with_elems xs2 a.
Proof. by destruct a. Qed.

(** Pushing into storage that is owned alone and has room. *)
Lemma push_back_all_in_place ys : ∀ w av this a,
  rep w av → av !! this = Some a →
  is_shared av a = false →
  length (aelems a) + length ys ≤ acap a →
  wp (push_back_all this ys) w
     (λ _ w', rep w' (<[this := with_elems (aelems a ++ ys) a]> av))
     (λ w', may_throw ∧
            ∃ k, k < length ys ∧
                 rep w' (<[this := with_elems (aelems a ++ take k ys) a]> av)).
Proof.
  induction ys as [|y ys IH];
    intros [vs hp c] av this a Hrep Ha Hsh Hroom; simpl in *.
  - apply wp_ret. by rewrite app_nil_r, with_elems_id, insert_id.
  - apply wp_bind.
    eapply push_back_spec; [exact Hrep|exact Ha|lia|intros ?; lia| |].
    2:{ intros w' Hth Hrep'. split; [done|]. exists 0. split; [lia|].
        by rewrite app_nil_r, with_elems_id, insert_id. }
    intros w1 a1 Hrep1 Hins.
    pose proof (inserted_end_elems _ _ _ _ _ Hins) as Hel1.
    unfold inserted, grows in Hins.
    rewrite bool_decide_eq_false_2, Hsh in Hins by lia. simpl in Hins.
    rewrite take_ge, drop_ge in Hins by done. subst a1.
    eapply wp_mono;
      [eapply (IH w1 _ this (with_elems (aelems a ++ [y]) a));
         [exact Hrep1|apply lookup_insert_eq
         |by rewrite is_shared_with_elems
         |rewrite aelems_with_elems, acap_with_elems, length_app; simpl; lia]
      | |]; simpl.
    + intros [] w' Hrep'.
      rewrite insert_insert_eq, aelems_with_elems, with_elems_twice,
        <-app_assoc in Hrep'. done.
    + intros w' (Hth & k & Hk & Hrep'). split; [done|].
      exists (S k). split; [lia|].
      rewrite insert_insert_eq, aelems_with_elems, with_elems_twice,
        <-app_assoc in Hrep'. done.
Qed.

(** X13: when the block that [reserve(n)] allocates, if it allocates
    one, has a byte size that does not wrap: after [reserve(n)] with
    [n > size()] the capacity is at least [n] and the instance is not
    shared; pushing elements while the size stays within [n] then keeps
    [begin()] and the capacity: nothing is reallocated. *)
Theorem reserve_then_push_back w av this a n ys :
  rep w av → av !! this = Some a →
  (reserve_allocates (is_shared av a) a n = true → fits n) →
  length (aelems a) < n → length (aelems a) + length ys ≤ n →
  wp (reserve this n) w
     (λ _ w1,
        ∃ b c, begin_const this w1 = Ok b w1 ∧
               capacity this w1 = Ok c w1 ∧ n ≤ c ∧
               shared_buf this w1 = Ok false w1 ∧
               wp (push_back_all this ys) w1
                  (λ _ w2, begin_const this w2 = Ok b w2 ∧
                           capacity this w2 = Ok c w2 ∧
                           contents this w2 = Ok (aelems a ++ ys) w2)
                  (λ w2, may_throw ∧
                         begin_const this w2 = Ok b w2 ∧
                         capacity this w2 = Ok c w2))
     (λ w1, may_throw ∧ rep w1 av).
Proof.
  destruct w as [vs hp c]. intros Hrep Ha Hal Hn Hys.
  eapply reserve_spec; [exact Hrep|exact Ha|exact Hal| |done].
  intros [vs1 hp1 c1] a1 Hrep1 Hres _.
  assert ((<[this := a1]> av) !! this = Some a1) as Ha1
    by apply lookup_insert_eq.
  assert (aelems a1 = aelems a ∧ n ≤ acap a1 ∧
          is_shared (<[this := a1]> av) a1 = false) as (Hel & Hcap & Hsh).
  { unfold reserved in Hres. rewrite decide_False in Hres by lia.
    destruct (is_shared av a && bool_decide (n ≤ SMALL_SIZE)) eqn:Hd.
    { apply andb_true_iff in Hd as [_ HnN%bool_decide_eq_true].
      subst a1. done. }
    destruct (is_shared av a || bool_decide (acap a < n)) eqn:Hu.
    - destruct Hres as (p' & Hp' & ->).
      split; [done|]. split; [done|]. by eapply is_shared_fresh.
    - apply orb_false_iff in Hu as [Hsh Hlt%bool_decide_eq_false].
      subst a1. split; [done|]. split; [lia|].
      by rewrite insert_id. }
  exists (region_of this a1, 0), (acap a1).
  split; [exact (data_const_rep _ _ _ _ _ _ Hrep1 Ha1)|].
  split; [exact (capacity_rep _ _ _ _ _ _ Hrep1 Ha1)|].
  split; [done|].
  split; [by rewrite (shared_buf_rep _ _ _ _ _ _ Hrep1 Ha1), Hsh|].
  eapply wp_mono;
    [eapply (push_back_all_in_place ys _ _ this a1);
       [exact Hrep1|exact Ha1|done|rewrite Hel; lia]
    | |]; simpl.
  - intros [] [vs2 hp2 c2] Hrep2. rewrite insert_insert_eq in Hrep2.
    assert ((<[this := with_elems (aelems a1 ++ ys) a1]> av) !! this
            = Some (with_elems (aelems a1 ++ ys) a1)) as Ha2
      by apply lookup_insert_eq.
    split.
    { unfold begin_const. rewrite (data_const_rep _ _ _ _ _ _ Hrep2 Ha2).
      by rewrite region_of_with_elems. }
    split.
    { rewrite (capacity_rep _ _ _ _ _ _ Hrep2 Ha2).
      by rewrite acap_with_elems. }
    rewrite (contents_rep _ _ _ _ _ _ Hrep2 Ha2).
    by rewrite aelems_with_elems, Hel.
  - intros [vs2 hp2 c2] (Hth & k & Hk & Hrep2).
    rewrite insert_insert_eq in Hrep2. split; [done|].
    assert ((<[this := with_elems (aelems a1 ++ take k ys) a1]> av) !! this
            = Some (with_elems (aelems a1 ++ take k ys) a1)) as Ha2
      by apply lookup_insert_eq.
    split.
    { unfold begin_const. rewrite (data_const_rep _ _ _ _ _ _ Hrep2 Ha2).
      by rewrite region_of_with_elems. }
    rewrite (capacity_rep _ _ _ _ _ _ Hrep2 Ha2).
    by rewrite acap_with_elems.
Qed.

(** X14: [clear()] returns normally under every schedule and performs
    no copy; afterwards the instance is empty and every other instance
    reads as before.  An instance that was not shared keeps its mode
    and its capacity.  A shared instance becomes small, and its former
    block, with one reference less, stays allocated for the others. *)
Theorem clear_contract w av this a :
  rep w av → av !! this = Some a →
  ∃ w', clear this w = Ok tt w' ∧
        copies w' = copies w ∧
        observe this w'
        = Ok (0, (if is_shared av a then SMALL_SIZE else acap a), []) w' ∧
        empty this w' = Ok true w' ∧
        get_is_small_ this w' = Ok (a_small a || is_shared av a) w' ∧
        (∀ id r, id ≠ this → observe id w = Ok r w →
                 observe id w' = Ok r w') ∧
        (∀ p rc, shared_buf this w = Ok true w →
                 get_buf_ this w = Ok p w → ref_count_at w p = Some rc →
                 ref_count_at w' p = Some (rc - 1) ∧ 0 < rc - 1).
Proof.
  destruct w as [vs hp c]. intros Hrep Ha.
  assert (wp (clear this) (mk_world vs hp c)
            (λ _ w', rep w' (<[this := cleared av a]> av) ∧ copies w' = c)
            (λ _, False)) as Hwp.
  { eapply clear_spec; [exact Hrep|exact Ha|]. done. }
  destruct (wp_ok _ _ _ _ Hwp ltac:(tauto))
    as ([] & [vs' hp' c'] & Hrun & Hrep' & Hc).
  eexists. split; [exact Hrun|]. split; [done|].
  assert ((<[this := cleared av a]> av) !! this = Some (cleared av a))
    as Ha' by apply lookup_insert_eq.
  pose proof (shared_buf_rep _ _ _ _ _ _ Hrep Ha) as Hshb.
  split.
  { rewrite (observe_rep _ _ _ _ Hrep' Ha'). unfold aobs, cleared.
    destruct (is_shared av a); [done|].
    by rewrite aelems_with_elems, acap_with_elems. }
  split.
  { unfold empty. rewrite (bind_eq _ _ _ _ _ (size_rep _ _ _ _ _ _ Hrep' Ha')).
    unfold cleared. destruct (is_shared av a); [done|].
    by rewrite aelems_with_elems. }
  split.
  { rewrite (get_is_small_rep _ _ _ _ _ _ Hrep' Ha'). unfold cleared.
    destruct (is_shared av a); [by rewrite orb_true_r|].
    rewrite orb_false_r. by destruct a. }
  split.
  - intros id r Hne Hobs.
    eapply observe_preserved; [exact Hrep|exact Hrep'| |done].
    by rewrite lookup_insert_ne.
  - intros p rc Hsh Hbuf Hrc. rewrite Hsh in Hshb.
    assert (is_shared av a = true) as Hsh' by congruence.
    destruct a as [xs|p0 cp xs]; [done|].
    destruct (rep_big _ _ _ _ _ _ Hrep Ha) as (Hv & _). simpl in Hv.
    rewrite (get_buf_eq _ _ _ _ _ _ _ Hv) in Hbuf.
    assert (p0 = p) as -> by congruence.
    rewrite (ref_count_rep _ _ _ _ _ _ Hrep Ha) in Hrc.
    assert (rc = owners av p) as -> by congruence.
    simpl in Hsh'. apply bool_decide_eq_true in Hsh'.
    unfold cleared in Hrep'. simpl in Hrep'.
    rewrite bool_decide_eq_true_2 in Hrep' by done.
    pose proof (owners_insert av this (ASmall []) p) as Hins.
    rewrite Ha in Hins. unfold nb in Hins. rewrite big_at_same in Hins.
    simpl in Hins.
    destruct (owners_pos_owner (<[this := ASmall []]> av) p)
      as (id & c0 & xs0 & Hid); [lia|].
    rewrite (ref_count_rep _ _ _ _ _ _ Hrep' Hid).
    split; [f_equal|]; lia.
Qed.

(** ** A capacity that big mode never has *)

Definition big_cap_ok (a : avec) : Prop :=
  match a with ABig _ c _ => SMALL_SIZE < c | ASmall _ => True end.

Definition big_caps_ok (av : gmap nat avec) : Prop :=
  ∀ id a, av !! id = Some a → big_cap_ok a.

(** Every instance in big mode has a capacity above [SMALL_SIZE]. *)
Definition big_capacity (w : world) : Prop :=
  ∀ id c, get_is_small_ id w = Ok false w → capacity id w = Ok c w →
          SMALL_SIZE < c.

Lemma big_caps_ok_insert av id a :
  big_caps_ok av → big_cap_ok a → big_caps_ok (<[id := a]> av).
Proof.
  intros Hav Ha id' a' Hl.
  apply lookup_insert_Some in Hl as [[_ <-]|[_ Hl]]; [done|].
  by eapply Hav.
Qed.

Lemma big_capacity_rep w av : rep w av → big_caps_ok av ↔ big_capacity w.
Proof.
  destruct w as [vs hp c]. intros Hrep. split.
  - intros Hav id cp Hsm Hcap.
    destruct (av !! id) as [a|] eqn:Ha.
    2:{ apply (proj2 (rep_none _ _ id Hrep)) in Ha. simpl in Ha.
        unfold get_is_small_, get_vec, bind in Hsm. simpl in Hsm.
        by rewrite Ha in Hsm. }
    rewrite (get_is_small_rep _ _ _ _ _ _ Hrep Ha) in Hsm.
    rewrite (capacity_rep _ _ _ _ _ _ Hrep Ha) in Hcap.
    specialize (Hav id a Ha). destruct a as [|p c0 xs]; [done|].
    simpl in *. congruence.
  - intros Hw id a Ha. destruct a as [xs|p c0 xs]; [done|]. simpl.
    apply (Hw id).
    + exact (get_is_small_rep _ _ _ _ _ _ Hrep Ha).
    + exact (capacity_rep _ _ _ _ _ _ Hrep Ha).
Qed.

Lemma mutated_big_cap w av this a m a' :
  rep w av → av !! this = Some a → mutation_ok (is_shared av a) a m →
  big_cap_ok a →
  mutated (heap w) av a m a' → big_cap_ok a'.
Proof.
  intros Hrep Ha Hm Hok.
  assert (SMALL_SIZE ≤ acap a) as Hcap.
  { destruct a; simpl in *; lia. }
  assert (is_shared av a = true → SMALL_SIZE < acap a) as Hshared.
  { destruct a; simpl in *; [done|lia]. }
  assert (∀ xs', big_cap_ok (with_elems xs' a)) as Hwith.
  { intros xs'. by destruct a. }
  assert (∀ i x, 0 < acap a → inserted (heap w) av a i x a' →
                 big_cap_ok a') as Hins.
  { intros i x Hpos. unfold inserted, grows, new_cap.
    destruct (bool_decide (length (aelems a) = acap a)) eqn:Hfull; simpl.
    - apply bool_decide_eq_true in Hfull. rewrite decide_True by done.
      intros (p' & _ & ->). simpl. lia.
    - apply bool_decide_eq_false in Hfull. rewrite decide_False by done.
      destruct (is_shared av a) eqn:Hsh.
      + intros (p' & _ & ->). simpl. by apply Hshared.
      + by intros ->. }
  assert (∀ i j, erased (heap w) av a i j a' → big_cap_ok a') as Her.
  { intros i j. unfold erased. destruct (is_shared av a) eqn:Hsh.
    - intros (p' & _ & ->). simpl. by apply Hshared.
    - by intros ->. }
  destruct m as [x| |i x|i j|n| |]; simpl in *.
  - apply Hins. tauto.
  - apply Her.
  - apply Hins. tauto.
  - apply Her.
  - unfold reserved. case_decide; [by intros ->|].
    destruct (is_shared av a && bool_decide (n ≤ SMALL_SIZE)) eqn:Hd;
      [by intros ->|].
    destruct (is_shared av a || bool_decide (acap a < n)) eqn:Hu;
      [|by intros ->].
    intros (p' & _ & ->). simpl.
    destruct (is_shared av a) eqn:Hsh; simpl in *.
    + apply bool_decide_eq_false in Hd. lia.
    + apply bool_decide_eq_true in Hu. lia.
  - unfold shrunk. destruct a as [xs|p cp xs]; [by intros ->|].
    case_decide; [|by intros ->].
    case_decide; [by intros ->|].
    intros (p' & _ & ->). simpl. lia.
  - intros ->. unfold cleared. by destruct (is_shared av a).
Qed.

(** X15: every public operation that is called as [op_ok] asks (on
    live instances, with positions in range, [push_back] and [insert]
    on an instance whose capacity is not zero, and with a byte size that
    does not wrap for a block allocated with a capacity beyond the
    current one) keeps this invariant, whether it returns or throws: an
    instance in big mode has a capacity greater than [SMALL_SIZE]. *)
Theorem big_capacity_preserved w av o :
  rep w av → big_capacity w → op_ok av o →
  wp (run_op o) w
     (λ _ w', wf w' ∧ big_capacity w')
     (λ w', wf w' ∧ big_capacity w').
Proof.
  destruct w as [vs hp c]. intros Hrep Hbig Hok.
  apply (big_capacity_rep _ _ Hrep) in Hbig.
  assert (∀ w' av', rep w' av' → big_caps_ok av' →
                    wf w' ∧ big_capacity w') as Hdone.
  { intros w' av' Hrep' Hav'. split; [by exists av'|].
    by apply (big_capacity_rep _ _ Hrep'). }
  destruct o as [|other|this other|this m|this other]; simpl in *.
  - apply wp_bind. eapply ctor_spec; [exact Hrep|].
    intros t _ _ Hrep'. apply wp_ret.
    eapply Hdone; [exact Hrep'|]. by apply big_caps_ok_insert.
  - destruct Hok as [ao Hao]. apply wp_bind.
    eapply ctor_copy_spec; [exact Hrep|exact Hao| |].
    + intros t w' _ Hrep' _. apply wp_ret.
      eapply Hdone; [exact Hrep'|].
      apply big_caps_ok_insert; [done|by eapply Hbig].
    + intros w' _ _ Hrep'. by eapply Hdone.
  - destruct Hok as [[a Ha] [ao Hao]].
    destruct (decide (this = other)) as [<-|Hne].
    + unfold operator_assign. rewrite decide_True by done.
      apply wp_ret. by eapply Hdone.
    + eapply operator_assign_spec; [exact Hrep|exact Ha|exact Hao|done| |].
      * intros w' Hrep' _. eapply Hdone; [exact Hrep'|].
        apply big_caps_ok_insert; [done|by eapply Hbig].
      * intros w' _ _ Hrep'. by eapply Hdone.
  - destruct Hok as (a & Ha & Hm).
    eapply run_mutation_spec; [exact Hrep|exact Ha|done| |].
    + intros w' a' Hrep' Hmut. eapply Hdone; [exact Hrep'|].
      apply big_caps_ok_insert; [done|].
      eapply (mutated_big_cap _ _ _ _ _ _ Hrep Ha Hm); [by eapply Hbig|].
      exact Hmut.
    + intros w' _ Hrep'. by eapply Hdone.
  - destruct Hok as [[a Ha] [ao Hao]].
    destruct (decide (this = other)) as [<-|Hne].
    + unfold swap. rewrite swap_fuel_S, decide_True by done.
      apply wp_ret. by eapply Hdone.
    + eapply swap_spec; [exact Hrep|exact Ha|exact Hao|done| |].
      * intros w' Hrep'. eapply Hdone; [exact Hrep'|].
        apply big_caps_ok_insert; [|by eapply Hbig].
        apply big_caps_ok_insert; [done|by eapply Hbig].
      * intros w' av' _ _ Hav' Hrep'. eapply Hdone; [exact Hrep'|].
        destruct Hav' as [->|[->| ->]]; [done| |];
          (apply big_caps_ok_insert; [done|by eapply Hbig]).
Qed.

(** ** Calls on an empty instance *)

(** X16: the code does not test for emptiness: on an instance without
    elements [pop_back()] (which forms [end() - 1]), [back()] (which
    indexes with [size() - 1]) and a read through [front()] have
    undefined behaviour. *)
Theorem empty_instance_undefined w av this a :
  rep w av → av !! this = Some a → aelems a = [] →
  pop_back this w = Undef ∧
  back_const this w = Undef ∧
  (p <- front_const this ;; load p) w = Undef.
Proof.
  destruct w as [vs hp c]. intros Hrep Ha Hnil.
  pose proof (data_const_rep _ _ _ _ _ _ Hrep Ha) as Hd.
  pose proof (size_rep _ _ _ _ _ _ Hrep Ha) as Hn.
  pose proof (end_const_rep _ _ _ _ _ _ Hrep Ha) as He.
  rewrite Hnil in Hn, He. simpl in Hn, He.
  split; [|split].
  - unfold pop_back. by rewrite (bind_eq _ _ _ _ _ He).
  - unfold back_const.
    by rewrite (bind_eq _ _ _ _ _ Hd), (bind_eq _ _ _ _ _ Hn).
  - assert (front_const this (mk_world vs hp c)
            = Ok (region_of this a, 0) (mk_world vs hp c)) as Hp.
    { unfold front_const. by rewrite (bind_eq _ _ _ _ _ Hd). }
    rewrite (bind_eq _ _ _ _ _ Hp). unfold load. simpl.
    rewrite (region_slots_rep _ _ _ _ Hrep Ha), Hnil.
    destruct (pad (acap a) [] !! 0) as [[y|]|] eqn:Hl; [|done|done].
    by apply pad_lookup_Some in Hl.
Qed.

End socow_vector.

Global Arguments Ok {T A} a w.
Global Arguments Throw {T A} w.
Global Arguments Undef {T A}.

(** * Concrete runs

    [socow_vector<nat, 2>], built up from the empty state by calls of
    the public interface. *)

Section runs.

Local Notation "x <- c ;; k" := (bind c (λ x, k))
  (at level 100, c at next level, k at level 200, right associativity).
Local Notation "c ;; k" := (bind c (λ _, k))
  (at level 100, k at level 200, right associativity).

(** An LP64 target and [T = int]: [SIZE_MAX] is [2^64 - 1], the header
    of a block takes 16 bytes, an element 4. *)
Definition lp64 : layout := mk_layout 18446744073709551615 16 4.

(** No copy constructor throws. *)
Definition never : nat → bool := λ _, false.

(** The copy constructor throws at its call number [k]. *)
Definition throw_at (k : nat) : nat → bool := λ n, bool_decide (n = k).

Definition empty_world : @world nat := mk_world ∅ ∅ 0.

Definition final_world {A} (c : @M nat A) : world :=
  match c empty_world with
  | Ok _ w | Throw w => w
  | Undef => empty_world
  end.

(** [a = {1, 2, 3}] (object 0, in big mode), [b] a copy of [a]
    (object 1, sharing the block of [a]) and [c = {7}] (object 2, in
    small mode). *)
Definition scene : M unit :=
  a <- ctor 2 ;;
  push_back 2 lp64 never a 1 ;;
  push_back 2 lp64 never a 2 ;;
  push_back 2 lp64 never a 3 ;;
  _ <- ctor_copy 2 lp64 never a ;;
  c <- ctor 2 ;;
  push_back 2 lp64 never c 7.

Definition scene_world : world := final_world scene.

Definition scene_av : gmap nat avec :=
  <[0 := ABig 0 4 [1; 2; 3]]>
    (<[1 := ABig 0 4 [1; 2; 3]]> (<[2 := ASmall [7]]> ∅)).

(** [a = {1, 2, 3}] alone, in big mode on a block of its own. *)
Definition solo : M unit :=
  a <- ctor 2 ;;
  push_back 2 lp64 never a 1 ;;
  push_back 2 lp64 never a 2 ;;
  push_back 2 lp64 never a 3.

Definition solo_world : world := final_world solo.

Definition solo_av : gmap nat avec := <[0 := ABig 0 4 [1; 2; 3]]> ∅.

Ltac check_rep :=
  refine (rep_check_sound _ _ _ _ _); vm_compute; reflexivity.
Ltac compute_eq := vm_compute; reflexivity.
(** A capacity that fits, and a doubled capacity that fits or is not
    needed. *)
Ltac check_fits :=
  unfold growth_fits;
  first [ by (intros H; simpl in H; lia)
        | intros; unfold fits; simpl; lia ].

Example scene_runs : scene empty_world = Ok tt scene_world.
Proof. compute_eq. Qed.

Example scene_rep : rep 2 lp64 scene_world scene_av.
Proof. check_rep. Qed.

Example solo_runs : solo empty_world = Ok tt solo_world.
Proof. compute_eq. Qed.

(** [socow_vector<int, 0> v;] *)
Definition bare_world : world := final_world (ctor 0).

(** Without inline slots ([SMALL_SIZE = 0]) the first [push_back] asks
    for a block of capacity [0 * 2] and constructs the element past its
    end. *)
Example push_back_without_inline_slots :
  (a <- ctor 0 ;; push_back 0 lp64 never a 1) empty_world = Undef.
Proof. compute_eq. Qed.


(** [b.insert(b.begin() + 1, 9)] on the shared [b], the second copy of
    the call throwing: the call throws and [b] still reads [{1, 2, 3}]. *)
Lemma strong_guarantee_witness :
  (∃ w', run_guarded 2 lp64 (throw_at 7) 1 (GInsert 1 9) scene_world
         = Throw w') ∧
  (∀ w', run_guarded 2 lp64 (throw_at 7) 1 (GInsert 1 9) scene_world
         = Throw w' →
         observe 2 1 w' = Ok (3, 4, [1; 2; 3]) w') ∧
  (run_guarded 2 lp64 (throw_at 7) 1 (GInsert 1 9) scene_world = Undef →
   acap 2 (ABig 0 4 [1; 2; 3]) = 0 ∧
   ∃ i x, GInsert 1 9 = GInsert i x).
Proof.
  split; [eexists; compute_eq|].
  apply (strong_guarantee 2 lp64 (throw_at 7) scene_world scene_av 1
           (ABig 0 4 [1; 2; 3]) (GInsert 1 9)).
  - check_rep.
  - compute_eq.
  - split; [simpl; lia|check_fits].
  - compute_eq.
Defined.

(** The documented rule at one call: a mutator on a shared instance whose
    result fits inline leaves the instance in small mode. *)
Definition claimed_demotion (w : @world nat) (this : nat) (m : mutation)
    : Prop :=
  shared_buf this w = Ok true w →
  ∀ w' n, run_mutation 2 lp64 never this m w = Ok tt w' →
          size this w' = Ok n w' → n ≤ 2 →
          get_is_small_ this w' = Ok true w'.

(** [b.pop_back()] on the shared [b = {1, 2, 3}]: two elements are left,
    which fit inline, and [b] is in big mode still. *)
Lemma demotion_counterexample : ¬ claimed_demotion scene_world 1 MPopBack.
Proof.
  intros H.
  specialize (H ltac:(compute_eq)
    (final_world (scene ;; run_mutation 2 lp64 never 1 MPopBack)) 2
    ltac:(compute_eq) ltac:(compute_eq) ltac:(lia)).
  vm_compute in H. discriminate H.
Qed.

(** [b.pop_back()] on the shared [b]: a new block of capacity 4. *)
Lemma mutator_placement_witness :
  wp (run_mutation 2 lp64 never 1 MPopBack) scene_world
     (λ _ w', ∃ a', rep 2 lp64 w' (<[1 := a']> scene_av) ∧
                    ∃ p', heap scene_world !! p' = None ∧
                          a' = ABig p' 4 [1; 2])
     (λ w', may_throw never ∧ rep 2 lp64 w' scene_av).
Proof.
  apply (mutator_placement 2 lp64 never scene_world scene_av 1
           (ABig 0 4 [1; 2; 3]) MPopBack).
  - check_rep.
  - compute_eq.
  - simpl. lia.
Defined.

(** [b.push_back(4)] on the shared [b]. *)
Example size_le_capacity_preserved_run :
  wp (run_op 2 lp64 never (OMutate 1 (MPushBack 4))) scene_world
     (λ _ w', wf 2 lp64 w' ∧ size_le_capacity 2 w')
     (λ w', wf 2 lp64 w' ∧ size_le_capacity 2 w').
Proof.
  apply (size_le_capacity_preserved 2 lp64 never scene_world scene_av
           (OMutate 1 (MPushBack 4))).
  - check_rep.
  - exists (ABig 0 4 [1; 2; 3]). split; [compute_eq|].
    split; [simpl; lia|check_fits].
Qed.

(** [socow_vector<int, 0> v; v.push_back(1);] *)
Lemma push_back_no_capacity_witness :
  push_back 0 lp64 never 0 1 bare_world = Undef.
Proof.
  apply (push_back_no_capacity 0 lp64 never bare_world
           (<[0 := ASmall []]> ∅) 0 (ASmall []) 1).
  - check_rep.
  - compute_eq.
  - reflexivity.
  - check_fits.
Defined.

(** The documented rule at one call: the assignment raises the reference count
    of the block of the source by one. *)
Definition claimed_retain (w : @world nat) (a b : nat) : Prop :=
  ∀ p rc w', get_buf_ b w = Ok p w → ref_count_at w p = Some rc →
             operator_assign 2 lp64 never a b w = Ok tt w' →
             ref_count_at w' p = Some (rc + 1).

(** [b = a] while [b] is a copy of [a] already: the count of the block
    is 2 before and 2 after. *)
Lemma retain_counterexample : ¬ claimed_retain scene_world 1 0.
Proof.
  intros H.
  specialize (H 0 2 (final_world (scene ;; operator_assign 2 lp64 never 1 0))
    ltac:(compute_eq) ltac:(compute_eq) ltac:(compute_eq)).
  vm_compute in H. discriminate H.
Qed.

(** [c = a], the small [c] adopting the block of [a]. *)
Lemma copy_assign_adopts_witness :
  wp (operator_assign 2 lp64 never 2 0) scene_world
     (λ _ w',
        observe 2 0 w' = Ok (3, 4, [1; 2; 3]) w' ∧
        size 2 w' = Ok 3 w' ∧
        contents 2 2 w' = Ok [1; 2; 3] w' ∧
        ∀ p cp ys, ABig 0 4 [1; 2; 3] = ABig p cp ys →
          get_is_small_ 2 w' = Ok false w' ∧
          get_buf_ 2 w' = Ok p w' ∧
          capacity 2 2 w' = Ok cp w' ∧
          copies w' = copies scene_world ∧
          ∃ rc, ref_count_at scene_world p = Some rc ∧
                ref_count_at w' p
                = Some (if big_at p (ASmall [7]) then rc else rc + 1))
     (λ w', may_throw never ∧ a_small (ABig 0 4 [1; 2; 3]) = true ∧
            rep 2 lp64 w' scene_av).
Proof.
  apply (copy_assign_adopts 2 lp64 never scene_world scene_av 2 0
           (ASmall [7]) (ABig 0 4 [1; 2; 3])).
  - check_rep.
  - compute_eq.
  - compute_eq.
  - lia.
Defined.

(** [b.reserve(5)] on the shared [b]: a new block of capacity 5. *)
Example reserve_contract_run :
  wp (reserve 2 lp64 never 1 5) scene_world
     (λ _ w', ∃ a',
        rep 2 lp64 w' (<[1 := a']> scene_av) ∧
        size 1 w' = Ok 3 w' ∧
        contents 2 1 w' = Ok [1; 2; 3] w' ∧
        (5 ≤ 3 → w' = scene_world) ∧
        (3 < 5 →
         ∃ p', heap scene_world !! p' = None ∧ a' = ABig p' 5 [1; 2; 3] ∧
               capacity 2 1 w' = Ok 5 w' ∧
               ref_count_at w' p' = Some 1))
     (λ w', may_throw never ∧ rep 2 lp64 w' scene_av).
Proof.
  apply (reserve_contract 2 lp64 never scene_world scene_av 1
           (ABig 0 4 [1; 2; 3]) 5).
  - check_rep.
  - compute_eq.
  - check_fits.
Qed.

(** [a.reserve(10); a.shrink_to_fit()]: capacity 3 in the end. *)
Example reserve_shrink_round_trip_run :
  wp (reserve 2 lp64 never 0 10 ;; shrink_to_fit 2 lp64 never 0) scene_world
     (λ _ w', observe 2 0 w' = Ok (3, 3, [1; 2; 3]) w' ∧
              get_is_small_ 0 w' = Ok false w')
     (λ w', may_throw never ∧ wf 2 lp64 w').
Proof.
  apply (reserve_shrink_round_trip 2 lp64 never scene_world scene_av 0
           (ABig 0 4 [1; 2; 3]) 10).
  - check_rep.
  - compute_eq.
  - simpl. lia.
  - check_fits.
Qed.

(** The capacity [2^62 + 1]: [16 + 4 * (2^62 + 1)] is [2^64 + 20], which
    wraps to 20 bytes, a header and one element. *)
Definition wrapping_capacity : nat := N.to_nat 4611686018427387905.

Lemma wrapping_capacity_slots : alloc_slots lp64 wrapping_capacity = Some 1.
Proof.
  unfold alloc_slots, wrapping_capacity. rewrite N2Nat.id. compute_eq.
Qed.

Lemma wrapping_capacity_allocates :
  reserve_allocates 2 (is_shared solo_av (ABig 0 4 [1; 2; 3]))
    (ABig 0 4 [1; 2; 3]) wrapping_capacity = true.
Proof.
  assert (is_shared solo_av (ABig 0 4 [1; 2; 3]) = false) as ->
    by compute_eq.
  unfold reserve_allocates, wrapping_capacity.
  rewrite bool_decide_eq_true_2 by (simpl length; lia).
  cbn [andb orb negb]. apply bool_decide_eq_true_2. simpl acap. lia.
Qed.

(** [a.reserve(2^62 + 1)] on [a = {1, 2, 3}]: three elements are copied
    into a block that has room for one. *)
Lemma reserve_overflow_witness :
  reserve 2 lp64 never 0 wrapping_capacity solo_world = Undef.
Proof.
  apply (reserve_overflow 2 lp64 never solo_world solo_av 0
           (ABig 0 4 [1; 2; 3]) wrapping_capacity 1).
  - reflexivity.
  - check_rep.
  - compute_eq.
  - exact wrapping_capacity_allocates.
  - exact wrapping_capacity_slots.
  - simpl. lia.
Defined.

(** [a.reserve(2^62 + 1); a.shrink_to_fit()] on [a = {1, 2, 3}]. *)
Lemma reserve_shrink_overflow_witness :
  (reserve 2 lp64 never 0 wrapping_capacity ;; shrink_to_fit 2 lp64 never 0)
    solo_world = Undef.
Proof.
  apply (reserve_shrink_overflow 2 lp64 never solo_world solo_av 0
           (ABig 0 4 [1; 2; 3]) wrapping_capacity 1).
  - reflexivity.
  - check_rep.
  - compute_eq.
  - exact wrapping_capacity_allocates.
  - exact wrapping_capacity_slots.
  - simpl. lia.
Defined.

(** [a.swap(c); a.swap(c)] with [a] big and [c] small. *)
Lemma swap_twice_restores_witness :
  wp (swap 2 lp64 never 0 2 ;; swap 2 lp64 never 0 2) scene_world
     (λ _ w', rep 2 lp64 w' scene_av ∧
              observe 2 0 w' = Ok (3, 4, [1; 2; 3]) w' ∧
              observe 2 2 w' = Ok (1, 2, [7]) w')
     (λ w', may_throw never ∧
            a_small (ABig 0 4 [1; 2; 3]) || a_small (ASmall [7]) = true ∧
            wf 2 lp64 w').
Proof.
  apply (swap_twice_restores 2 lp64 never scene_world scene_av 0 2
           (ABig 0 4 [1; 2; 3]) (ASmall [7])).
  - check_rep.
  - compute_eq.
  - compute_eq.
  - compute_eq.
  - compute_eq.
Defined.

(** The documented rule at one call: the erase of an empty range returns [pos]
    and leaves the object as it was. *)
Definition claimed_noop (w : @world nat) (this : nat) (pos : ptr) : Prop :=
  ∀ q w', erase 2 lp64 never this pos pos w = Ok q w' →
          q = pos ∧ vecs w' !! this = vecs w !! this.

(** [b.erase(pos, pos)] at [pos = begin() + 1] of the shared [b]: the
    iterator returned points into a new block. *)
Lemma noop_counterexample :
  begin_const 1 scene_world = Ok (in_buf 0, 0) scene_world ∧
  ¬ claimed_noop scene_world 1 (in_buf 0, 1).
Proof.
  split; [compute_eq|]. intros H.
  destruct (H (in_buf 1, 1)
    (final_world (scene ;; erase 2 lp64 never 1 (in_buf 0, 1) (in_buf 0, 1)))
    ltac:(compute_eq)) as [Hq _].
  discriminate Hq.
Qed.

(** [b.erase(pos, pos)] on the shared [b]: three elements copied to a
    new block. *)
Lemma erase_empty_range_witness :
  wp (erase 2 lp64 never 1 (in_buf 0, 1) (in_buf 0, 1)) scene_world
     (λ q w',
        observe 2 1 w' = Ok (3, 4, [1; 2; 3]) w' ∧
        ∃ p', heap scene_world !! p' = None ∧ q = (in_buf p', 1) ∧
              rep 2 lp64 w' (<[1 := ABig p' 4 [1; 2; 3]]> scene_av) ∧
              copies w' = copies scene_world + 3)
     (λ w', may_throw never ∧ true = true ∧
            observe 2 1 w' = Ok (3, 4, [1; 2; 3]) w').
Proof.
  apply (erase_empty_range 2 lp64 never scene_world scene_av 1
           (ABig 0 4 [1; 2; 3]) 1).
  - check_rep.
  - compute_eq.
  - simpl. lia.
Defined.

(** [a.clear()] on [solo]: the block of capacity 4 stays. *)
Lemma clear_private_big_witness :
  ∃ w', clear 2 lp64 never 0 solo_world = Ok tt w' ∧
        rep 2 lp64 w' (<[0 := ABig 0 4 []]> solo_av) ∧
        get_is_small_ 0 w' = Ok false w' ∧
        get_buf_ 0 w' = Ok 0 w' ∧
        capacity 2 0 w' = Ok 4 w' ∧
        size 0 w' = Ok 0 w' ∧
        heap w' !! 0 = Some (mk_buffer 4 1 (replicate 4 None)) ∧
        copies w' = copies solo_world.
Proof.
  apply (clear_private_big 2 lp64 never solo_world solo_av 0 0 4 [1; 2; 3]).
  - check_rep.
  - compute_eq.
  - compute_eq.
Defined.

(** ** Further runs on [scene] and [solo] *)

(** [b.insert(b.begin() + 1, 9)] on the shared [b = {1, 2, 3}]. *)
Lemma insert_result_witness :
  wp (b <- begin_const 1 ;; insert 2 lp64 never 1 (ptr_add b 1) 9) scene_world
     (λ q w',
        observe 2 1 w' = Ok (4, 4, [1; 9; 2; 3]) w' ∧
        (b <- begin_const 1 ;; ret (ptr_add b 1)) w' = Ok q w' ∧
        load 2 q w' = Ok 9 w')
     (λ w', may_throw never ∧ observe 2 1 w' = Ok (3, 4, [1; 2; 3]) w').
Proof.
  apply (insert_result 2 lp64 never scene_world scene_av 1
           (ABig 0 4 [1; 2; 3]) 1 9).
  - check_rep.
  - compute_eq.
  - simpl. lia.
  - simpl. lia.
  - check_fits.
Defined.

(** [a.erase(a.begin() + 1, a.begin() + 2)] on [solo]. *)
Lemma erase_result_witness :
  wp (b <- begin_const 0 ;; erase 2 lp64 never 0 (ptr_add b 1) (ptr_add b 2))
     solo_world
     (λ q w',
        observe 2 0 w' = Ok (2, 4, [1; 3]) w' ∧
        (b <- begin_const 0 ;; ret (ptr_add b 1)) w' = Ok q w' ∧
        (∀ y, [1; 2; 3] !! 2 = Some y → load 2 q w' = Ok y w') ∧
        (2 = 3 → end_const 0 w' = Ok q w'))
     (λ w', may_throw never ∧
            is_shared solo_av (ABig 0 4 [1; 2; 3]) = true ∧
            observe 2 0 w' = Ok (3, 4, [1; 2; 3]) w').
Proof.
  apply (erase_result 2 lp64 never solo_world solo_av 0 (ABig 0 4 [1; 2; 3]) 1 2).
  - check_rep.
  - compute_eq.
  - lia.
  - simpl. lia.
Defined.

(** [c.erase(c.insert(c.begin(), 5))] on the small [c = {7}]. *)
Lemma insert_erase_round_trip_witness :
  wp (b <- begin_const 2 ;;
      q <- insert 2 lp64 never 2 (ptr_add b 0) 5 ;;
      erase1 2 lp64 never 2 q) scene_world
     (λ q' w',
        size 2 w' = Ok 1 w' ∧
        contents 2 2 w' = Ok [7] w' ∧
        (b <- begin_const 2 ;; ret (ptr_add b 0)) w' = Ok q' w')
     (λ w', may_throw never ∧ observe 2 2 w' = Ok (1, 2, [7]) w').
Proof.
  apply (insert_erase_round_trip 2 lp64 never scene_world scene_av 2
           (ASmall [7]) 0 5).
  - check_rep.
  - compute_eq.
  - simpl. lia.
  - simpl. lia.
  - check_fits.
Defined.

(** Pushing [8, 9] onto the small [c = {7}], which grows on the way. *)
Lemma push_back_all_appends_witness :
  wp (push_back_all 2 lp64 never 2 [8; 9]) scene_world
     (λ _ w',
        size 2 w' = Ok 3 w' ∧
        contents 2 2 w' = Ok [7; 8; 9] w' ∧
        ∀ id r, id ≠ 2 → observe 2 id scene_world = Ok r scene_world →
                observe 2 id w' = Ok r w')
     (λ w', may_throw never ∧
            ∃ k, k < 2 ∧ contents 2 2 w' = Ok ([7] ++ take k [8; 9]) w').
Proof.
  apply (push_back_all_appends 2 lp64 never scene_world scene_av 2
           (ASmall [7]) [8; 9]).
  - check_rep.
  - compute_eq.
  - simpl. lia.
  - check_fits.
Defined.

(** [b.push_back(4); b.back(); b.pop_back()] on the shared [b]. *)
Lemma push_back_pop_back_witness :
  wp (push_back 2 lp64 never 1 4 ;;
      p <- back_const 1 ;;
      y <- load 2 p ;;
      pop_back 2 lp64 never 1 ;;
      ret y) scene_world
     (λ y w',
        y = 4 ∧ size 1 w' = Ok 3 w' ∧ contents 2 1 w' = Ok [1; 2; 3] w')
     (λ w', may_throw never ∧ observe 2 1 w' = Ok (3, 4, [1; 2; 3]) w').
Proof.
  apply (push_back_pop_back 2 lp64 never scene_world scene_av 1
           (ABig 0 4 [1; 2; 3]) 4).
  - check_rep.
  - compute_eq.
  - simpl. lia.
  - check_fits.
Defined.

(** Reading the shared [b] through the const accessors. *)
Lemma const_access_witness :
  (∀ i y, [1; 2; 3] !! i = Some y →
          (p <- operator_index_const 1 i ;; load 2 p) scene_world
          = Ok y scene_world) ∧
  (∀ y, head [1; 2; 3] = Some y →
        (p <- front_const 1 ;; load 2 p) scene_world = Ok y scene_world) ∧
  (∀ y, last [1; 2; 3] = Some y →
        (p <- back_const 1 ;; load 2 p) scene_world = Ok y scene_world) ∧
  empty 1 scene_world = Ok (bool_decide ([1; 2; 3] = [])) scene_world.
Proof.
  apply (const_access 2 lp64 scene_world scene_av 1 (ABig 0 4 [1; 2; 3])).
  - check_rep.
  - compute_eq.
Defined.

(** [b[1] = 9] on the shared [b]: [a] still reads [{1, 2, 3}]. *)
Lemma element_write_isolated_witness :
  wp (p <- operator_index 2 lp64 never 1 1 ;; store 2 p 9) scene_world
     (λ _ w',
        observe 2 1 w' = Ok (3, 4, [1; 9; 3]) w' ∧
        ∀ id r, id ≠ 1 → observe 2 id scene_world = Ok r scene_world →
                observe 2 id w' = Ok r w')
     (λ w', may_throw never ∧
            is_shared scene_av (ABig 0 4 [1; 2; 3]) = true ∧
            ∀ id r, observe 2 id scene_world = Ok r scene_world →
                    observe 2 id w' = Ok r w').
Proof.
  apply (element_write_isolated 2 lp64 never scene_world scene_av 1
           (ABig 0 4 [1; 2; 3]) 1 9).
  - check_rep.
  - compute_eq.
  - simpl. lia.
Defined.

(** The mutable [data()] of the shared [b]. *)
Lemma mutable_data_gate_witness :
  (shared_buf 1 scene_world = Ok false scene_world →
   data 2 lp64 never 1 scene_world = data_const 1 scene_world) ∧
  (∀ p rc, shared_buf 1 scene_world = Ok true scene_world →
           get_buf_ 1 scene_world = Ok p scene_world →
           ref_count_at scene_world p = Some rc →
     wp (data 2 lp64 never 1) scene_world
        (λ q w',
           ∃ p', heap scene_world !! p' = None ∧ q = (in_buf p', 0) ∧
                 data_const 1 w' = Ok q w' ∧
                 ref_count_at w' p' = Some 1 ∧
                 ref_count_at w' p = Some (rc - 1) ∧ 0 < rc - 1 ∧
                 copies w' = copies scene_world + 3 ∧
                 ∀ id r, observe 2 id scene_world = Ok r scene_world →
                         observe 2 id w' = Ok r w')
        (λ w', may_throw never ∧ vecs w' = vecs scene_world ∧
               heap w' = heap scene_world)).
Proof.
  apply (mutable_data_gate 2 lp64 never scene_world scene_av 1
           (ABig 0 4 [1; 2; 3])).
  - check_rep.
  - compute_eq.
Defined.

(** The destructor of the shared [b]: the block stays for [a]. *)
Lemma destructor_releases_witness :
  ∃ w', dtor 2 lp64 never 1 scene_world = Ok tt w' ∧
        vecs w' = delete 1 (vecs scene_world) ∧
        copies w' = copies scene_world ∧
        rep 2 lp64 w' (delete 1 scene_av) ∧
        (∀ id r, id ≠ 1 → observe 2 id scene_world = Ok r scene_world →
                 observe 2 id w' = Ok r w') ∧
        (∀ p rc, get_buf_ 1 scene_world = Ok p scene_world →
                 get_is_small_ 1 scene_world = Ok false scene_world →
                 ref_count_at scene_world p = Some rc →
                 ref_count_at w' p
                 = if decide (rc = 1) then None else Some (rc - 1)) ∧
        (∀ q, is_Some (heap w' !! q) →
              ∃ id, id ≠ 1 ∧ get_is_small_ id w' = Ok false w' ∧
                    get_buf_ id w' = Ok q w').
Proof.
  apply (destructor_releases 2 lp64 never scene_world scene_av 1
           (ABig 0 4 [1; 2; 3])).
  - check_rep.
  - compute_eq.
Defined.

(** A copy of the big [a]. *)
Lemma copy_constructor_witness :
  wp (ctor_copy 2 lp64 never 0) scene_world
     (λ t w',
        vecs scene_world !! t = None ∧
        observe 2 t w' = Ok (3, 4, [1; 2; 3]) w' ∧
        (∀ id r, observe 2 id scene_world = Ok r scene_world →
                 observe 2 id w' = Ok r w') ∧
        (∀ p rc, get_is_small_ 0 scene_world = Ok false scene_world →
                 get_buf_ 0 scene_world = Ok p scene_world →
                 ref_count_at scene_world p = Some rc →
                 get_is_small_ t w' = Ok false w' ∧
                 get_buf_ t w' = Ok p w' ∧
                 ref_count_at w' p = Some (rc + 1) ∧
                 copies w' = copies scene_world))
     (λ w', may_throw never ∧
            get_is_small_ 0 scene_world = Ok true scene_world ∧
            rep 2 lp64 w' scene_av).
Proof.
  apply (copy_constructor 2 lp64 never scene_world scene_av 0
           (ABig 0 4 [1; 2; 3])).
  - check_rep.
  - compute_eq.
Defined.

(** [a.swap(c)] with [a] big and [c] small. *)
Lemma swap_exchanges_witness :
  wp (swap 2 lp64 never 0 2) scene_world
     (λ _ w',
        observe 2 0 w' = Ok (1, 2, [7]) w' ∧
        observe 2 2 w' = Ok (3, 4, [1; 2; 3]) w' ∧
        ∀ id r, id ≠ 0 → id ≠ 2 →
                observe 2 id scene_world = Ok r scene_world →
                observe 2 id w' = Ok r w')
     (λ w', may_throw never ∧
            a_small (ABig 0 4 [1; 2; 3]) || a_small (ASmall [7]) = true ∧
            wf 2 lp64 w' ∧
            (observe 2 0 w' = Ok (3, 4, [1; 2; 3]) w' ∨
             observe 2 0 w' = Ok (1, 2, [7]) w') ∧
            (observe 2 2 w' = Ok (3, 4, [1; 2; 3]) w' ∨
             observe 2 2 w' = Ok (1, 2, [7]) w') ∧
            ∀ id r, id ≠ 0 → id ≠ 2 →
                    observe 2 id scene_world = Ok r scene_world →
                    observe 2 id w' = Ok r w').
Proof.
  apply (swap_exchanges 2 lp64 never scene_world scene_av 0 2
           (ABig 0 4 [1; 2; 3]) (ASmall [7])).
  - check_rep.
  - compute_eq.
  - compute_eq.
  - lia.
Defined.

(** [a.shrink_to_fit()] on [solo]: capacity 4 becomes 3. *)
Lemma shrink_to_fit_contract_witness :
  wp (shrink_to_fit 2 lp64 never 0) solo_world
     (λ _ w',
        observe 2 0 w' = Ok (3, 3, [1; 2; 3]) w' ∧
        (false = true ∨ 4 ≤ 3 → w' = solo_world) ∧
        (false = false → 3 < 4 →
         get_is_small_ 0 w' = Ok false w' ∧
         shared_buf 0 w' = Ok false w') ∧
        shrink_to_fit 2 lp64 never 0 w' = Ok tt w' ∧
        ∀ id r, id ≠ 0 → observe 2 id solo_world = Ok r solo_world →
                observe 2 id w' = Ok r w')
     (λ w', may_throw never ∧ rep 2 lp64 w' solo_av).
Proof.
  apply (shrink_to_fit_contract 2 lp64 never solo_world solo_av 0
           (ABig 0 4 [1; 2; 3])).
  - check_rep.
  - compute_eq.
Defined.

(** [b.reserve(6)] on the shared [b], then three elements pushed. *)
Lemma reserve_then_push_back_witness :
  wp (reserve 2 lp64 never 1 6) scene_world
     (λ _ w1,
        ∃ b c, begin_const 1 w1 = Ok b w1 ∧
               capacity 2 1 w1 = Ok c w1 ∧ 6 ≤ c ∧
               shared_buf 1 w1 = Ok false w1 ∧
               wp (push_back_all 2 lp64 never 1 [4; 5; 6]) w1
                  (λ _ w2, begin_const 1 w2 = Ok b w2 ∧
                           capacity 2 1 w2 = Ok c w2 ∧
                           contents 2 1 w2 = Ok [1; 2; 3; 4; 5; 6] w2)
                  (λ w2, may_throw never ∧
                         begin_const 1 w2 = Ok b w2 ∧
                         capacity 2 1 w2 = Ok c w2))
     (λ w1, may_throw never ∧ rep 2 lp64 w1 scene_av).
Proof.
  apply (reserve_then_push_back 2 lp64 never scene_world scene_av 1
           (ABig 0 4 [1; 2; 3]) 6 [4; 5; 6]).
  - check_rep.
  - compute_eq.
  - check_fits.
  - simpl. lia.
  - simpl. lia.
Defined.

(** [b.clear()] on the shared [b]. *)
Lemma clear_contract_witness :
  ∃ w', clear 2 lp64 never 1 scene_world = Ok tt w' ∧
        copies w' = copies scene_world ∧
        observe 2 1 w' = Ok (0, 2, []) w' ∧
        empty 1 w' = Ok true w' ∧
        get_is_small_ 1 w' = Ok true w' ∧
        (∀ id r, id ≠ 1 → observe 2 id scene_world = Ok r scene_world →
                 observe 2 id w' = Ok r w') ∧
        (∀ p rc, shared_buf 1 scene_world = Ok true scene_world →
                 get_buf_ 1 scene_world = Ok p scene_world →
                 ref_count_at scene_world p = Some rc →
                 ref_count_at w' p = Some (rc - 1) ∧ 0 < rc - 1).
Proof.
  apply (clear_contract 2 lp64 never scene_world scene_av 1
           (ABig 0 4 [1; 2; 3])).
  - check_rep.
  - compute_eq.
Defined.

Lemma scene_big_capacity : big_capacity 2 scene_world.
Proof.
  apply (big_capacity_rep 2 lp64 scene_world scene_av); [check_rep|].
  intros id a Hl. unfold scene_av in Hl.
  apply lookup_insert_Some in Hl as [[_ <-]|[_ Hl]]; [simpl; lia|].
  apply lookup_insert_Some in Hl as [[_ <-]|[_ Hl]]; [simpl; lia|].
  apply lookup_insert_Some in Hl as [[_ <-]|[_ Hl]]; [done|].
  done.
Qed.

(** [c.push_back(8)] on the small [c = {7}]. *)
Lemma big_capacity_preserved_witness :
  wp (run_op 2 lp64 never (OMutate 2 (MPushBack 8))) scene_world
     (λ _ w', wf 2 lp64 w' ∧ big_capacity 2 w')
     (λ w', wf 2 lp64 w' ∧ big_capacity 2 w').
Proof.
  apply (big_capacity_preserved 2 lp64 never scene_world scene_av
           (OMutate 2 (MPushBack 8))).
  - check_rep.
  - exact scene_big_capacity.
  - exists (ASmall [7]). split; [compute_eq|].
    split; [simpl; lia|check_fits].
Defined.

(** A new, empty object. *)
Definition fresh_world : world := final_world (ctor 2).

Lemma empty_instance_undefined_witness :
  pop_back 2 lp64 never 0 fresh_world = Undef ∧
  back_const 0 fresh_world = Undef ∧
  (p <- front_const 0 ;; load 2 p) fresh_world = Undef.
Proof.
  apply (empty_instance_undefined 2 lp64 never fresh_world
           (<[0 := ASmall []]> ∅) 0 (ASmall [])).
  - check_rep.
  - compute_eq.
  - reflexivity.
Defined.

End runs.

End Socow.
